(** * Cover resolution engine of the game launcher (game_manager.py)

    A shallow embedding of the cover-art back end: the name normaliser of
    [IconExtractor], the two rate-limited API clients, the seven-tier
    fallback of [CoverAPIManager.get_cover] and the cache validator; and
    of the library around it: the game records, the choice of the
    executable by [DiskScanner] and the library of [GameManager].

    Conventions.
    - A Python [str] is a [string]; the character [c] stands for the code
      point of the same number, so the model covers the first 256 code
      points (U+0000 to U+00FF).  The character tables below are those of
      CPython's [re] and [str] on that range.
    - Time is counted in milliseconds on a logical clock that never runs
      backwards.
    - Everything the process does to the outside (HTTP, files, the log,
      sleeping) is recorded in a trace; what the outside answers is given
      by a [world], which sees the whole trace so far. *)

From Stdlib Require Import ZArith NArith String Ascii List Bool Lia Floats.
From stdpp Require Import base option list gmap strings pretty.

#[local] Set Warnings "-register-all".
#[local] Open Scope string_scope.
#[local] Open Scope Z_scope.

(** ** Characters and strings as Python sees them *)

Module PyStr.

Definition code (c : ascii) : N := N_of_ascii c.

Definition between (lo hi : N) (c : ascii) : bool :=
  ((lo <=? code c) && (code c <=? hi))%N.

(** [str.isspace], which is also [\s] of [re] on str patterns. *)
Definition isspace (c : ascii) : bool :=
  between 9 13 c || between 28 31 c || between 32 32 c
  || between 133 133 c || between 160 160 c.

(** [\d]: decimal digits. *)
Definition isdecimal (c : ascii) : bool := between 48 57 c.

Definition isupper_ascii (c : ascii) : bool := between 65 90 c.
Definition islower_ascii (c : ascii) : bool := between 97 122 c.

(** [str.isalnum]: letters, decimal digits, and the characters that are
    digits or numeric without being decimal (superscripts, fractions). *)
Definition isalnum (c : ascii) : bool :=
  isdecimal c || isupper_ascii c || islower_ascii c
  || between 170 170 c || between 178 179 c || between 181 181 c
  || between 185 186 c || between 188 190 c
  || between 192 214 c || between 216 246 c || between 248 255 c.

(** [\w]: alphanumeric or underscore. *)
Definition isword (c : ascii) : bool := isalnum c || between 95 95 c.

(** Lower-casing of the letters a pattern of this program can contain. *)
Definition lower_ascii (c : ascii) : ascii :=
  if isupper_ascii c then ascii_of_N (code c + 32) else c.

(** [str.lower]. *)
Definition lower_char (c : ascii) : ascii :=
  if isupper_ascii c || between 192 214 c || between 216 222 c
  then ascii_of_N (code c + 32) else c.

Definition lower (s : string) : string :=
  string_of_list_ascii (map lower_char (list_ascii_of_string s)).

(** [s.replace(a, b)] for one-character [a] and [b]. *)
Definition replace_char (a b : ascii) (s : list ascii) : list ascii :=
  map (fun c => if Ascii.eqb c a then b else c) s.

(** [s.split()]: the maximal runs of characters that are not white space.
    [w] is the run being read, last character first. *)
Fixpoint split_from (w : list ascii) (s : list ascii) : list (list ascii) :=
  match s with
  | [] => match w with [] => [] | _ => [rev w] end
  | c :: s' =>
      if isspace c
      then match w with
           | [] => split_from [] s'
           | _ => rev w :: split_from [] s'
           end
      else split_from (c :: w) s'
  end.

Definition split (s : list ascii) : list (list ascii) := split_from [] s.

(** [' '.join(ws)]. *)
Fixpoint join_space (ws : list (list ascii)) : list ascii :=
  match ws with
  | [] => []
  | [w] => w
  | w :: ws' => w ++ " "%char :: join_space ws'
  end.

(** [s.startswith(p)]. *)
Fixpoint startswith (p s : string) : bool :=
  match p, s with
  | EmptyString, _ => true
  | String a p', String b s' => Ascii.eqb a b && startswith p' s'
  | String _ _, EmptyString => false
  end.

(** [s[:n]]. *)
Definition prefix_of (n : nat) (s : string) : string := String.substring 0 n s.

(** [len(s)]. *)
Definition len (s : string) : Z := Z.of_nat (String.length s).

End PyStr.

(** ** The fragment of [re] that the program uses

    Backtracking matching in the order of CPython's engine: alternatives
    left to right, a greedy repetition longest first, a lazy one shortest
    first.  A position is the character before it (if any) and the text that
    follows. *)

Module Re.

Inductive regex :=
| Eps
| Chr (p : ascii -> bool)
| Seq (r1 r2 : regex)
| Alt (r1 r2 : regex)
| Star (greedy : bool) (r : regex)
| Bol            (* ^ without MULTILINE *)
| Eol            (* $ without MULTILINE *)
| WordB.         (* \b *)

Definition word_before (prev : option ascii) : bool :=
  match prev with Some c => PyStr.isword c | None => false end.

Definition word_after (s : list ascii) : bool :=
  match s with c :: _ => PyStr.isword c | [] => false end.

Definition at_eol (s : list ascii) : bool :=
  match s with
  | [] => true
  | [c] => Ascii.eqb c "010"%char
  | _ => false
  end.

Definition cont := option ascii -> list ascii -> option (list ascii).

(** [rmatch r prev s k]: match [r] at the position ([prev], [s]), then
    hand the position reached to [k]; the result is the text left after
    the first complete match in backtracking order.  A repetition goes on
    only while its body consumes text, so the length of the text bounds
    the number [n] of its turns. *)
Fixpoint rmatch (r : regex) (prev : option ascii) (s : list ascii) (k : cont)
  {struct r} : option (list ascii) :=
  match r with
  | Eps => k prev s
  | Chr p =>
      match s with
      | c :: s' => if p c then k (Some c) s' else None
      | [] => None
      end
  | Seq r1 r2 => rmatch r1 prev s (fun prev' s' => rmatch r2 prev' s' k)
  | Alt r1 r2 =>
      match rmatch r1 prev s k with
      | Some rest => Some rest
      | None => rmatch r2 prev s k
      end
  | Star greedy r1 =>
      (fix loop (n : nat) (prev : option ascii) (s : list ascii) :=
         match n with
         | O => k prev s
         | S n' =>
             let more :=
               rmatch r1 prev s
                 (fun prev' s' =>
                    if (length s' <? length s)%nat then loop n' prev' s' else None) in
             if greedy
             then match more with Some rest => Some rest | None => k prev s end
             else match k prev s with Some rest => Some rest | None => more end
         end) (S (length s)) prev s
  | Bol => match prev with None => k prev s | Some _ => None end
  | Eol => if at_eol s then k prev s else None
  | WordB => if xorb (word_before prev) (word_after s) then k prev s else None
  end.

(** Number of characters of the match that starts at this position. *)
Definition match_at (r : regex) (prev : option ascii) (s : list ascii) : option nat :=
  match rmatch r prev s (fun _ rest => Some rest) with
  | Some rest => Some (length s - length rest)%nat
  | None => None
  end.

(** [re.sub(r, '', s)]: scan from the left, drop each match, resume after
    it.  [skip] counts the characters of the current match still to drop.
    An empty match removes nothing. *)
Fixpoint remove_from (r : regex) (prev : option ascii) (s : list ascii) (skip : nat)
  : list ascii :=
  match s with
  | [] => []
  | c :: s' =>
      match skip with
      | S n => remove_from r (Some c) s' n
      | O =>
          match match_at r prev s with
          | Some (S n) => remove_from r (Some c) s' n
          | _ => c :: remove_from r (Some c) s' O
          end
      end
  end.

Definition remove (r : regex) (s : list ascii) : list ascii :=
  remove_from r None s 0.

(** [re.search(r, s)] finds something to remove. *)
Fixpoint found_from (r : regex) (prev : option ascii) (s : list ascii) : bool :=
  match s with
  | [] => false
  | c :: s' =>
      match match_at r prev s with
      | Some (S _) => true
      | _ => found_from r (Some c) s'
      end
  end.

Definition found (r : regex) (s : list ascii) : bool := found_from r None s.

(** *** Pattern syntax *)

Definition chr (c : ascii) : regex := Chr (Ascii.eqb c).

(** A literal character under IGNORECASE. *)
Definition chr_i (c : ascii) : regex :=
  Chr (fun t => Ascii.eqb (PyStr.lower_ascii t) (PyStr.lower_ascii c)).

Fixpoint lit_i (s : string) : regex :=
  match s with
  | EmptyString => Eps
  | String c EmptyString => chr_i c
  | String c s' => Seq (chr_i c) (lit_i s')
  end.

Definition plus (r : regex) : regex := Seq r (Star true r).
Definition star (r : regex) : regex := Star true r.
Definition lazy_star (r : regex) : regex := Star false r.
Definition opt (r : regex) : regex := Alt r Eps.

Definition digit : regex := Chr PyStr.isdecimal.              (* \d *)
Definition space : regex := Chr PyStr.isspace.                (* \s *)
Definition dot : regex := Chr (fun c => negb (Ascii.eqb c "010"%char)).  (* . *)
(** [a-z] under IGNORECASE. *)
Definition az_i : regex :=
  Chr (fun c => PyStr.islower_ascii c || PyStr.isupper_ascii c).

(** rf'\b{j}\b' *)
Definition whole_word (j : regex) : regex := Seq WordB (Seq j WordB).

End Re.

(** ** IconExtractor._clean_name *)

Module CleanName.
Import Re.

(** The [junk] list, in the order of the source; each entry is used as
    rf'\b{j}\b' with IGNORECASE. *)
Definition junk : list regex :=
  [ (* Release group tags *)
    lit_i "TENOKE"; lit_i "RUNE"; lit_i "DODI"; lit_i "FitGirl"; lit_i "Repack";
    lit_i "EMPRESS"; lit_i "CODEX"; lit_i "SKIDROW"; lit_i "CPY"; lit_i "PLAZA";
    lit_i "HOODLUM"; lit_i "RAZOR1911"; lit_i "TiNYiSO"; lit_i "PROPHET";
    lit_i "DARKSiDERS"; lit_i "ANOMALY"; lit_i "SiMPLEX";
    (* Platform/Store tags *)
    lit_i "GOG"; lit_i "Portable"; lit_i "Steam"; lit_i "Epic";
    (* Version patterns: v\d+(\.\d+)*[a-z]?  Build\s*\d+  Update\s*\d+ *)
    Seq (chr_i "v") (Seq (plus digit)
      (Seq (star (Seq (chr ".") (plus digit))) (opt az_i)));
    Seq (lit_i "Build") (Seq (star space) (plus digit));
    Seq (lit_i "Update") (Seq (star space) (plus digit));
    (* Technical tags *)
    lit_i "DX11"; lit_i "DX12"; lit_i "x64"; lit_i "x86";
    Seq (lit_i "Multi") (plus digit); lit_i "DLC";
    lit_i "VR"; lit_i "HDR"; lit_i "4K"; lit_i "UHD";
    (* Edition tags *)
    lit_i "GOTY"; lit_i "Game of the Year";
    lit_i "Enhanced Edition"; lit_i "Definitive Edition"; lit_i "Complete Edition";
    lit_i "Ultimate Edition"; lit_i "Deluxe Edition"; lit_i "Premium Edition";
    lit_i "Gold Edition"; lit_i "Legendary Edition"; lit_i "Anniversary Edition";
    (* Status tags *)
    lit_i "Early Access"; lit_i "Demo"; lit_i "Alpha"; lit_i "Beta"; lit_i "Preview" ].

(** r'\[.*?\]' *)
Definition bracketed : regex := Seq (chr "[") (Seq (lazy_star dot) (chr "]")).

(** r'\((?:19|20)\d{2}\)' *)
Definition year : regex :=
  Seq (chr "(")
    (Seq (Alt (Seq (chr "1") (chr "9")) (Seq (chr "2") (chr "0")))
       (Seq digit (Seq digit (chr ")")))).

(** r'\(.*?\)' *)
Definition parenthesized : regex := Seq (chr "(") (Seq (lazy_star dot) (chr ")")).

(** The class [\s\-–—_.:]; the two dashes lie beyond U+00FF. *)
Definition separator : regex :=
  Chr (fun c => PyStr.isspace c || Ascii.eqb c "-" || Ascii.eqb c "_"
                || Ascii.eqb c "." || Ascii.eqb c ":").

(** r'^[\s\-–—_.:]+|[\s\-–—_.:]+$' *)
Definition edges : regex := Alt (Seq Bol (plus separator)) (Seq (plus separator) Eol).

(** The substitutions of the body, in order. *)
Definition passes : list regex :=
  map whole_word junk ++ [bracketed; year; parenthesized; edges].

Definition collapse (n : list ascii) : list ascii :=
  PyStr.join_space (PyStr.split n).

Definition clean_chars (name : list ascii) : list ascii :=
  let n := PyStr.replace_char "_" " " (PyStr.replace_char "." " " name) in
  let n := fold_left (fun n j => remove (whole_word j) n) junk n in
  let n := remove bracketed n in
  let n := remove year n in
  let n := remove parenthesized n in
  let n := remove edges n in
  collapse n.

Definition _clean_name (name : string) : string :=
  string_of_list_ascii (clean_chars (list_ascii_of_string name)).

(** Nothing is left for [_clean_name] to rewrite in [s]. *)
Definition settled (s : string) : bool :=
  let n := list_ascii_of_string s in
  forallb (fun c => negb (Ascii.eqb c "." || Ascii.eqb c "_")) n
  && forallb (fun r => negb (found r n)) passes.

End CleanName.

(** ** Python values and the operations the program applies to them *)

Module Py.

(** What [json.loads] returns. *)
Inductive value :=
| None_
| Bool (b : bool)
| Int (z : Z)
| Float (f : PrimFloat.float)
| Str (s : string)
| List (l : list value)
| Dict (items : list (string * value)).   (* keys are distinct *)

Inductive exn := AttributeError | TypeError | KeyError | IndexError.

Inductive result (A : Type) :=
| Val (a : A)
| Exc (e : exn).
Arguments Val {A} a.
Arguments Exc {A} e.

Definition rbind {A B} (r : result A) (f : A -> result B) : result B :=
  match r with Val a => f a | Exc e => Exc e end.

(** [try: r  except: d] *)
Definition catch {A} (r : result A) (d : A) : A :=
  match r with Val a => a | Exc _ => d end.

Definition is_truthy_str (s : string) : bool :=
  match s with EmptyString => false | _ => true end.

(** [bool(v)] *)
Definition truthy (v : value) : bool :=
  match v with
  | None_ => false
  | Bool b => b
  | Int z => negb (z =? 0)
  | Float f => negb (PrimFloat.eqb f 0%float)
  | Str s => is_truthy_str s
  | List l => match l with [] => false | _ => true end
  | Dict d => match d with [] => false | _ => true end
  end.

(** Truthiness of an [Optional[str]] argument. *)
Definition truthy_opt (o : option string) : bool :=
  match o with Some s => is_truthy_str s | None => false end.

Fixpoint lookup (k : string) (items : list (string * value)) : option value :=
  match items with
  | [] => None
  | (k', v) :: rest => if String.eqb k k' then Some v else lookup k rest
  end.

(** [v.get(k)] *)
Definition get (v : value) (k : string) : result value :=
  match v with
  | Dict d => Val (default None_ (lookup k d))
  | _ => Exc AttributeError
  end.

(** [v.get(k, d0)] *)
Definition get_default (v : value) (k : string) (d0 : value) : result value :=
  match v with
  | Dict d => Val (default d0 (lookup k d))
  | _ => Exc AttributeError
  end.

(** [v[k]] for a string [k] *)
Definition item (v : value) (k : string) : result value :=
  match v with
  | Dict d => match lookup k d with Some x => Val x | None => Exc KeyError end
  | _ => Exc TypeError
  end.

(** [v[0]] *)
Definition first (v : value) : result value :=
  match v with
  | List (x :: _) => Val x
  | List [] => Exc IndexError
  | Str (String c _) => Val (Str (String c EmptyString))
  | Str EmptyString => Exc IndexError
  | Dict _ => Exc KeyError
  | _ => Exc TypeError
  end.

Definition chars (s : string) : list value :=
  map (fun c => Str (String c EmptyString)) (list_ascii_of_string s).

(** [for x in v] *)
Definition iter (v : value) : result (list value) :=
  match v with
  | List l => Val l
  | Str s => Val (chars s)
  | Dict d => Val (map (fun kv => Str (fst kv)) d)
  | _ => Exc TypeError
  end.

(** [v[:3]] *)
Definition first3 (v : value) : result value :=
  match v with
  | List l => Val (List (firstn 3 l))
  | Str s => Val (Str (String.substring 0 3 s))
  | _ => Exc TypeError
  end.

(** [v == n] for an int literal [n] other than 0 and 1 *)
Definition eq_int (v : value) (n : Z) (fn : PrimFloat.float) : bool :=
  match v with
  | Int z => z =? n
  | Float f => PrimFloat.eqb f fn
  | _ => false
  end.

(** [v > 0] *)
Definition gt_zero (v : value) : result bool :=
  match v with
  | Int z => Val (0 <? z)
  | Float f => Val (PrimFloat.ltb 0%float f)
  | Bool b => Val b
  | _ => Exc TypeError
  end.

(** [for x in xs: ... f(x) ...], collecting, stopping at an exception. *)
Fixpoint traverse {A B} (f : A -> result B) (xs : list A) : result (list B) :=
  match xs with
  | [] => Val []
  | x :: xs' => rbind (f x) (fun y => rbind (traverse f xs') (fun ys => Val (y :: ys)))
  end.

End Py.

Export Py(value, exn, result, Val, Exc).

(** ** The outside world *)

Inductive level := DEBUG | INFO | WARNING | ERROR.

(** Who opens a URL. *)
Inductive caller := BySteamGridDB | ByRAWG | ByStoreSearch | ByDownload.

Inductive event :=
| Log (lv : level) (msg : string)           (* logger.<lv>(msg) *)
| Print (msg : string)                      (* print(msg) *)
| Clock (t : Z)                             (* time.time() returned t *)
| Sleep (d : Z)                             (* time.sleep(d) *)
| Urlopen (who : caller) (url : string) (at_ : Z)   (* urllib.request.urlopen, at clock time at_ *)
| WriteFile (path : string) (size : Z)      (* open(path,'wb').write(data) done *)
| DdgImages (query : string)                (* DDGS().images(query, max_results=1) *)
| IcoExtract (exe : string)                 (* icoextract.IconExtractor(exe) *)
| Uniform.                                  (* random.uniform(0.5, 1.0) *)

Record payload := { nbytes : Z; parsed : option value }.   (* len(data), json.loads(data) *)

Inductive http_reply :=
| Response (status : Z) (body : option payload)   (* no body: read() raised *)
| HTTPError (code : Z)
| URLError.                                       (* any other exception *)

(** Library functions the program calls and the module flags set at import. *)
Class Runtime := {
  md5_hexdigest : string -> string;       (* hashlib.md5(s.encode()).hexdigest() *)
  quote : string -> string;               (* urllib.parse.quote *)
  urlencode : list (string * string) -> string;   (* urllib.parse.urlencode *)
  repr : value -> string;                 (* str(v) for v neither str nor int *)
  path_join : string -> string -> string; (* str(dir / name) *)
  HAS_DDG : bool;
  HAS_ICOEXTRACT : bool
}.

(** The answers of the outside, each a function of the trace so far
    (latest event first). *)
Class World := {
  elapse : list event -> N;               (* time gone by since the time was last taken *)
  urlopen : list event -> string -> http_reply;
  open_wb : list event -> string -> bool;
  ddgs_images : list event -> string -> option (list value);
  ico_extract : list event -> string -> option (Z * option Z);  (* icon count, size of icon 0 *)
  uniform : list event -> N
}.

(** ** Program state *)

Record sgdb_client := {
  sg_api_key : option string;
  sg_session_cache : gmap string (list value);
  sg_last_request_time : Z;
  sg_min_delay : Z
}.

Record rawg_client := {
  rw_api_key : option string;
  rw_session_cache : gmap string value;
  rw_last_request_time : Z;
  rw_min_delay : Z
}.

Record state := {
  clock : Z;
  trace : list event;                               (* latest event first *)
  sgdb : option sgdb_client;                        (* CoverAPIManager.sgdb *)
  rawg : option rawg_client;                        (* CoverAPIManager.rawg *)
  _search_cache : gmap string (option string);       (* IconExtractor._search_cache *)
  cache_dir : string                                (* CoverAPIManager.cache_dir *)
}.

Definition with_clock (t : Z) (e : event) (s : state) : state :=
  {| clock := t; trace := e :: trace s; sgdb := sgdb s; rawg := rawg s;
     _search_cache := _search_cache s; cache_dir := cache_dir s |}.

Definition with_event (e : event) (s : state) : state := with_clock (clock s) e s.

Definition with_sgdb (c : sgdb_client) (s : state) : state :=
  {| clock := clock s; trace := trace s; sgdb := Some c; rawg := rawg s;
     _search_cache := _search_cache s; cache_dir := cache_dir s |}.

Definition with_rawg (c : rawg_client) (s : state) : state :=
  {| clock := clock s; trace := trace s; sgdb := sgdb s; rawg := Some c;
     _search_cache := _search_cache s; cache_dir := cache_dir s |}.

Definition with_search_cache (m : gmap string (option string)) (s : state) : state :=
  {| clock := clock s; trace := trace s; sgdb := sgdb s; rawg := rawg s;
     _search_cache := m; cache_dir := cache_dir s |}.

(** ** Computations: state passing with Python exceptions *)

Definition M (A : Type) : Type := state -> result A * state.

Definition ret {A} (a : A) : M A := fun s => (Val a, s).

Definition bind {A B} (m : M A) (f : A -> M B) : M B :=
  fun s => match m s with
           | (Val a, s') => f a s'
           | (Exc e, s') => (Exc e, s')
           end.

Definition raise {A} (e : exn) : M A := fun s => (Exc e, s).

Definition lift {A} (r : result A) : M A := fun s => (r, s).

Declare Scope m_scope.
Delimit Scope m_scope with m.
Notation "x <- m ;; k" := (bind m (fun x => k))
  (at level 100, m at next level, right associativity) : m_scope.
Notation "m ;; k" := (bind m (fun _ => k))
  (at level 100, right associativity) : m_scope.
#[local] Open Scope m_scope.

Definition get_state : M state := fun s => (Val s, s).

Definition when_ (b : bool) (m : M unit) : M unit := if b then m else ret tt.

Section Primitives.
Context `{W : World}.

Definition emit (e : event) : M unit := fun s => (Val tt, with_event e s).

Definition log (lv : level) (msg : string) : M unit := emit (Log lv msg).
Definition print (msg : string) : M unit := emit (Print msg).

(** [time.time()], in milliseconds. *)
Definition time_time : M Z :=
  fun s => let t := clock s + Z.of_N (elapse (trace s)) in
           (Val t, with_clock t (Clock t) s).

(** [time.sleep(d)]: returns no sooner than [d] later. *)
Definition time_sleep (d : Z) : M unit :=
  fun s => let t := clock s + Z.max 0 d + Z.of_N (elapse (trace s)) in
           (Val tt, with_clock t (Sleep d) s).

(** [urllib.request.urlopen(req, timeout=10)]: the request leaves when
    the call is made, some time after the clock was last read. *)
Definition http (who : caller) (url : string) : M http_reply :=
  fun s => let t := clock s + Z.of_N (elapse (trace s)) in
           (Val (urlopen (trace s) url), with_clock t (Urlopen who url t) s).

(** [with open(path, 'wb') as f: f.write(data)]; false when it raises. *)
Definition write_file (path : string) (n : Z) : M bool :=
  fun s => if open_wb (trace s) path
           then (Val true, with_event (WriteFile path n) s)
           else (Val false, s).

(** [random.uniform(0.5, 1.0)], in milliseconds. *)
Definition random_uniform : M Z :=
  fun s => (Val (500 + Z.of_N (uniform (trace s) mod 501)), with_event Uniform s).

(** A loop whose body may [return] from the enclosing function. *)
Fixpoint for_return {A R} (xs : list A) (body : A -> M (option R)) : M (option R) :=
  match xs with
  | [] => ret None
  | x :: xs' =>
      r <- body x ;;
      match r with
      | Some v => ret (Some v)
      | None => for_return xs' body
      end
  end.

End Primitives.

(** [str(v)] *)
Definition py_str `{R : Runtime} (v : value) : string :=
  match v with
  | Py.Str s => s
  | Py.Int z => pretty z
  | _ => repr v
  end.

(** ** class IconExtractor

    The text of a caught exception, which the source appends to some log
    and console messages, is left out of the messages, and so is the delay
    that [_search_duckduckgo] prints. *)

Module IconExtractor.
Section Methods.
Context `{R : Runtime} `{W : World}.

Definition _get_cache_path (cache_dir identifier : string) : string :=
  let uid := PyStr.prefix_of 12 (md5_hexdigest (PyStr.lower identifier)) in
  path_join cache_dir (uid ++ ".jpg").

Definition _clean_name : string -> string := CleanName._clean_name.

Definition _download_file (url : value) (save_path : string) : M bool :=
  match url with
  | Py.Str u =>
      r <- http ByDownload u ;;
      match r with
      | Response status (Some data) =>
          if (status =? 200) && (2048 <? nbytes data)
          then write_file save_path (nbytes data)
          else ret false
      | _ => ret false
      end
  | _ => ret false
  end.

(** The body of the [try] of [_search_steam_id_by_name] once the reply
    is parsed: the id to return, if the [return] is reached. *)
Definition first_appid (data : value) : result (option string) :=
  Py.rbind (Py.get_default data "total" (Py.Int 0)) (fun total =>
  Py.rbind (Py.gt_zero total) (fun positive =>
  if positive
  then Py.rbind (Py.item data "items") (fun items =>
       Py.rbind (Py.first items) (fun it =>
       Py.rbind (Py.item it "id") (fun id => Val (Some (py_str id)))))
  else Val None)).

Definition store_reply_appid (r : http_reply) : option string :=
  match r with
  | Response _ (Some {| parsed := Some data |}) => Py.catch (first_appid data) None
  | _ => None
  end.

(** [self._search_cache[key] = found] *)
Definition remember (key : string) (found : option string) : M unit :=
  fun s => (Val tt, with_search_cache (<[key := found]> (_search_cache s)) s).

Definition _search_steam_id_by_name (name : string) : M (option string) :=
  let clean_name := _clean_name name in
  if PyStr.len clean_name <? 2 then ret None else
  s <- get_state ;;
  match _search_cache s !! clean_name with
  | Some cached => ret cached
  | None =>
      print ("🔎 Ищем в Steam: '" ++ clean_name ++ "'") ;;
      let query := quote clean_name in
      let url := "https://store.steampowered.com/api/storesearch/?term="
                 ++ query ++ "&l=english&cc=US" in
      r <- http ByStoreSearch url ;;
      match store_reply_appid r with
      | Some appid =>
          remember clean_name (Some appid) ;;
          print ("   ✅ Найдено ID: " ++ appid) ;;
          ret (Some appid)
      | None =>
          time_sleep 200 ;;
          remember clean_name None ;;
          ret None
      end
  end.

Definition steam_cover_urls (app_id : string) : list string :=
  [ "https://cdn.cloudflare.steamstatic.com/steam/apps/" ++ app_id ++ "/library_600x900.jpg";
    "https://steamcdn-a.akamaihd.net/steam/apps/" ++ app_id ++ "/library_600x900.jpg";
    "https://cdn.cloudflare.steamstatic.com/steam/apps/" ++ app_id ++ "/header.jpg";
    "https://cdn.cloudflare.steamstatic.com/steam/apps/" ++ app_id ++ "/capsule_616x353.jpg" ].

Fixpoint try_urls (urls : list string) (save_path : string) : M bool :=
  match urls with
  | [] => ret false
  | url :: rest =>
      ok <- _download_file (Py.Str url) save_path ;;
      if ok then ret true else try_urls rest save_path
  end.

Definition _download_steam_cover (app_id : string) (save_path : string) : M bool :=
  try_urls (steam_cover_urls app_id) save_path.

Definition ddgs (query : string) : M (option (list value)) :=
  fun s => (Val (ddgs_images (trace s) query), with_event (DdgImages query) s).

(** [for res in results: if self._download_file(res['image'], save_path): return True],
    inside the [try]; the first component tells whether it raised. *)
Fixpoint ddg_results (results : list value) (save_path : string) : M (bool * bool) :=
  match results with
  | [] => ret (false, false)
  | res :: rest =>
      match Py.item res "image" with
      | Exc _ => ret (true, false)
      | Val image =>
          ok <- _download_file image save_path ;;
          if ok
          then (print "   ✅ Скачано через DDG" ;; ret (false, true))
          else ddg_results rest save_path
      end
  end.

Definition _search_duckduckgo (name : string) (save_path : string) : M bool :=
  if negb HAS_DDG then ret false else
  let clean_name := _clean_name name in
  delay <- random_uniform ;;
  print ("🦆 Ищем в DDG: '" ++ clean_name ++ "'") ;;
  time_sleep delay ;;
  let query := clean_name ++ " game box art vertical 600x900" in
  found <- ddgs query ;;
  match found with
  | Some results =>
      r <- ddg_results results save_path ;;
      match r with
      | (true, _) => print "   ❌ Ошибка DDG (возможно, лимит)" ;; ret false
      | (false, ok) => ret ok
      end
  | None => print "   ❌ Ошибка DDG (возможно, лимит)" ;; ret false
  end.

Definition icoextract (exe_path : string) : M (option (Z * option Z)) :=
  fun s => (Val (ico_extract (trace s) exe_path), with_event (IcoExtract exe_path) s).

Definition _extract_exe_icon (exe_path : string) (save_path : string) : M bool :=
  if negb HAS_ICOEXTRACT || negb (Py.is_truthy_str exe_path) then ret false else
  r <- icoextract exe_path ;;
  match r with
  | Some (count, Some n) => if 0 <? count then write_file save_path n else ret false
  | _ => ret false
  end.

End Methods.
End IconExtractor.

(** ** class SteamGridDBClient *)

Module SteamGridDBClient.

Definition BASE_URL : string := "https://www.steamgriddb.com/api/v2".

(** [SteamGridDBClient(api_key)] *)
Definition __init__ (api_key : option string) : sgdb_client :=
  {| sg_api_key := api_key; sg_session_cache := ∅;
     sg_last_request_time := 0; sg_min_delay := 250 |}.

Definition set_last_request_time (t : Z) (c : sgdb_client) : sgdb_client :=
  {| sg_api_key := sg_api_key c; sg_session_cache := sg_session_cache c;
     sg_last_request_time := t; sg_min_delay := sg_min_delay c |}.

Definition set_api_key (k : option string) (c : sgdb_client) : sgdb_client :=
  {| sg_api_key := k; sg_session_cache := sg_session_cache c;
     sg_last_request_time := sg_last_request_time c; sg_min_delay := sg_min_delay c |}.

Definition set_session_cache (m : gmap string (list value)) (c : sgdb_client) : sgdb_client :=
  {| sg_api_key := sg_api_key c; sg_session_cache := m;
     sg_last_request_time := sg_last_request_time c; sg_min_delay := sg_min_delay c |}.

(** [self], when the method is called on [manager.sgdb]. *)
Definition self : M sgdb_client :=
  fun s => match sgdb s with
           | Some c => (Val c, s)
           | None => (Exc Py.AttributeError, s)
           end.

Definition update (f : sgdb_client -> sgdb_client) : M unit :=
  c <- self ;; fun s => (Val tt, with_sgdb (f c) s).

Section Methods.
Context `{R : Runtime} `{W : World}.

Definition _wait_rate_limit : M unit :=
  c <- self ;;
  now <- time_time ;;
  let elapsed := now - sg_last_request_time c in
  when_ (elapsed <? sg_min_delay c) (time_sleep (sg_min_delay c - elapsed)) ;;
  now <- time_time ;;
  update (set_last_request_time now).

Definition _make_request (endpoint : string) : M value :=
  c <- self ;;
  if negb (Py.truthy_opt (sg_api_key c)) then ret Py.None_ else
  _wait_rate_limit ;;
  let url := BASE_URL ++ "/" ++ endpoint in
  r <- http BySteamGridDB url ;;
  match r with
  | Response status body =>
      if status =? 200
      then match body with
           | Some {| parsed := Some data |} => ret data
           | _ => log WARNING "SteamGridDB API error" ;; ret Py.None_
           end
      else ret Py.None_
  | HTTPError code =>
      (if code =? 401
       then log ERROR "SteamGridDB API Unauthorized (Invalid Key). Disabling API." ;;
            update (set_api_key None)
       else log WARNING "SteamGridDB API error") ;;
      ret Py.None_
  | URLError => log WARNING "SteamGridDB API error" ;; ret Py.None_
  end.

(** One turn of [for grid in grids]: the url to append, if any. *)
Definition grid_600x900 (grid : value) : result (option value) :=
  Py.rbind (Py.get grid "height") (fun h =>
  if Py.eq_int h 900 900%float
  then Py.rbind (Py.get grid "width") (fun w =>
       if Py.eq_int w 600 600%float
       then Py.rbind (Py.item grid "url") (fun u => Val (Some u))
       else Val None)
  else Val None).

(** [data and data.get('success') and data.get('data')] *)
Definition has_data (data : value) : result bool :=
  if Py.truthy data
  then Py.rbind (Py.get data "success") (fun ok =>
       if Py.truthy ok
       then Py.rbind (Py.get data "data") (fun d => Val (Py.truthy d))
       else Val false)
  else Val false.

(** The list [urls] that the two grid look-ups build from the reply. *)
Definition grid_urls (data : value) : result (list value) :=
  Py.rbind (has_data data) (fun present =>
  if present
  then Py.rbind (Py.item data "data") (fun grids =>
       Py.rbind (Py.iter grids) (fun each =>
       Py.rbind (Py.traverse grid_600x900 each) (fun picked =>
       match omap id picked with
       | [] =>
           Py.rbind (Py.first3 grids) (fun three =>
           Py.rbind (Py.iter three) (fun each3 =>
           Py.traverse (fun g => Py.item g "url") each3))
       | urls => Val urls
       end)))
  else Val []).

Definition grids (cache_key endpoint : string) : M (list value) :=
  c <- self ;;
  match sg_session_cache c !! cache_key with
  | Some urls => ret urls
  | None =>
      data <- _make_request endpoint ;;
      urls <- lift (grid_urls data) ;;
      update (fun c => set_session_cache (<[cache_key := urls]> (sg_session_cache c)) c) ;;
      ret urls
  end.

Definition get_grids_by_steam_id (steam_app_id : string) : M (list value) :=
  grids ("steam_" ++ steam_app_id) ("grids/steam/" ++ steam_app_id).

Definition search_game (game_name : string) : M (option string) :=
  let clean_name := quote game_name in
  data <- _make_request ("search/autocomplete/" ++ clean_name) ;;
  present <- lift (has_data data) ;;
  if present
  then games <- lift (Py.item data "data") ;;
       if Py.truthy games
       then g <- lift (Py.first games) ;;
            i <- lift (Py.item g "id") ;;
            ret (Some (py_str i))
       else ret None
  else ret None.

Definition get_grids_by_game_id (game_id : string) : M (list value) :=
  grids ("sgdb_" ++ game_id) ("grids/game/" ++ game_id).

End Methods.
End SteamGridDBClient.

(** ** class RAWGClient *)

Module RAWGClient.

Definition BASE_URL : string := "https://api.rawg.io/api".

Definition __init__ (api_key : option string) : rawg_client :=
  {| rw_api_key := api_key; rw_session_cache := ∅;
     rw_last_request_time := 0; rw_min_delay := 100 |}.

Definition set_last_request_time (t : Z) (c : rawg_client) : rawg_client :=
  {| rw_api_key := rw_api_key c; rw_session_cache := rw_session_cache c;
     rw_last_request_time := t; rw_min_delay := rw_min_delay c |}.

Definition set_session_cache (m : gmap string value) (c : rawg_client) : rawg_client :=
  {| rw_api_key := rw_api_key c; rw_session_cache := m;
     rw_last_request_time := rw_last_request_time c; rw_min_delay := rw_min_delay c |}.

Definition self : M rawg_client :=
  fun s => match rawg s with
           | Some c => (Val c, s)
           | None => (Exc Py.AttributeError, s)
           end.

Definition update (f : rawg_client -> rawg_client) : M unit :=
  c <- self ;; fun s => (Val tt, with_rawg (f c) s).

Section Methods.
Context `{R : Runtime} `{W : World}.

Definition _wait_rate_limit : M unit :=
  c <- self ;;
  now <- time_time ;;
  let elapsed := now - rw_last_request_time c in
  when_ (elapsed <? rw_min_delay c) (time_sleep (rw_min_delay c - elapsed)) ;;
  now <- time_time ;;
  update (set_last_request_time now).

(** The body of the [try] once the reply is parsed: the image url to
    cache and return, if the [return] is reached. *)
Definition background_image (data : value) : result (option value) :=
  if Py.truthy data
  then Py.rbind (Py.get data "results") (fun results =>
       if Py.truthy results
       then Py.rbind (Py.item data "results") (fun rs =>
            Py.rbind (Py.first rs) (fun game =>
            Py.rbind (Py.get game "background_image") (fun image_url =>
            Val (Some image_url))))
       else Val None)
  else Val None.

Definition search_game (game_name : string) : M value :=
  c <- self ;;
  if negb (Py.truthy_opt (rw_api_key c)) then ret Py.None_ else
  let cache_key := "rawg_" ++ PyStr.lower game_name in
  match rw_session_cache c !! cache_key with
  | Some cached => ret cached
  | None =>
      _wait_rate_limit ;;
      let params := urlencode [ ("key", default EmptyString (rw_api_key c));
                                ("search", game_name);
                                ("search_precise", "true");
                                ("page_size", "1") ] in
      let url := BASE_URL ++ "/games?" ++ params in
      r <- http ByRAWG url ;;
      let negative :=
        update (fun c => set_session_cache (<[cache_key := Py.None_]> (rw_session_cache c)) c) ;;
        ret Py.None_ in
      match r with
      | Response status body =>
          if status =? 200
          then match body with
               | Some {| parsed := Some data |} =>
                   match background_image data with
                   | Val (Some image_url) =>
                       update (fun c => set_session_cache
                                          (<[cache_key := image_url]> (rw_session_cache c)) c) ;;
                       ret image_url
                   | Val None => negative
                   | Exc _ => log WARNING "RAWG API error" ;; negative
                   end
               | _ => log WARNING "RAWG API error" ;; negative
               end
          else negative
      | _ => log WARNING "RAWG API error" ;; negative
      end
  end.

End Methods.
End RAWGClient.

(** ** class CoverAPIManager *)

Module CoverAPIManager.

(** [CoverAPIManager(cache_dir, sgdb_key, rawg_key)], constructed when the
    clock shows [t0]. *)
Definition __init__ (cache_dir : string) (sgdb_key rawg_key : option string) (t0 : Z)
  : state :=
  {| clock := t0;
     trace :=
       (if Py.truthy_opt rawg_key then [Log INFO "RAWG.io API initialized"] else [])
       ++ (if Py.truthy_opt sgdb_key then [Log INFO "SteamGridDB API initialized"] else []);
     sgdb := if Py.truthy_opt sgdb_key
             then Some (SteamGridDBClient.__init__ sgdb_key) else None;
     rawg := if Py.truthy_opt rawg_key
             then Some (RAWGClient.__init__ rawg_key) else None;
     _search_cache := ∅;
     cache_dir := cache_dir |}.

(** What [get_cover] returns: [(path, source)]. *)
Definition cover : Type := option string * string.

(** A stretch of the body of [get_cover]: [Some r] when it executed
    [return r], [None] when control falls through to what follows. *)
Definition block : Type := M (option cover).

Definition pass : block := ret None.

Definition then_ (b1 b2 : block) : block :=
  r <- b1 ;; match r with Some c => ret (Some c) | None => b2 end.

Notation "b1 ;;; b2" := (then_ b1 b2) (at level 101, right associativity) : m_scope.

(** [if cond: body] *)
Definition if_ (cond : state -> bool) (body : block) : block :=
  s <- get_state ;; if cond s then body else pass.

Definition is_set {A} (o : option A) : bool :=
  match o with Some _ => true | None => false end.

Section Methods.
Context `{R : Runtime} `{W : World}.

Definition _download_image (url : value) (save_path : string) : M bool :=
  let failed := log DEBUG ("Download failed from " ++ py_str url) ;; ret false in
  match url with
  | Py.Str u =>
      r <- http ByDownload u ;;
      match r with
      | Response status body =>
          if status =? 200
          then match body with
               | Some data =>
                   if 2048 <? nbytes data
                   then ok <- write_file save_path (nbytes data) ;;
                        if ok then ret true else failed
                   else ret false
               | None => failed
               end
          else ret false
      | _ => failed
      end
  | _ => failed
  end.

(** [cache_path], from the first three lines of [get_cover]. *)
Definition cache_path_of (cache_dir : string) (game_title : string) (app_id : option string)
  : string :=
  let clean_name := IconExtractor._clean_name game_title in
  let key_id := if Py.truthy_opt app_id then default EmptyString app_id
                else md5_hexdigest clean_name in
  path_join cache_dir
    (PyStr.prefix_of 12 (md5_hexdigest (PyStr.lower key_id)) ++ ".jpg").

(** [for url in urls: if self._download_image(url, cache_path): ... return (str(cache_path), src)] *)
Definition download_first (urls : list value) (cache_path : string) (done_msg src : string)
  : block :=
  for_return urls (fun url =>
    ok <- _download_image url cache_path ;;
    if ok then log INFO done_msg ;; ret (Some (Some cache_path, src))
    else ret None).

Definition tier2 (cache_path app_id : string) : block :=
  log INFO ("[Tier 2] SteamGridDB by Steam ID: " ++ app_id) ;;
  urls <- SteamGridDBClient.get_grids_by_steam_id app_id ;;
  download_first urls cache_path "   ✅ Downloaded from SteamGridDB" "SteamGridDB".

Definition tier3 (cache_path app_id : string) : block :=
  log INFO ("[Tier 3] Steam Direct CDN: " ++ app_id) ;;
  ok <- IconExtractor._download_steam_cover app_id cache_path ;;
  if ok then log INFO "   ✅ Downloaded from Steam CDN" ;;
             ret (Some (Some cache_path, "Steam CDN"))
  else pass.

Definition tier4 (clean_name cache_path : string) : block :=
  log INFO ("[Tier 4] RAWG.io Search: '" ++ clean_name ++ "'") ;;
  image_url <- RAWGClient.search_game clean_name ;;
  if Py.truthy image_url then
    ok <- _download_image image_url cache_path ;;
    if ok then log INFO "   ✅ Downloaded from RAWG.io" ;;
               ret (Some (Some cache_path, "RAWG.io"))
    else pass
  else pass.

Definition tier5 (game_title clean_name cache_path : string) : block :=
  log INFO ("[Tier 5] Steam Store Search: '" ++ clean_name ++ "'") ;;
  found_id <- IconExtractor._search_steam_id_by_name game_title ;;
  if Py.truthy_opt found_id then
    ok <- IconExtractor._download_steam_cover (default EmptyString found_id) cache_path ;;
    if ok then log INFO "   ✅ Downloaded from Steam (searched)" ;;
               ret (Some (Some cache_path, "Steam Store"))
    else pass
  else pass.

Definition tier6 (clean_name cache_path : string) : block :=
  log INFO ("[Tier 6] SteamGridDB Name Search: '" ++ clean_name ++ "'") ;;
  game_id <- SteamGridDBClient.search_game clean_name ;;
  if Py.truthy_opt game_id then
    urls <- SteamGridDBClient.get_grids_by_game_id (default EmptyString game_id) ;;
    download_first urls cache_path
      "   ✅ Downloaded from SteamGridDB (searched)" "SteamGridDB"
  else pass.

Definition tier7 (game_title clean_name cache_path : string) : block :=
  log INFO ("[Tier 7] DuckDuckGo Search: '" ++ clean_name ++ "'") ;;
  ok <- IconExtractor._search_duckduckgo game_title cache_path ;;
  if ok then log INFO "   ✅ Downloaded from DuckDuckGo" ;;
             ret (Some (Some cache_path, "DuckDuckGo"))
  else pass.

Definition tier8 (cache_path exe_path : string) : block :=
  log INFO "[Tier 8] EXE Icon Extraction" ;;
  ok <- IconExtractor._extract_exe_icon exe_path cache_path ;;
  if ok then log INFO "   ✅ Extracted from EXE" ;;
             ret (Some (Some cache_path, "EXE Icon"))
  else pass.

(** The tier numbers are those of the source, where tier 1 is the cache
    look-up that callers do before calling.  [tierN] is the body of the
    [if] of tier N (of the unconditional stretch, for tiers 5 and 7). *)
Definition get_cover (game_title : string) (app_id exe_path : option string) : M cover :=
  s <- get_state ;;
  let clean_name := IconExtractor._clean_name game_title in
  let cache_path := cache_path_of (cache_dir s) game_title app_id in
  r <- (if_ (fun s => Py.truthy_opt app_id && is_set (sgdb s))
          (tier2 cache_path (default EmptyString app_id)) ;;;
        if_ (fun _ => Py.truthy_opt app_id)
          (tier3 cache_path (default EmptyString app_id)) ;;;
        if_ (fun s => is_set (rawg s))
          (tier4 clean_name cache_path) ;;;
        tier5 game_title clean_name cache_path ;;;
        if_ (fun s => is_set (sgdb s))
          (tier6 clean_name cache_path) ;;;
        tier7 game_title clean_name cache_path ;;;
        if_ (fun _ => Py.truthy_opt exe_path)
          (tier8 cache_path (default EmptyString exe_path))) ;;
  match r with
  | Some c => ret c
  | None =>
      log WARNING ("   ❌ All tiers failed for: " ++ game_title) ;;
      ret (None, "None")
  end.

End Methods.
End CoverAPIManager.

(** ** class CoverValidator

    The validator works on the disk only.  Its log lines are not modelled. *)

(** What [pathlib] decides. *)
Class PathLib := {
  path_name : string -> string;               (* Path(p).name *)
  glob_match : string -> string -> bool;      (* the name is among dir.glob(pattern) *)
  glob_disjoint : forall f, glob_match "*.jpg" f = true -> glob_match "*.png" f = false
}.

Module CoverValidator.

Inductive library_file :=
| Missing                       (* library_file.exists() is false *)
| Unreadable                    (* open() or json.load() raises *)
| Loaded (data : value).        (* json.load(f) returns data *)

Record disk := {
  library : library_file;
  stat : string -> option (option Z);   (* None: no such path; Some None: stat() raises;
                                           Some (Some n): st_size = n *)
  cache_dir_exists : bool;
  cache_files : gset string;            (* names in cache_dir *)
  locked : string -> bool               (* unlink() of that name raises *)
}.

Definition validate_cache_file (d : disk) (file_path : string) : bool :=
  if negb (Py.is_truthy_str file_path) then false else
  match stat d file_path with
  | None => false
  | Some None => false
  | Some (Some st_size) => if st_size <? 2048 then false else true
  end.

(** [cache_file.unlink()]: the disk afterwards, or [None] when it raises. *)
Definition unlink (f : string) (d : disk) : option disk :=
  if bool_decide (f ∈ cache_files d) && negb (locked d f)
  then Some {| library := library d; stat := stat d;
               cache_dir_exists := cache_dir_exists d;
               cache_files := cache_files d ∖ {[ f ]};
               locked := locked d |}
  else None.

Section Methods.
Context `{P : PathLib}.

(** One turn of [for game in data.get('games', [])]: the name to add. *)
Definition referenced_name (game : value) : result (option string) :=
  Py.rbind (Py.get game "icon_path") (fun icon_path =>
  if Py.truthy icon_path
  then match icon_path with
       | Py.Str p => Val (Some (path_name p))
       | _ => Exc Py.TypeError
       end
  else Val None).

Definition referenced_files (data : value) : result (gset string) :=
  Py.rbind (Py.get_default data "games" (Py.List [])) (fun games =>
  Py.rbind (Py.iter games) (fun each =>
  Py.rbind (Py.traverse referenced_name each) (fun names =>
  Val (list_to_set (omap id names))))).

(** [self.cache_dir.glob(pattern)] *)
Definition glob (d : disk) (pattern : string) : list string :=
  filter (fun f => glob_match pattern f = true) (elements (cache_files d)).

(** One of the two [for cache_file in ...] loops. *)
Fixpoint sweep (referenced : gset string) (found : list string)
  (acc : Z * Z * disk) : Z * Z * disk :=
  match found with
  | [] => acc
  | cache_file :: rest =>
      let '(removed, total, d) := acc in
      let total := total + 1 in
      if bool_decide (cache_file ∉ referenced)
      then match unlink cache_file d with
           | Some d' => sweep referenced rest (removed + 1, total, d')
           | None => sweep referenced rest (removed, total, d)
           end
      else sweep referenced rest (removed, total, d)
  end.

Definition cleanup_orphaned_cache (d : disk) : (Z * Z) * disk :=
  match library d with
  | Missing => ((0, 0), d)
  | Unreadable => ((0, 0), d)
  | Loaded data =>
      match referenced_files data with
      | Exc _ => ((0, 0), d)
      | Val referenced =>
          if cache_dir_exists d
          then let '(removed, total, d1) := sweep referenced (glob d "*.jpg") (0, 0, d) in
               let '(removed, total, d2) :=
                 sweep referenced (glob d1 "*.png") (removed, total, d1) in
               ((removed, total), d2)
          else ((0, 0), d)
      end
  end.

(** A cache file that the sweep is to delete. *)
Definition orphan (referenced : gset string) (f : string) : Prop :=
  (glob_match "*.jpg" f = true \/ glob_match "*.png" f = true) /\ f ∉ referenced.

End Methods.
End CoverValidator.

(** ** Reading traces *)

Module Trace.

(** The tier that a log line announces: every tier of [get_cover] starts
    with logger.info("[Tier N] ..."). *)
Definition tier_tag (msg : string) : option nat :=
  if PyStr.startswith "[Tier 2]" msg then Some 2%nat
  else if PyStr.startswith "[Tier 3]" msg then Some 3%nat
  else if PyStr.startswith "[Tier 4]" msg then Some 4%nat
  else if PyStr.startswith "[Tier 5]" msg then Some 5%nat
  else if PyStr.startswith "[Tier 6]" msg then Some 6%nat
  else if PyStr.startswith "[Tier 7]" msg then Some 7%nat
  else if PyStr.startswith "[Tier 8]" msg then Some 8%nat
  else None.

Definition marker (e : event) : option nat :=
  match e with
  | Log INFO msg => tier_tag msg
  | _ => None
  end.

(** The tiers attempted during the events [evs] (latest first), in the
    order in which they were attempted. *)
Definition attempted (evs : list event) : list nat := omap marker (rev evs).

Definition caller_eqb (a b : caller) : bool :=
  match a, b with
  | BySteamGridDB, BySteamGridDB | ByRAWG, ByRAWG
  | ByStoreSearch, ByStoreSearch | ByDownload, ByDownload => true
  | _, _ => false
  end.

Definition dispatch_time (who : caller) (e : event) : option Z :=
  match e with
  | Urlopen w _ t => if caller_eqb w who then Some t else None
  | _ => None
  end.

(** When [who] opened URLs during [evs], latest first. *)
Definition dispatch_times (who : caller) (evs : list event) : list Z :=
  omap (dispatch_time who) evs.

(** The latest reading of the clock during [evs]. *)
Fixpoint last_reading (evs : list event) : option Z :=
  match evs with
  | [] => None
  | Clock t :: _ => Some t
  | _ :: rest => last_reading rest
  end.

(** The requests of [who] during [evs], latest first: for each one the
    reading of the clock that came last before it, which is the reading
    that [_wait_rate_limit] has just stored in [_last_request_time], and
    the time at which the request left. *)
Fixpoint releases (who : caller) (evs : list event) : list (Z * Z) :=
  match evs with
  | [] => []
  | e :: rest =>
      match dispatch_time who e, last_reading rest with
      | Some t, Some stamp => (stamp, t) :: releases who rest
      | _, _ => releases who rest
      end
  end.

(** Times, latest first, each at least [d] after the one before. *)
Fixpoint spaced (d : Z) (ts : list Z) : Prop :=
  match ts with
  | [] => True
  | t2 :: rest =>
      match rest with t1 :: _ => t1 + d <= t2 | [] => True end /\ spaced d rest
  end.

End Trace.

(** ** The fallback chain, as the design describes it

    An ordered list of tiers, each with a number, a precondition, an
    attempt and a provenance tag; resolution walks the list, skips a tier
    whose precondition fails, and stops at the first attempt that returns. *)

Module Fallback.
Import CoverAPIManager.

Record tier := {
  t_number : nat;
  t_precondition : state -> bool;
  t_attempt : block;
  t_source : string
}.

Fixpoint resolve (tiers : list tier) : block :=
  match tiers with
  | [] => pass
  | t :: rest =>
      s <- get_state ;;
      if t_precondition t s
      then r <- t_attempt t ;;
           match r with
           | Some c => ret (Some c)
           | None => resolve rest
           end
      else resolve rest
  end.

Section Tiers.
Context `{R : Runtime} `{W : World}.

Definition tiers (game_title : string) (app_id exe_path : option string) (cache_path : string)
  : list tier :=
  let clean_name := IconExtractor._clean_name game_title in
  [ {| t_number := 2;
       t_precondition := fun s => Py.truthy_opt app_id && is_set (sgdb s);
       t_attempt := tier2 cache_path (default EmptyString app_id);
       t_source := "SteamGridDB" |};
    {| t_number := 3;
       t_precondition := fun _ => Py.truthy_opt app_id;
       t_attempt := tier3 cache_path (default EmptyString app_id);
       t_source := "Steam CDN" |};
    {| t_number := 4;
       t_precondition := fun s => is_set (rawg s);
       t_attempt := tier4 clean_name cache_path;
       t_source := "RAWG.io" |};
    {| t_number := 5;
       t_precondition := fun _ => true;
       t_attempt := tier5 game_title clean_name cache_path;
       t_source := "Steam Store" |};
    {| t_number := 6;
       t_precondition := fun s => is_set (sgdb s);
       t_attempt := tier6 clean_name cache_path;
       t_source := "SteamGridDB" |};
    {| t_number := 7;
       t_precondition := fun _ => true;
       t_attempt := tier7 game_title clean_name cache_path;
       t_source := "DuckDuckGo" |};
    {| t_number := 8;
       t_precondition := fun _ => Py.truthy_opt exe_path;
       t_attempt := tier8 cache_path (default EmptyString exe_path);
       t_source := "EXE Icon" |} ].

End Tiers.

(** The tiers whose precondition holds in [s], in priority order. *)
Definition eligible (app_id exe_path : option string) (s : state) : list nat :=
  (if Py.truthy_opt app_id && is_set (sgdb s) then [2%nat] else [])
  ++ (if Py.truthy_opt app_id then [3%nat] else [])
  ++ (if is_set (rawg s) then [4%nat] else [])
  ++ [5%nat]
  ++ (if is_set (sgdb s) then [6%nat] else [])
  ++ [7%nat]
  ++ (if Py.truthy_opt exe_path then [8%nat] else []).

(** The provenance tag that each tier returns. *)
Definition source_of (k : nat) : string :=
  match k with
  | 2%nat | 6%nat => "SteamGridDB"
  | 3%nat => "Steam CDN"
  | 4%nat => "RAWG.io"
  | 5%nat => "Steam Store"
  | 7%nat => "DuckDuckGo"
  | _ => "EXE Icon"
  end.

End Fallback.

(** ** Sequences of requests *)

(** What a caller can ask of a manager and of its two clients. *)
Inductive request :=
| GetCover (game_title : string) (app_id exe_path : option string)
| MakeRequest (endpoint : string)
| GridsBySteamId (steam_app_id : string)
| SearchGame (game_name : string)
| GridsByGameId (game_id : string)
| RawgSearchGame (game_name : string).

Section Requests.
Context `{R : Runtime} `{W : World}.

(** The state after the request; an exception ends the request, not the
    sequence. *)
Definition perform (q : request) (s : state) : state :=
  match q with
  | GetCover t a e => snd (CoverAPIManager.get_cover t a e s)
  | MakeRequest e => snd (SteamGridDBClient._make_request e s)
  | GridsBySteamId i => snd (SteamGridDBClient.get_grids_by_steam_id i s)
  | SearchGame n => snd (SteamGridDBClient.search_game n s)
  | GridsByGameId i => snd (SteamGridDBClient.get_grids_by_game_id i s)
  | RawgSearchGame n => snd (RAWGClient.search_game n s)
  end.

Definition perform_all (qs : list request) (s : state) : state :=
  fold_left (fun s q => perform q s) qs s.

End Requests.

(** ** How a computation may change the state *)

Section Vocabulary.
Import Trace.
#[local] Open Scope list_scope.

(** New requests [rel] of a client whose [_last_request_time] goes from
    [last] to [last']: the readings stored keep their distance, and no
    request leaves before its reading. *)
Definition paced (d last last' : Z) (rel : list (Z * Z)) : Prop :=
  spaced d (map fst rel)
  /\ Forall (fun r => last + d <= fst r <= last' /\ fst r <= snd r) rel
  /\ last <= last'.

Definition sgdb_timing (s : state) : option (Z * Z) :=
  match sgdb s with
  | Some c => Some (sg_min_delay c, sg_last_request_time c)
  | None => None
  end.

Definition rawg_timing (s : state) : option (Z * Z) :=
  match rawg s with
  | Some c => Some (rw_min_delay c, rw_last_request_time c)
  | None => None
  end.

(** During [evs] every request of the client [who] came after a reading
    of the clock, and the client kept its pace. *)
Definition client_evolves (who : caller) (evs : list event)
  (before after : option (Z * Z)) : Prop :=
  map snd (releases who evs) = dispatch_times who evs
  /\ match before, after with
     | None, None => releases who evs = []
     | Some (d, last), Some (d', last') =>
         d' = d /\ (0 <= d -> paced d last last' (releases who evs))
     | _, _ => False
     end.

Definition timely (lo hi : Z) (e : event) : Prop :=
  match e with
  | Urlopen _ _ t => lo <= t <= hi
  | Clock t => lo <= t <= hi
  | _ => True
  end.

(** From [s] to [s']: events satisfying [P] were added, the clock did not
    go back, the clients stayed in place and every client let its
    requests go at its pace. *)
Definition evolves (P : event -> Prop) (s s' : state) : Prop :=
  exists evs : list event,
    trace s' = evs ++ trace s
    /\ Forall P evs
    /\ clock s <= clock s'
    /\ Forall (timely (clock s) (clock s')) evs
    /\ cache_dir s' = cache_dir s
    /\ client_evolves BySteamGridDB evs (sgdb_timing s) (sgdb_timing s')
    /\ client_evolves ByRAWG evs (rawg_timing s) (rawg_timing s').

Definition Steps {A} (R : state -> state -> Prop) (m : M A) : Prop :=
  forall s, R s (snd (m s)).

(** What [m] returns when it returns. *)
Definition Returns {A} (m : M A) (Q : A -> Prop) : Prop :=
  forall s a, fst (m s) = Val a -> Q a.

End Vocabulary.

(** Nothing announces a tier. *)
Abbreviation quiet := (evolves (fun e => Trace.marker e = None)).

(** ** What the fallback chain and the validator are expected to do *)

Section Expectations.
Import Trace CoverAPIManager Fallback CoverValidator.
#[local] Open Scope list_scope.
Context `{P : PathLib}.

Definition plain (e : event) : Prop :=
  match e with Clock _ | Sleep _ => True | _ => False end.

Definition same_clients (s s' : state) : Prop :=
  is_set (sgdb s') = is_set (sgdb s) /\ is_set (rawg s') = is_set (rawg s).

(** The events are not empty and the earliest announces a tier. *)
Definition opens_with_marker (evs : list event) : Prop :=
  exists later e, evs = later ++ [e] /\ marker e <> None.

(** An attempt announces its tier, then stays quiet, and returns the
    cache path with its own tag if it returns a cover. *)
Definition attempt_ok (path : string) (t : tier) : Prop :=
  (exists msg rest,
      t_attempt t = (log INFO msg ;; rest)
      /\ marker (Log INFO msg) = Some (t_number t)
      /\ Steps quiet rest
      /\ Returns rest (fun r => r = None \/ r = Some (Some path, t_source t)))
  /\ forall s s', same_clients s s' -> t_precondition t s' = t_precondition t s.

Definition enabled (ts : list tier) (s : state) : list tier :=
  List.filter (fun t => t_precondition t s) ts.

Definition run_of (el : list tier) (r : result (option cover)) (path : string)
  (evs : list event) : Prop :=
  match r with
  | Val None => attempted evs = map t_number el
  | Val (Some c) =>
      exists before t after,
        el = before ++ t :: after /\ c = (Some path, t_source t)
        /\ attempted evs = map t_number (before ++ [t])
  | Exc _ =>
      exists before t after,
        el = before ++ t :: after /\ attempted evs = map t_number (before ++ [t])
  end.

Definition cover_run (app_id exe_path : option string) (path : string) (s : state)
  (r : result cover) (evs : list event) : Prop :=
  match r with
  | Val (Some p, src) =>
      p = path
      /\ exists before k after,
          eligible app_id exe_path s = before ++ k :: after
          /\ src = source_of k /\ attempted evs = before ++ [k]
  | Val (None, src) => src = "None" /\ attempted evs = eligible app_id exe_path s
  | Exc _ =>
      exists before k after,
        eligible app_id exe_path s = before ++ k :: after
        /\ attempted evs = before ++ [k]
  end.

(** A word of [split]: not empty, no white space. *)
Definition word (w : list ascii) : Prop :=
  w <> [] /\ Forall (fun c => PyStr.isspace c = false) w.

(** The files that a loop over [found] deletes. *)
Definition deleted (referenced : gset string) (d : disk) (found : list string) : gset string :=
  list_to_set (filter (fun f => (f ∉ referenced) /\ locked d f = false) found).

Definition is_image (f : string) : Prop :=
  glob_match "*.jpg" f = true \/ glob_match "*.png" f = true.

End Expectations.

(** ** Concrete surroundings, to run the model on examples *)

Module Sample.

(** Stand-ins for the library functions: any functions will do, the
    results below hold for all of them. *)
#[local] Instance runtime : Runtime := {|
  md5_hexdigest := fun s => "md5:" ++ s;
  quote := fun s => s;
  urlencode := fun kvs => String.concat "&" (map (fun kv => fst kv ++ "=" ++ snd kv) kvs);
  repr := fun _ => "<object>";
  path_join := fun d n => d ++ "/" ++ n;
  HAS_DDG := true;
  HAS_ICOEXTRACT := true
|}.

Definition image : payload := {| nbytes := 5000; parsed := None |}.

Definition json (v : value) : payload := {| nbytes := 64; parsed := Some v |}.

(** No network, no disk. *)
#[local] Instance offline : World := {|
  elapse := fun _ => 0%N;
  urlopen := fun _ _ => URLError;
  open_wb := fun _ _ => false;
  ddgs_images := fun _ _ => None;
  ico_extract := fun _ _ => None;
  uniform := fun _ => 0%N
|}.

(** Every request is answered 200 with a 5000-byte body that is not JSON;
    files can be written. *)
Definition cdn_up : World := {|
  elapse := fun _ => 0%N;
  urlopen := fun _ _ => Response 200 (Some image);
  open_wb := fun _ _ => true;
  ddgs_images := fun _ _ => None;
  ico_extract := fun _ _ => None;
  uniform := fun _ => 0%N
|}.

(** Every request is answered 200 with the JSON text [[1]]. *)
Definition answers_array : World := {|
  elapse := fun _ => 0%N;
  urlopen := fun _ _ => Response 200 (Some (json (Py.List [Py.Int 1])));
  open_wb := fun _ _ => true;
  ddgs_images := fun _ _ => None;
  ico_extract := fun _ _ => None;
  uniform := fun _ => 0%N
|}.

(** Every request is refused with HTTP 401. *)
Definition unauthorized : World := {|
  elapse := fun _ => 0%N;
  urlopen := fun _ _ => HTTPError 401;
  open_wb := fun _ _ => true;
  ddgs_images := fun _ _ => None;
  ico_extract := fun _ _ => None;
  uniform := fun _ => 0%N
|}.

Definition is_request (e : event) : bool :=
  match e with Urlopen _ _ _ => true | _ => false end.

(** No network; the first request is held up for 100 ms between the
    reading of the clock that ends [_wait_rate_limit] and its leaving. *)
Definition held_up : World := {|
  elapse := fun evs =>
    match evs with
    | Clock _ :: Clock _ :: rest => if existsb is_request rest then 0%N else 100%N
    | _ => 0%N
    end;
  urlopen := fun _ _ => URLError;
  open_wb := fun _ _ => false;
  ddgs_images := fun _ _ => None;
  ico_extract := fun _ _ => None;
  uniform := fun _ => 0%N
|}.

(** The last component after a slash; [*suffix] patterns. *)
Fixpoint after_slash (acc : string) (s : string) : string :=
  match s with
  | EmptyString => acc
  | String c s' => if Ascii.eqb c "/" then after_slash s' s' else after_slash acc s'
  end.

Definition reversed (s : string) : string :=
  string_of_list_ascii (rev (list_ascii_of_string s)).

Definition is_suffix (suffix s : string) : bool :=
  PyStr.startswith (reversed suffix) (reversed s).

Definition suffix_match (pattern f : string) : bool :=
  match pattern with
  | String "*" suffix => is_suffix suffix f
  | _ => String.eqb pattern f
  end.

(** [pathlib] on paths with forward slashes. *)
#[local] Instance paths : PathLib.
Proof.
  refine {| path_name := fun p => after_slash p p; glob_match := suffix_match |}.
  intros f. unfold suffix_match, is_suffix. generalize (reversed f). intros r.
  change (reversed ".jpg") with "gpj."; change (reversed ".png") with "gnp.".
  destruct r as [|a [|b r]]; cbn [PyStr.startswith]; try discriminate.
  - rewrite andb_false_r. discriminate.
  - destruct (Ascii.eqb_spec "g" a); [subst|discriminate].
    destruct (Ascii.eqb_spec "p" b); [subst|discriminate]. reflexivity.
Defined.

Definition inventory : value :=
  Py.Dict [("games", Py.List [Py.Dict [("title", Py.Str "Doom");
                                       ("icon_path", Py.Str "cache/icons/a.jpg")];
                              Py.Dict [("title", Py.Str "Quake");
                                       ("icon_path", Py.None_)]])].

Definition on_disk (lib : CoverValidator.library_file) (names : list string)
  (lock : string -> bool) : CoverValidator.disk :=
  {| CoverValidator.library := lib;
     CoverValidator.stat :=
       fun p => if String.eqb p "cache/icons/a.jpg" then Some (Some 2048) else None;
     CoverValidator.cache_dir_exists := true;
     CoverValidator.cache_files := list_to_set names;
     CoverValidator.locked := lock |}.

Definition no_keys : state := CoverAPIManager.__init__ "cache/icons" None None 0.

Definition with_sgdb_key : state := CoverAPIManager.__init__ "cache/icons" (Some "key") None 0.

(** A manager with a SteamGridDB key, constructed long after the epoch. *)
Definition started_late : state :=
  CoverAPIManager.__init__ "cache/icons" (Some "key") None 1000000.

Definition with_rawg_key : state :=
  CoverAPIManager.__init__ "cache/icons" None (Some "bad-key") 0.

End Sample.

(** ** Visible characters *)

(** Not white space. *)
Definition nonspace (c : ascii) : bool := negb (PyStr.isspace c).

(** ** What a call adds to the trace and keeps in the state *)

Section Growth.
#[local] Open Scope list_scope.

(** [open(path, 'wb').write(data)] done, with the number of bytes. *)
Definition file_write (e : event) : option (string * Z) :=
  match e with WriteFile p n => Some (p, n) | _ => None end.

(** The files written during [evs], latest first. *)
Definition file_writes (evs : list event) : list (string * Z) := omap file_write evs.

(** The URLs opened during [evs], in the order in which they were opened. *)
Definition opened (evs : list event) : list (caller * string) :=
  omap (fun e => match e with Urlopen who url _ => Some (who, url) | _ => None end) (rev evs).

(** The manager has a SteamGridDB client and that client has lost its key. *)
Definition sgdb_off (s : state) : Prop :=
  match sgdb s with
  | Some c => Py.truthy_opt (sg_api_key c) = false
  | None => False
  end.

(** From [s] to [s']: events satisfying [P] were added, no entry of the
    store-search cache was lost or changed, and a SteamGridDB client
    without a key did not get one. *)
Definition grows (P : event -> Prop) (s s' : state) : Prop :=
  (exists evs, trace s' = evs ++ trace s /\ Forall P evs)
  /\ _search_cache s ⊆ _search_cache s'
  /\ (sgdb_off s -> sgdb_off s').

(** [m], started in a state where [I] holds, changes the state as [R] allows. *)
Definition Under {A} (I : state -> Prop) (R : state -> state -> Prop) (m : M A) : Prop :=
  forall s, I s -> R s (snd (m s)).

(** [I] survives whatever the program does. *)
Definition stable (I : state -> Prop) : Prop :=
  forall s s', grows (fun _ => True) s s' -> I s -> I s'.

(** What [m] returns and which events it adds, whatever the state. *)
Definition Run {A} (m : M A) (Q : result A -> list event -> Prop) : Prop :=
  forall s, exists evs, trace (snd (m s)) = evs ++ trace s /\ Q (fst (m s)) evs.

(** What [m] returns and which files it writes, whatever the state. *)
Definition Writes {A} (m : M A) (Q : result A -> list (string * Z) -> Prop) : Prop :=
  Run m (fun r evs => Q r (file_writes evs)).

(** [m] writes no file. *)
Definition Silent {A} (m : M A) : Prop := Writes m (fun _ w => w = []).

(** Events that touch neither the network nor the disk. *)
Definition inert (e : event) : bool :=
  match e with
  | Log _ _ | Print _ | Clock _ | Sleep _ | Uniform => true
  | _ => false
  end.

(** The outcome of a download to [path]: it returns True after writing
    one file, of more than 2048 bytes when [big], and False after writing
    none; it does not raise. *)
Definition wrote (big : bool) (path : string) (r : result bool) (w : list (string * Z)) : Prop :=
  match r with
  | Val true => exists n, w = [(path, n)] /\ (big = true -> 2048 < n)
  | Val false => w = []
  | Exc _ => False
  end.

(** The outcome of [_download_file] for the URL [u]: one request, then
    True after writing the body, of more than 2048 bytes, or False. *)
Definition fetched (u path : string) (r : result bool) (evs : list event) : Prop :=
  match r with
  | Val true => exists n t, 2048 < n /\ evs = [WriteFile path n; Urlopen ByDownload u t]
  | Val false => exists t, evs = [Urlopen ByDownload u t]
  | Exc _ => False
  end.

(** The outcome of a stretch of [get_cover] that downloads to [path]. *)
Definition block_wrote (path : string) (r : result (option CoverAPIManager.cover))
  (w : list (string * Z)) : Prop :=
  match r with
  | Val (Some (p, src)) =>
      p = Some path /\ exists n, w = [(path, n)] /\ (src <> "EXE Icon" -> 2048 < n)
  | Val None => w = []
  | Exc _ => w = []
  end.

(** Started in a state where [pre] holds, [m] does not raise, and what it
    returns and the state it leaves satisfy [post]. *)
Definition Safe {A} (pre : state -> Prop) (m : M A) (post : A -> state -> Prop) : Prop :=
  forall s, pre s -> exists a, fst (m s) = Val a /\ post a (snd (m s)).

(** No SteamGridDB client holds a key: there is none, or it has lost its. *)
Definition no_live_key (s : state) : Prop :=
  match sgdb s with
  | Some c => Py.truthy_opt (sg_api_key c) = false
  | None => True
  end.

(** Which of the two clients the manager has, none of them a SteamGridDB
    client with a key. *)
Definition keyless (g r : bool) (s : state) : Prop :=
  CoverAPIManager.is_set (sgdb s) = g /\ CoverAPIManager.is_set (rawg s) = r
  /\ no_live_key s.

End Growth.

(** ** class GameModel

    A game has the fields of the dataclass, with the types that the
    dataclass declares. *)

Module GameModel.

Record t := {
  uid : string;
  title : string;
  exe_path : string;
  icon_path : option string;
  platform : string;
  category : string;
  app_id : option string;
  install_path : option string;
  last_played : option string;
  play_time : Z;
  is_favorite : bool;
  added_date : string
}.

Definition of_optional (o : option string) : value :=
  match o with Some s => Py.Str s | None => Py.None_ end.

(** [asdict(self)] *)
Definition to_dict (g : t) : value :=
  Py.Dict [ ("uid", Py.Str (uid g));
            ("title", Py.Str (title g));
            ("exe_path", Py.Str (exe_path g));
            ("icon_path", of_optional (icon_path g));
            ("platform", Py.Str (platform g));
            ("category", Py.Str (category g));
            ("app_id", of_optional (app_id g));
            ("install_path", of_optional (install_path g));
            ("last_played", of_optional (last_played g));
            ("play_time", Py.Int (play_time g));
            ("is_favorite", Py.Bool (is_favorite g));
            ("added_date", Py.Str (added_date g)) ].

(** The parameters of the generated [__init__]; the first three have no
    default. *)
Definition fields : list string :=
  [ "uid"; "title"; "exe_path"; "icon_path"; "platform"; "category"; "app_id";
    "install_path"; "last_played"; "play_time"; "is_favorite"; "added_date" ].

Definition required : list string := [ "uid"; "title"; "exe_path" ].

(** What the constructor gives when called with the items of [data] as
    keyword arguments: a game, a TypeError, or an object with a
    field whose value is not of the declared type, which the dataclass
    accepts and where this model stops. *)
Inductive built :=
| Built (g : t)
| Raised (e : exn)
| Untyped.

Definition as_str (v : value) : option string :=
  match v with Py.Str s => Some s | _ => None end.

Definition as_optional (v : value) : option (option string) :=
  match v with Py.None_ => Some None | Py.Str s => Some (Some s) | _ => None end.

Definition as_int (v : value) : option Z :=
  match v with Py.Int z => Some z | _ => None end.

Definition as_bool (v : value) : option bool :=
  match v with Py.Bool b => Some b | _ => None end.

(** The argument for the parameter [k], or its default [d]. *)
Definition argument {A} (items : list (string * value)) (k : string)
  (read : value -> option A) (d : A) : option A :=
  match Py.lookup k items with
  | Some v => read v
  | None => Some d
  end.

(** The constructor called with the items of [data] as keyword
    arguments; [now] is what the default factory of [added_date],
    datetime.now().isoformat(), returns. *)
Definition from_dict (now : string) (data : value) : built :=
  match data with
  | Py.Dict items =>
      if negb (forallb (fun kv => existsb (String.eqb (fst kv)) fields) items)
      then Raised Py.TypeError                 (* unexpected keyword argument *)
      else if negb (forallb (fun k => CoverAPIManager.is_set (Py.lookup k items)) required)
      then Raised Py.TypeError                 (* missing required argument *)
      else
        default Untyped (
          uid ← argument items "uid" as_str EmptyString;
          title ← argument items "title" as_str EmptyString;
          exe_path ← argument items "exe_path" as_str EmptyString;
          icon_path ← argument items "icon_path" as_optional None;
          platform ← argument items "platform" as_str "System";
          category ← argument items "category" as_str "All";
          app_id ← argument items "app_id" as_optional None;
          install_path ← argument items "install_path" as_optional None;
          last_played ← argument items "last_played" as_optional None;
          play_time ← argument items "play_time" as_int 0;
          is_favorite ← argument items "is_favorite" as_bool false;
          added_date ← argument items "added_date" as_str now;
          Some (Built {| uid := uid; title := title; exe_path := exe_path;
                         icon_path := icon_path; platform := platform;
                         category := category; app_id := app_id;
                         install_path := install_path; last_played := last_played;
                         play_time := play_time; is_favorite := is_favorite;
                         added_date := added_date |}))
  | _ => Raised Py.TypeError                   (* the argument must be a mapping *)
  end.

Definition set_icon_path (p : option string) (g : t) : t :=
  {| uid := uid g; title := title g; exe_path := exe_path g; icon_path := p;
     platform := platform g; category := category g; app_id := app_id g;
     install_path := install_path g; last_played := last_played g;
     play_time := play_time g; is_favorite := is_favorite g; added_date := added_date g |}.

Definition set_is_favorite (b : bool) (g : t) : t :=
  {| uid := uid g; title := title g; exe_path := exe_path g; icon_path := icon_path g;
     platform := platform g; category := category g; app_id := app_id g;
     install_path := install_path g; last_played := last_played g;
     play_time := play_time g; is_favorite := b; added_date := added_date g |}.

Definition set_category (c : string) (g : t) : t :=
  {| uid := uid g; title := title g; exe_path := exe_path g; icon_path := icon_path g;
     platform := platform g; category := c; app_id := app_id g;
     install_path := install_path g; last_played := last_played g;
     play_time := play_time g; is_favorite := is_favorite g; added_date := added_date g |}.

End GameModel.

(** ** CoverValidator.repair_library_references *)

Module Repair.
Import GameModel.

(** [game.icon_path and not self.validate_cache_file(game.icon_path)] *)
Definition stale (d : CoverValidator.disk) (game : t) : bool :=
  match icon_path game with
  | Some p => Py.is_truthy_str p && negb (CoverValidator.validate_cache_file d p)
  | None => false
  end.

(** The games are objects that the loop changes in place: the result is
    the count returned and the games as they are afterwards, in the same
    order. *)
Fixpoint repair_library_references (d : CoverValidator.disk) (games : list t)
  : Z * list t :=
  match games with
  | [] => (0, [])
  | game :: rest =>
      let '(repaired, rest') := repair_library_references d rest in
      if stale d game
      then (repaired + 1, set_icon_path None game :: rest')
      else (repaired, game :: rest')
  end.

End Repair.
(** ** class DiskScanner: the choice of the executable

    A path is what [pathlib] and the file system say of it.  The folder
    is not changed while it is looked at. *)

Module DiskScanner.

(** [x in s] for strings. *)
Fixpoint contains (x s : string) : bool :=
  PyStr.startswith x s
  || match s with
     | EmptyString => false
     | String _ s' => contains x s'
     end.

(** [name.rfind('.')], counted from the given position. *)
Fixpoint rfind_dot (i : nat) (name : string) : option nat :=
  match name with
  | EmptyString => None
  | String c rest =>
      match rfind_dot (S i) rest with
      | Some j => Some j
      | None => if Ascii.eqb c "." then Some i else None
      end
  end.

(** [PurePath.suffix] and [PurePath.stem] of a path whose [name] is
    given: the name is cut at its last dot, unless that dot is its first
    or its last character. *)
Definition cut (name : string) : option nat :=
  match rfind_dot 0 name with
  | Some i => if (0 <? i)%nat && (i <? String.length name - 1)%nat then Some i else None
  | None => None
  end.

Definition suffix (name : string) : string :=
  match cut name with
  | Some i => String.substring i (String.length name - i) name
  | None => EmptyString
  end.

Definition stem (name : string) : string :=
  match cut name with
  | Some i => String.substring 0 i name
  | None => name
  end.

Record file := {
  name : string;               (* path.name *)
  st_size : option Z           (* path.stat().st_size; None when stat() raises *)
}.

Record folder := {
  folder_name : string;              (* folder.name *)
  glob_exe : option (list file)      (* folder.glob("*.exe"); None when it raises *)
}.

Definition IGNORE_FILES : list string :=
  [ "unins"; "setup"; "update"; "config"; "crash"; "unitycrashhandler"; "dxsetup";
    "vcredist"; "redist"; "console"; "terminal"; "server"; "launcher" ].

Definition _is_game_exe (path : file) : bool :=
  let name_lower := PyStr.lower (name path) in
  if negb (String.eqb (PyStr.lower (suffix (name path))) ".exe") then false
  else if existsb (fun x => contains x name_lower) IGNORE_FILES then false
  else match st_size path with
       | Some n => if n <? 512 * 1024 then false else true
       | None => false
       end.

(** re.sub(r'[^a-z0-9]', '', s) *)
Definition alnum_only (s : string) : string :=
  string_of_list_ascii
    (Re.remove (Re.Chr (fun c => negb (PyStr.islower_ascii c || PyStr.isdecimal c)))
       (list_ascii_of_string s)).

(** One step of a stable sort by size, largest first: [x], which stood
    before the elements of [sorted], goes before the first of them that
    is not larger. *)
Fixpoint insert_by_size (x : file * Z) (sorted : list (file * Z)) : list (file * Z) :=
  match sorted with
  | [] => [x]
  | y :: rest => if snd y <=? snd x then x :: sorted else y :: insert_by_size x rest
  end.

(** [exes.sort(key=lambda x: x.stat().st_size, reverse=True)], on the
    files with their keys; the sort is stable. *)
Definition sort_by_size (keyed : list (file * Z)) : list (file * Z) :=
  fold_right insert_by_size [] keyed.

(** The keys of the sort; None when a [stat()] raises. *)
Definition size_keys (exes : list file) : option (list (file * Z)) :=
  mapM (fun x => n ← st_size x; Some (x, n)) exes.

Inductive choice :=
| Chosen (exe : file)     (* return exe *)
| Nothing                 (* return None *)
| StatFailed.             (* the exception of stat() leaves the method *)

Definition _find_best_exe (folder : folder) : choice :=
  match glob_exe folder with
  | None => Nothing
  | Some items =>
      let exes := List.filter _is_game_exe items in
      match exes with
      | [] => Nothing
      | [exe] => Chosen exe
      | _ =>
          let folder_name := PyStr.lower (folder_name folder) in
          match List.find (fun exe => String.eqb (PyStr.lower (stem (name exe))) folder_name)
                  exes with
          | Some exe => Chosen exe
          | None =>
              let clean_folder := alnum_only folder_name in
              match List.find
                      (fun exe => String.eqb (alnum_only (PyStr.lower (stem (name exe))))
                                    clean_folder) exes with
              | Some exe => Chosen exe
              | None =>
                  match size_keys exes with
                  | Some keyed =>
                      match sort_by_size keyed with
                      | (exe, _) :: _ => Chosen exe
                      | [] => Nothing
                      end
                  | None => StatFailed
                  end
              end
          end
      end
  end.

End DiskScanner.
(** ** class GameManager: the library

    [self._games] is a dict in which every game is stored under its own
    uid; it is kept as the list of its values in the order in which their
    keys were inserted.  The log lines and the progress callback are left
    out, and so is what the two scanners do to find games: what they
    return and how they leave the disk are parameters.  What is read back
    from library.json is what was written. *)

Module GameManager.
Import GameModel CoverValidator.

(** [games[k]], [k in games] *)
Definition lookup (k : string) (games : list t) : option t :=
  List.find (fun g => String.eqb (uid g) k) games.

(** [games[game.uid] = game]: in place when the key is there, at the end
    when it is not. *)
Fixpoint store (game : t) (games : list t) : list t :=
  match games with
  | [] => [game]
  | g :: rest =>
      if String.eqb (uid g) (uid game) then game :: rest else g :: store game rest
  end.

Record manager := {
  _games : list t;
  files : disk;
  library_writable : bool       (* open(self.library_file, 'w') succeeds *)
}.

Definition with_games (games : list t) (m : manager) : manager :=
  {| _games := games; files := files m; library_writable := library_writable m |}.

Definition with_files (d : disk) (m : manager) : manager :=
  {| _games := _games m; files := d; library_writable := library_writable m |}.

(** The disk once library.json holds [data]. *)
Definition written (data : value) (d : disk) : disk :=
  {| library := Loaded data; stat := stat d; cache_dir_exists := cache_dir_exists d;
     cache_files := cache_files d; locked := locked d |}.

(** {'games': [g.to_dict() for g in self._games.values()]} *)
Definition library_json (games : list t) : value :=
  Py.Dict [("games", Py.List (map to_dict games))].

(** What a method that can raise leaves behind. *)
Inductive outcome :=
| Returned (m : manager)
| Raising (m : manager).

Definition save_library (m : manager) : outcome :=
  if library_writable m
  then Returned (with_files (written (library_json (_games m)) (files m)) m)
  else Raising m.

(** The loop of [load_library] over the entries of the file. *)
Inductive loading :=
| Completed (games : list t)
| Interrupted (games : list t)      (* an exception left the loop *)
| OutsideModel.                     (* an entry has a field of another type *)

(** [now i] is the time at the i-th turn. *)
Fixpoint load_games (now : nat -> string) (i : nat) (entries : list value) (games : list t)
  : loading :=
  match entries with
  | [] => Completed games
  | g :: rest =>
      match from_dict (now i) g with
      | Built game => load_games now (S i) rest (store game games)
      | Raised _ => Interrupted games
      | Untyped => OutsideModel
      end
  end.

Section Methods.
Context `{P : PathLib}.

(** None: the file holds an entry with a field of another type than the
    dataclass declares. *)
Definition load_library (now : nat -> string) (m : manager) : option manager :=
  match library (files m) with
  | Missing => Some m
  | Unreadable => Some m
  | Loaded data =>
      match Py.rbind (Py.get_default data "games" (Py.List [])) Py.iter with
      | Exc _ => Some m
      | Val entries =>
          match load_games now 0 entries (_games m) with
          | OutsideModel => None
          | Interrupted games => Some (with_games games m)
          | Completed games =>
              let '(repaired, games) := Repair.repair_library_references (files m) games in
              let m := with_games games m in
              match (if 0 <? repaired then save_library m else Returned m) with
              | Raising m => Some m
              | Returned m =>
                  let '(_, d) := cleanup_orphaned_cache (files m) in
                  Some (with_files d m)
              end
          end
      end
  end.

End Methods.

(** [Path(p).exists()] *)
Definition path_exists (d : disk) (p : string) : bool :=
  match stat d p with
  | None => false
  | Some _ => true
  end.

(** The test that puts a game on [games_to_remove]. *)
Definition gone (d : disk) (game : t) : bool :=
  if PyStr.startswith "steam://" (exe_path game)
  then match install_path game with
       | Some p => Py.is_truthy_str p && negb (path_exists d p)
       | None => false
       end
  else negb (path_exists d (exe_path game)).

(** The body of [if uid in self._games]: what the game found by the scan
    takes over from the one in the library. *)
Definition adopt (d : disk) (old game : t) : t :=
  let game := set_is_favorite (is_favorite old) game in
  let game := set_category (category old) game in
  if match icon_path old with
     | Some p => Py.is_truthy_str p && validate_cache_file d p
     | None => false
     end
  then set_icon_path (icon_path old) game
  else game.

(** One turn of [for uid, game in new_games.items()]. *)
Definition merge (d : disk) (games : list t) (game : t) : list t :=
  match lookup (uid game) games with
  | Some old => store (adopt d old game) games
  | None => store game games
  end.

(** What a scanner returns (None when it raises) and the disk it leaves. *)
Definition scanner : Type := disk -> option (list t) * disk.

Definition scan_all_games (steam_scanner disk_scanner : scanner) (m : manager) : outcome :=
  let kept := List.filter (fun game => negb (gone (files m) game)) (_games m) in
  match steam_scanner (files m) with
  | (None, d1) => Raising (with_files d1 (with_games kept m))
  | (Some steam_games, d1) =>
      match disk_scanner d1 with
      | (None, d2) => Raising (with_files d2 (with_games kept m))
      | (Some system_games, d2) =>
          let new_games := fold_left (fun acc g => store g acc) (steam_games ++ system_games) [] in
          let games := fold_left (merge d2) new_games kept in
          save_library (with_files d2 (with_games games m))
      end
  end.

Definition toggle_favorite (k : string) (m : manager) : outcome :=
  match lookup k (_games m) with
  | Some game =>
      save_library
        (with_games (store (set_is_favorite (negb (is_favorite game)) game) (_games m)) m)
  | None => Returned m
  end.

End GameManager.

(** ** A sample library *)

Module LibrarySample.
Import GameModel GameManager.

Definition doom : t :=
  {| uid := "0f1e2d3c4b5a"; title := "Doom"; exe_path := "C:/Games/Doom/doom.exe";
     icon_path := Some "cache/icons/a.jpg"; platform := "System"; category := "Shooters";
     app_id := None; install_path := Some "C:/Games/Doom"; last_played := None;
     play_time := 0; is_favorite := true; added_date := "2024-01-01T00:00:00" |}.

Definition quake : t :=
  {| uid := "a1b2c3d4e5f6"; title := "Quake"; exe_path := "steam://rungameid/2310";
     icon_path := Some "cache/icons/b.jpg"; platform := "Steam"; category := "All";
     app_id := Some "2310"; install_path := Some "C:/Steam/steamapps/common/Quake";
     last_played := None; play_time := 0; is_favorite := false;
     added_date := "2024-01-01T00:00:00" |}.

(** Doom as the disk scanner finds it again. *)
Definition doom_found : t :=
  {| uid := "0f1e2d3c4b5a"; title := "Doom"; exe_path := "C:/Games/Doom/doom.exe";
     icon_path := None; platform := "System"; category := "All";
     app_id := None; install_path := Some "C:/Games/Doom"; last_played := None;
     play_time := 0; is_favorite := false; added_date := "2024-06-01T00:00:00" |}.

(** Doom and its cover are on disk, Quake's folder and cover are not. *)
Definition shelf_disk (lib : CoverValidator.library_file) : CoverValidator.disk :=
  {| CoverValidator.library := lib;
     CoverValidator.stat :=
       fun p => if String.eqb p "cache/icons/a.jpg" then Some (Some 5000)
                else if String.eqb p "C:/Games/Doom/doom.exe" then Some (Some 1000000)
                else None;
     CoverValidator.cache_dir_exists := true;
     CoverValidator.cache_files := list_to_set ["a.jpg"; "c.jpg"];
     CoverValidator.locked := fun _ => false |}.

Definition shelf : manager :=
  {| _games := [doom; quake]; files := shelf_disk CoverValidator.Missing;
     library_writable := true |}.

(** The manager at start-up, with the library of [shelf] on disk. *)
Definition fresh : manager :=
  {| _games := [];
     files := shelf_disk (CoverValidator.Loaded (library_json [doom; quake]));
     library_writable := true |}.

Definition finds (games : list t) : scanner := fun d => (Some games, d).

Definition clock : nat -> string := fun _ => "2024-06-01T00:00:00".

End LibrarySample.

(** ** Names without junk phrases

    What the entries of the [junk] list do to the words of a name, a
    word being a maximal run of word characters, and the names on which
    [_clean_name] is shown to be idempotent. *)

Module NameWords.
Import Re CleanName.

(** [w] is the word being read, last character first. *)
Fixpoint words_from (w : list ascii) (s : list ascii) : list (list ascii) :=
  match s with
  | [] => match w with [] => [] | _ => [rev w] end
  | c :: s' =>
      if PyStr.isword c then words_from (c :: w) s'
      else match w with
           | [] => words_from [] s'
           | _ => rev w :: words_from [] s'
           end
  end.

Definition words (s : list ascii) : list (list ascii) := words_from [] s.

(** [w] without a copy of [a] at its start, the case of ASCII letters
    aside, as under IGNORECASE. *)
Fixpoint after_i (a : string) (w : list ascii) : option (list ascii) :=
  match a with
  | EmptyString => Some w
  | String x a' =>
      match w with
      | c :: w' =>
          if Ascii.eqb (PyStr.lower_ascii c) (PyStr.lower_ascii x) then after_i a' w' else None
      | [] => None
      end
  end.

Definition same_word (a : string) (w : list ascii) : bool :=
  match after_i a w with Some [] => true | _ => false end.

Fixpoint skip_digits (s : list ascii) : list ascii :=
  match s with
  | c :: s' => if PyStr.isdecimal c then skip_digits s' else s
  | [] => []
  end.

(** One digit or more, and nothing else. *)
Definition number (s : list ascii) : bool :=
  match s with
  | c :: s' => PyStr.isdecimal c && match skip_digits s' with [] => true | _ => false end
  | [] => false
  end.

Definition letter (c : ascii) : bool := PyStr.islower_ascii c || PyStr.isupper_ascii c.

(** How an entry of the [junk] list reads. *)
Inductive kind :=
| Tag (W : string)                    (* a word *)
| Phrase (head rest : string)         (* a word and more, [rest] starting with a blank *)
| Version                             (* v\d+(\.\d+)*[a-z]? *)
| Numbered (W : string) (blanks : bool).   (* W\s*\d+ when [blanks], else W\d+ *)

Definition pattern_of (k : kind) : regex :=
  match k with
  | Tag W => lit_i W
  | Phrase head rest => lit_i (head ++ rest)
  | Version =>
      Seq (chr_i "v") (Seq (plus digit) (Seq (star (Seq (chr ".") (plus digit))) (opt az_i)))
  | Numbered W true => Seq (lit_i W) (Seq (star space) (plus digit))
  | Numbered W false => Seq (lit_i W) (plus digit)
  end.

(** The [junk] list, entry by entry. *)
Definition kinds : list kind :=
  [ Tag "TENOKE"; Tag "RUNE"; Tag "DODI"; Tag "FitGirl"; Tag "Repack";
    Tag "EMPRESS"; Tag "CODEX"; Tag "SKIDROW"; Tag "CPY"; Tag "PLAZA";
    Tag "HOODLUM"; Tag "RAZOR1911"; Tag "TiNYiSO"; Tag "PROPHET";
    Tag "DARKSiDERS"; Tag "ANOMALY"; Tag "SiMPLEX";
    Tag "GOG"; Tag "Portable"; Tag "Steam"; Tag "Epic";
    Version; Numbered "Build" true; Numbered "Update" true;
    Tag "DX11"; Tag "DX12"; Tag "x64"; Tag "x86";
    Numbered "Multi" false; Tag "DLC";
    Tag "VR"; Tag "HDR"; Tag "4K"; Tag "UHD";
    Tag "GOTY"; Phrase "Game" " of the Year";
    Phrase "Enhanced" " Edition"; Phrase "Definitive" " Edition";
    Phrase "Complete" " Edition"; Phrase "Ultimate" " Edition";
    Phrase "Deluxe" " Edition"; Phrase "Premium" " Edition";
    Phrase "Gold" " Edition"; Phrase "Legendary" " Edition";
    Phrase "Anniversary" " Edition";
    Phrase "Early" " Access"; Tag "Demo"; Tag "Alpha"; Tag "Beta"; Tag "Preview" ].

(** The entry matches the word, and nothing but the word. *)
Definition takes (k : kind) (w : list ascii) : bool :=
  match k with
  | Tag W => same_word W w
  | Phrase _ _ => false
  | Version =>
      match after_i "v" w with
      | Some (d :: r) =>
          PyStr.isdecimal d
          && match skip_digits r with
             | [] => true
             | [a] => letter a
             | _ => false
             end
      | _ => false
      end
  | Numbered W _ =>
      match after_i W w with
      | Some r => number r
      | None => false
      end
  end.

(** The entry can match the word together with what follows it. *)
Definition heads (k : kind) (w : list ascii) : bool :=
  match k with
  | Phrase head _ => same_word head w
  | Numbered W true => same_word W w
  | _ => false
  end.

(** The first words of the entries of more than one word. *)
Definition phrase_heads : list string :=
  [ "game"; "enhanced"; "definitive"; "complete"; "ultimate"; "deluxe"; "premium";
    "gold"; "legendary"; "anniversary"; "early"; "build"; "update" ].

Definition heads_phrase (w : list ascii) : bool :=
  existsb (fun h => same_word h w) phrase_heads.

(** The name has no opening bracket or parenthesis, and none of its
    words, with '.' and '_' read as blanks, is the first word of a junk
    phrase. *)
Definition phrase_free (name : string) : bool :=
  let n := PyStr.replace_char "_" " "
             (PyStr.replace_char "." " " (list_ascii_of_string name)) in
  forallb (fun c => negb (Ascii.eqb c "[" || Ascii.eqb c "(")) n
  && forallb (fun w => negb (heads_phrase w)) (words n).

(** The class of [edges]. *)
Definition is_separator (c : ascii) : bool :=
  PyStr.isspace c || Ascii.eqb c "-" || Ascii.eqb c "_" || Ascii.eqb c "." || Ascii.eqb c ":".

Fixpoint lstrip (s : list ascii) : list ascii :=
  match s with
  | c :: s' => if is_separator c then lstrip s' else s
  | [] => []
  end.

Fixpoint rstrip (s : list ascii) : list ascii :=
  match s with
  | c :: s' => if forallb is_separator (c :: s') then [] else c :: rstrip s'
  | [] => []
  end.

(** The character before the position that lies [u] after the one with
    [prev] before it. *)
Definition prev_after (prev : option ascii) (u : list ascii) : option ascii :=
  match last u with Some c => Some c | None => prev end.

(** The entry has the form that its kind is read with. *)
Definition well_formed (k : kind) : bool :=
  let wordy W := forallb PyStr.isword (list_ascii_of_string W) in
  match k with
  | Tag W | Numbered W _ => negb (String.eqb W EmptyString) && wordy W
  | Phrase head rest =>
      negb (String.eqb head EmptyString) && wordy head
      && match list_ascii_of_string rest with
         | c :: _ => negb (PyStr.isword c)
         | [] => false
         end
      && match last (list_ascii_of_string rest) with
         | Some c => PyStr.isword c
         | None => false
         end
  | Version => true
  end.

(** What a greedy repetition of a character class hands to what follows
    it: first the text after the longest run [u], then the text after
    ever shorter ones. *)
Fixpoint backtrack (k : cont) (prev : option ascii) (u r : list ascii)
  : option (list ascii) :=
  match u with
  | [] => k prev r
  | c :: u' =>
      match backtrack k (Some c) u' r with
      | Some rest => Some rest
      | None => k prev (u ++ r)%list
      end
  end.

End NameWords.

(** * Properties *)

#[local] Open Scope list_scope.
#[local] Open Scope Z_scope.
#[local] Set Warnings "-clear-no-such-hyp".

(** ** Name normalisation *)

Section CleanNameFacts.
Import PyStr Re CleanName.

Lemma remove_from_nothing r s : forall prev,
  found_from r prev s = false -> remove_from r prev s 0 = s.
Proof.
  induction s as [|c s IH]; intros prev Hf; simpl in *; [reflexivity|].
  destruct (match_at r prev (c :: s)) as [[|n]|]; try discriminate;
    rewrite IH by assumption; reflexivity.
Qed.

Lemma remove_nothing r s : found r s = false -> remove r s = s.
Proof. apply remove_from_nothing. Qed.

Lemma replace_char_absent a b s :
  forallb (fun c => negb (Ascii.eqb c a)) s = true -> replace_char a b s = s.
Proof.
  induction s as [|c s IH]; simpl; [reflexivity|].
  intros [Hc Hs]%andb_prop. rewrite IH by assumption.
  destruct (Ascii.eqb c a); [discriminate|reflexivity].
Qed.

Lemma fold_remove_nothing (rs : list regex) (f : regex -> regex) n :
  forallb (fun r => negb (found (f r) n)) rs = true ->
  fold_left (fun n j => remove (f j) n) rs n = n.
Proof.
  induction rs as [|r rs IH]; simpl; [reflexivity|].
  intros [Hr Hrs]%andb_prop. apply negb_true_iff in Hr.
  rewrite remove_nothing by assumption. auto.
Qed.

Lemma forallb_over_map {A B} (p : B -> bool) (g : A -> B) l :
  forallb p (map g l) = forallb (fun x => p (g x)) l.
Proof. induction l as [|x l IH]; simpl; [|rewrite IH]; reflexivity. Qed.

Lemma split_from_words s : forall w,
  Forall (fun c => isspace c = false) w -> Forall word (split_from w s).
Proof.
  induction s as [|c s IH]; intros w Hw; simpl.
  - destruct w as [|a w]; constructor; [|constructor].
    split; [destruct (rev_app_distr [a] w); intros E; apply (f_equal (@length _)) in E;
            rewrite length_rev in E; discriminate|].
    apply Forall_rev; assumption.
  - destruct (isspace c) eqn:Hc.
    + destruct w as [|a w]; [apply IH; constructor|].
      constructor; [|apply IH; constructor].
      split; [intros E; apply (f_equal (@length _)) in E;
              rewrite length_rev in E; discriminate|].
      apply Forall_rev; assumption.
    + apply IH. constructor; assumption.
Qed.

Lemma split_from_run w : forall acc rest,
  Forall (fun c => isspace c = false) w ->
  split_from acc (w ++ rest) = split_from (rev w ++ acc) rest.
Proof.
  induction w as [|c w IH]; intros acc rest Hw; simpl; [reflexivity|].
  inversion Hw as [|? ? Hc Hw']; subst. rewrite Hc, IH by assumption.
  rewrite <- app_assoc. reflexivity.
Qed.

Lemma split_join ws : Forall word ws -> split (join_space ws) = ws.
Proof.
  unfold split. induction 1 as [|w ws [Hne Hw] Hws IH]; [reflexivity|].
  destruct ws as [|w' ws].
  - simpl. rewrite <- (app_nil_r w) at 1. rewrite split_from_run by assumption.
    simpl. rewrite app_nil_r.
    destruct (rev w) as [|a l] eqn:E.
    + apply (f_equal (@rev _)) in E. rewrite rev_involutive in E. contradiction.
    + rewrite <- E, rev_involutive. reflexivity.
  - change (join_space (w :: w' :: ws)) with (w ++ " "%char :: join_space (w' :: ws))%list.
    rewrite split_from_run by assumption. rewrite app_nil_r.
    cbn [split_from]. change (isspace " ") with true. cbv iota.
    destruct (rev w) as [|a l] eqn:E.
    + apply (f_equal (@rev _)) in E. rewrite rev_involutive in E. contradiction.
    + rewrite <- E, rev_involutive, IH. reflexivity.
Qed.

Lemma collapse_idempotent n : collapse (collapse n) = collapse n.
Proof.
  unfold collapse. rewrite split_join; [reflexivity|].
  apply split_from_words. constructor.
Qed.

(** On a settled text only the white space is touched. *)
Lemma clean_settled s :
  settled s = true ->
  _clean_name s = string_of_list_ascii (collapse (list_ascii_of_string s)).
Proof.
  unfold settled, _clean_name, clean_chars, passes.
  set (n := list_ascii_of_string s).
  intros [Hdots Hpasses]%andb_prop.
  rewrite forallb_app in Hpasses. apply andb_prop in Hpasses as [Hjunk Hrest].
  rewrite forallb_over_map in Hjunk.
  simpl in Hrest. repeat (apply andb_prop in Hrest as [?%negb_true_iff Hrest]).
  assert (forallb (fun c => negb (Ascii.eqb c ".")) n = true
          /\ forallb (fun c => negb (Ascii.eqb c "_")) n = true) as [Hd Hu].
  { clear -Hdots. induction n as [|c n IH]; simpl in *; [auto|].
    apply andb_prop in Hdots as [Hc Hn]. destruct (IH Hn) as [-> ->].
    rewrite negb_orb in Hc. apply andb_prop in Hc as [-> ->]. auto. }
  rewrite (replace_char_absent "." " " n) by assumption.
  rewrite (replace_char_absent "_" " " n) by assumption.
  rewrite (fold_remove_nothing junk whole_word n) by assumption.
  rewrite (remove_nothing bracketed n), (remove_nothing year n),
    (remove_nothing parenthesized n), (remove_nothing edges n) by assumption.
  reflexivity.
Qed.

End CleanNameFacts.


(** ** Cache validation *)

Section ValidatorFacts.
Import CoverValidator.
Context `{P : PathLib}.

Lemma unlink_some f d d' :
  unlink f d = Some d' ->
  (f ∈ cache_files d) /\ locked d f = false
  /\ cache_files d' = cache_files d ∖ {[ f ]}
  /\ locked d' = locked d /\ library d' = library d.
Proof.
  unfold unlink. destruct (bool_decide_reflect (f ∈ cache_files d)) as [Hin|]; [|discriminate].
  destruct (locked d f) eqn:Hl; [discriminate|]. simpl.
  intros [= <-]. simpl. auto.
Qed.

Lemma unlink_none f d :
  unlink f d = None -> f ∉ cache_files d \/ locked d f = true.
Proof.
  unfold unlink. destruct (bool_decide_reflect (f ∈ cache_files d)) as [Hin|]; [|auto].
  destruct (locked d f); [auto|discriminate].
Qed.

Lemma size_remove (X : gset string) f :
  f ∈ X -> size X = S (size (X ∖ {[ f ]})).
Proof.
  intros Hin. rewrite size_difference by set_solver. rewrite size_singleton.
  assert (size ({[f]} : gset string) <= size X)%nat by (apply subseteq_size; set_solver).
  rewrite size_singleton in *. lia.
Qed.

Lemma sweep_spec referenced found : forall removed total d removed' total' d',
  sweep referenced found (removed, total, d) = (removed', total', d') ->
  total' = total + Z.of_nat (length found)
  /\ removed' + Z.of_nat (size (cache_files d')) = removed + Z.of_nat (size (cache_files d))
  /\ cache_files d' = cache_files d ∖ deleted referenced d found
  /\ locked d' = locked d /\ library d' = library d.
Proof.
  unfold deleted.
  induction found as [|f found IH]; intros removed total d removed' total' d' H; simpl in H.
  - injection H as <- <- <-. rewrite filter_nil. simpl.
    repeat split; [lia | set_solver].
  - assert (Hlen : forall t, t + 1 + Z.of_nat (length found)
                             = t + Z.of_nat (length (f :: found))) by (intros; simpl; lia).
    rewrite filter_cons.
    destruct (bool_decide_reflect (f ∉ referenced)) as [Hnr|Hr].
    + destruct (unlink f d) as [d1|] eqn:Hu.
      * apply unlink_some in Hu as (Hin & Hl & Hfiles & Hlock & Hlib).
        apply IH in H as (-> & Hrem & Hf' & Hl' & Hlib').
        rewrite Hlock in *. rewrite Hfiles in *.
        rewrite decide_True by auto.
        repeat split; [apply Hlen | | set_solver | congruence | congruence].
        rewrite (size_remove (cache_files d) f) by assumption. lia.
      * apply IH in H as (-> & Hrem & Hf' & Hl' & Hlib').
        repeat split; [apply Hlen | assumption | | assumption | assumption].
        rewrite Hf'. apply unlink_none in Hu as [Hu|Hu].
        -- destruct (decide ((f ∉ referenced) ∧ locked d f = false)); set_solver.
        -- rewrite decide_False by (intros [_ ?]; congruence). reflexivity.
    + apply IH in H as (-> & Hrem & Hf' & Hl' & Hlib').
      rewrite decide_False by tauto.
      repeat split; [apply Hlen | assumption..].
Qed.

Lemma glob_length d pattern :
  length (glob d pattern)
  = size (filter (fun f => glob_match pattern f = true) (cache_files d)).
Proof.
  unfold glob, filter at 2, set_filter.
  rewrite size_list_to_set; [reflexivity|].
  apply NoDup_filter, NoDup_elements.
Qed.

Lemma elem_of_glob d pattern f :
  f ∈ glob d pattern <-> f ∈ cache_files d /\ glob_match pattern f = true.
Proof. unfold glob. rewrite list_elem_of_filter, elem_of_elements. tauto. Qed.

Lemma elem_of_deleted referenced d found f :
  f ∈ deleted referenced d found
  <-> f ∈ found /\ (f ∉ referenced) /\ locked d f = false.
Proof. unfold deleted. rewrite elem_of_list_to_set, list_elem_of_filter. tauto. Qed.

Lemma size_images (X : gset string) :
  size (filter is_image X)
  = (size (filter (fun f => glob_match "*.jpg" f = true) X)
     + size (filter (fun f => glob_match "*.png" f = true) X))%nat.
Proof.
  rewrite <- size_union.
  - f_equal. apply set_eq. intros f. rewrite elem_of_union, !elem_of_filter.
    unfold is_image. tauto.
  - intros f [Hj _]%elem_of_filter [Hp _]%elem_of_filter.
    rewrite (glob_disjoint f Hj) in Hp. discriminate.
Qed.

(** C9, as amended.  When the inventory file loads and yields the set
    [referenced] of file names, and the cache directory exists, the sweep
    removes from the directory exactly the .jpg and .png files that are
    not referenced and whose deletion succeeds; every other file stays.
    It returns the number of files it removed and the number of .jpg and
    .png files it found. *)
Theorem cleanup_removes_deletable_orphans (d : disk) (data : value) (referenced : gset string) :
  library d = Loaded data ->
  referenced_files data = Val referenced ->
  cache_dir_exists d = true ->
  let '((removed, total), d') := cleanup_orphaned_cache d in
  (forall f, f ∈ cache_files d'
             <-> f ∈ cache_files d /\ ~ (orphan referenced f /\ locked d f = false))
  /\ total = Z.of_nat (size (filter is_image (cache_files d)))
  /\ removed = Z.of_nat (size (cache_files d)) - Z.of_nat (size (cache_files d'))
  /\ library d' = library d.
Proof.
  intros Hlib Href Hdir. unfold cleanup_orphaned_cache. rewrite Hlib, Href, Hdir.
  destruct (sweep referenced (glob d "*.jpg") (0, 0, d)) as [[r1 t1] d1] eqn:H1.
  destruct (sweep referenced (glob d1 "*.png") (r1, t1, d1)) as [[r2 t2] d2] eqn:H2.
  apply sweep_spec in H1 as (-> & Hr1 & Hf1 & Hl1 & Hlib1).
  apply sweep_spec in H2 as (-> & Hr2 & Hf2 & Hl2 & Hlib2).
  assert (Hpng : filter (fun f => glob_match "*.png" f = true) (cache_files d1)
                 = filter (fun f => glob_match "*.png" f = true) (cache_files d)).
  { apply set_eq. intros f. rewrite !elem_of_filter, Hf1, elem_of_difference, elem_of_deleted,
      elem_of_glob. split; [tauto|]. intros [Hp Hin]. repeat split; [assumption..|].
    intros [[_ Hj] _]. rewrite (glob_disjoint f Hj) in Hp. discriminate. }
  split; [|split; [|split]].
  - intros f.
    rewrite Hf2, Hf1, !elem_of_difference, !elem_of_deleted, !elem_of_glob, Hl1, Hf1,
      elem_of_difference, elem_of_deleted, elem_of_glob.
    unfold orphan. tauto.
  - rewrite size_images, !glob_length, Hpng. lia.
  - lia.
  - congruence.
Qed.

(** C10.  Without an inventory file, or with one that cannot be opened or
    parsed, the sweep deletes nothing and returns (0, 0). *)
Theorem cleanup_without_inventory (d : disk) :
  library d = Missing \/ library d = Unreadable ->
  cleanup_orphaned_cache d = ((0, 0), d).
Proof. unfold cleanup_orphaned_cache. intros [-> | ->]; reflexivity. Qed.

(** The same holds when the parsed inventory does not have the expected shape. *)
Lemma cleanup_malformed_inventory (d : disk) (data : value) (e : exn) :
  library d = Loaded data -> referenced_files data = Exc e ->
  cleanup_orphaned_cache d = ((0, 0), d).
Proof. unfold cleanup_orphaned_cache. intros -> ->. reflexivity. Qed.

(** C8, as amended.  A path is valid exactly when it is not empty, names
    something on disk whose size can be read, and that size is at least
    2048 bytes.  A missing file, a 0-byte and a 1000-byte file are
    invalid, a 5000-byte file is valid. *)
Theorem validate_cache_file_spec (d : disk) (p : string) :
  (validate_cache_file d p = true
   <-> p <> EmptyString /\ exists n, stat d p = Some (Some n) /\ 2048 <= n)
  /\ (stat d p = None -> validate_cache_file d p = false)
  /\ (stat d p = Some (Some 0) -> validate_cache_file d p = false)
  /\ (stat d p = Some (Some 1000) -> validate_cache_file d p = false)
  /\ (p <> EmptyString -> stat d p = Some (Some 5000) -> validate_cache_file d p = true).
Proof.
  unfold validate_cache_file.
  split; [|repeat split].
  - destruct p as [|c p]; simpl.
    { split; [discriminate|]. intros [H _]. congruence. }
    destruct (stat d (String c p)) as [[n|]|].
    + destruct (Z.ltb_spec n 2048); split; try discriminate.
      * intros (_ & m & [= <-] & ?). lia.
      * intros _. split; [discriminate|]. exists n. split; [reflexivity|lia].
      * reflexivity.
    + split; [discriminate|]. intros (_ & m & [=] & _).
    + split; [discriminate|]. intros (_ & m & [=] & _).
  - intros ->. destruct p; reflexivity.
  - intros ->. destruct p; reflexivity.
  - intros ->. destruct p; reflexivity.
  - intros Hp ->. destruct p; [congruence|reflexivity].
Qed.

End ValidatorFacts.

Module ValidatorExamples.
Import CoverValidator Sample.
#[local] Existing Instance Sample.paths.

Lemma cleanup_removes_deletable_orphans_witness :
  let d := on_disk (Loaded inventory) ["a.jpg"; "b.jpg"; "c.png"; "notes.txt"] (fun _ => false) in
  let '((removed, total), d') := cleanup_orphaned_cache d in
  (forall f, f ∈ cache_files d'
             <-> f ∈ cache_files d /\ ~ (orphan {[ "a.jpg" ]} f /\ locked d f = false))
  /\ total = Z.of_nat (size (filter is_image (cache_files d)))
  /\ removed = Z.of_nat (size (cache_files d)) - Z.of_nat (size (cache_files d'))
  /\ library d' = library d.
Proof.
  intros d.
  apply (cleanup_removes_deletable_orphans d inventory {[ "a.jpg" ]});
    vm_compute; reflexivity.
Defined.

Lemma cleanup_without_inventory_witness :
  let d := on_disk Missing ["a.jpg"; "b.jpg"] (fun _ => false) in
  cleanup_orphaned_cache d = ((0, 0), d).
Proof. intros d. apply (cleanup_without_inventory d). left. reflexivity. Defined.

(** C9 fails as stated.  With no inventory file nothing is referenced, yet
    the .jpg file stays; and with an inventory that references nothing, a
    .jpg file whose deletion fails stays too. *)
Lemma cleanup_leaves_orphans :
  (let d := on_disk Missing ["a.jpg"] (fun _ => false) in
   glob_match "*.jpg" "a.jpg" = true
   /\ cleanup_orphaned_cache d = ((0, 0), d))
  /\ (let d := on_disk (Loaded (Py.Dict [("games", Py.List [])])) ["a.jpg"] (fun _ => true) in
      referenced_files (Py.Dict [("games", Py.List [])]) = Val ∅
      /\ fst (cleanup_orphaned_cache d) = (0, 1)
      /\ cache_files (snd (cleanup_orphaned_cache d)) = cache_files d).
Proof. vm_compute. repeat split. Qed.

(** C8 fails as stated: a file of exactly 2048 bytes does not exceed the
    threshold, and is valid. *)
Lemma validate_accepts_2048_bytes :
  let d := on_disk Missing [] (fun _ => false) in
  stat d "cache/icons/a.jpg" = Some (Some 2048)
  /\ ~ (2048 < 2048)
  /\ validate_cache_file d "cache/icons/a.jpg" = true.
Proof. vm_compute. repeat split. intros H; discriminate H. Qed.

End ValidatorExamples.

(** ** Evolution is a preorder *)

Section Evolution.
Import Trace.

Lemma spaced_app d ts2 ts1 :
  spaced d ts2 -> spaced d ts1 ->
  (forall t2 t1, t2 ∈ ts2 -> t1 ∈ ts1 -> t1 + d <= t2) ->
  spaced d (ts2 ++ ts1).
Proof.
  induction ts2 as [|t ts2 IH]; simpl; [auto|].
  intros [Hhd Htl] H1 Hx. split.
  - destruct ts2 as [|t' ts2]; simpl; [|assumption].
    destruct ts1 as [|t1 ts1]; [trivial|]. apply Hx; constructor.
  - apply IH; [assumption..|]. intros. apply Hx; [constructor|]; assumption.
Qed.

Lemma paced_app d l0 l1 l2 r1 r2 :
  paced d l0 l1 r1 -> paced d l1 l2 r2 -> paced d l0 l2 (r2 ++ r1).
Proof.
  intros (S1 & B1 & L1) (S2 & B2 & L2). rewrite List.Forall_forall in B1, B2.
  split; [|split; [|lia]].
  - rewrite map_app. apply spaced_app; [assumption..|]. intros t2 t1 H2 H1.
    apply list_elem_of_In, in_map_iff in H2 as (x2 & <- & H2).
    apply list_elem_of_In, in_map_iff in H1 as (x1 & <- & H1).
    specialize (B1 _ H1). specialize (B2 _ H2). lia.
  - apply Forall_app. split; apply List.Forall_forall; intros r Hr.
    + specialize (B2 _ Hr). lia.
    + specialize (B1 _ Hr). lia.
Qed.

Lemma last_reading_app evs2 evs1 stamp :
  last_reading evs2 = Some stamp -> last_reading (evs2 ++ evs1) = Some stamp.
Proof.
  induction evs2 as [|e evs2 IH]; [discriminate|]. destruct e; simpl; auto.
Qed.

Lemma releases_length who evs :
  (length (releases who evs) <= length (dispatch_times who evs))%nat.
Proof.
  unfold dispatch_times. induction evs as [|e evs IH]; simpl; [lia|].
  destruct (dispatch_time who e); [destruct (last_reading evs)|]; simpl;
    unfold omap in IH; lia.
Qed.

Lemma releases_quiet who evs : dispatch_times who evs = [] -> releases who evs = [].
Proof.
  intros H. pose proof (releases_length who evs) as Hl. rewrite H in Hl.
  destruct (releases who evs); [reflexivity|simpl in Hl; lia].
Qed.

(** When every request of [evs2] comes after a reading of the clock in
    [evs2], what came before does not matter to it. *)
Lemma releases_app who evs2 evs1 :
  map snd (releases who evs2) = dispatch_times who evs2 ->
  releases who (evs2 ++ evs1) = releases who evs2 ++ releases who evs1.
Proof.
  unfold dispatch_times.
  induction evs2 as [|e evs2 IH]; intros H; [reflexivity|].
  cbn [app releases]. simpl in H.
  destruct (dispatch_time who e) as [t|] eqn:E.
  - destruct (last_reading evs2) as [stamp|] eqn:L.
    + rewrite (last_reading_app _ _ _ L). simpl in *. f_equal. apply IH.
      injection H as H. exact H.
    + exfalso. apply (f_equal (@length Z)) in H. rewrite length_map in H. simpl in H.
      pose proof (releases_length who evs2) as Hl. unfold dispatch_times, omap in Hl. lia.
  - apply IH. exact H.
Qed.

Lemma client_evolves_trans who e1 e2 a b c :
  client_evolves who e1 a b -> client_evolves who e2 b c ->
  client_evolves who (e2 ++ e1) a c.
Proof.
  intros [M1 H1] [M2 H2]. unfold client_evolves.
  rewrite (releases_app who e2 e1 M2). split.
  - rewrite map_app, M1, M2. unfold dispatch_times. rewrite omap_app. reflexivity.
  - destruct a as [[d l0]|], b as [[d1 l1]|], c as [[d2 l2]|]; try tauto.
    + destruct H1 as [-> H1], H2 as [-> H2]. split; [reflexivity|]. intros Hd.
      eapply paced_app; eauto.
    + rewrite H1, H2. reflexivity.
Qed.

(** Events among which the client sent nothing. *)
Lemma client_evolves_quiet who evs a :
  dispatch_times who evs = [] -> client_evolves who evs a a.
Proof.
  intros H. unfold client_evolves. rewrite (releases_quiet who evs H), H.
  split; [reflexivity|]. destruct a as [[d l]|]; [|reflexivity].
  split; [reflexivity|]. intros _. repeat split; [constructor|lia].
Qed.

(** A client that is not there sends nothing. *)
Lemma client_evolves_absent who evs after :
  client_evolves who evs None after -> dispatch_times who evs = [].
Proof.
  intros [Hm H]. destruct after; [contradiction|]. rewrite <- Hm, H. reflexivity.
Qed.

Lemma client_evolves_refl who a : client_evolves who [] a a.
Proof. apply client_evolves_quiet. reflexivity. Qed.

Lemma timely_weaken lo hi lo' hi' e :
  lo' <= lo -> hi <= hi' -> timely lo hi e -> timely lo' hi' e.
Proof. destruct e; simpl; lia. Qed.

Lemma evolves_refl P s : evolves P s s.
Proof.
  exists []. repeat split; try constructor; try lia; apply client_evolves_refl.
Qed.

Lemma evolves_trans P s1 s2 s3 : evolves P s1 s2 -> evolves P s2 s3 -> evolves P s1 s3.
Proof.
  intros (e1 & T1 & P1 & C1 & Y1 & D1 & G1 & W1) (e2 & T2 & P2 & C2 & Y2 & D2 & G2 & W2).
  exists (e2 ++ e1).
  split; [rewrite T2, T1, app_assoc; reflexivity|].
  split; [apply Forall_app; auto|].
  split; [lia|].
  split; [apply Forall_app; split; eapply Forall_impl; eauto;
          intros e; apply timely_weaken; lia|].
  split; [congruence|].
  split; eapply client_evolves_trans; eauto.
Qed.

Lemma evolves_mono (P Q : event -> Prop) s s' :
  (forall e, P e -> Q e) -> evolves P s s' -> evolves Q s s'.
Proof.
  intros PQ (evs & T & HP & rest). exists evs. split; [assumption|].
  split; [eapply Forall_impl; eauto|assumption].
Qed.

Lemma Steps_ret {A} P (a : A) : Steps (evolves P) (ret a).
Proof. intros s. apply evolves_refl. Qed.

Lemma Steps_bind {A B} P (m : M A) (f : A -> M B) :
  Steps (evolves P) m -> (forall a, Steps (evolves P) (f a)) -> Steps (evolves P) (bind m f).
Proof.
  intros Hm Hf s. unfold bind. specialize (Hm s).
  destruct (m s) as [[a|e] s1]; simpl in *; [|assumption].
  eapply evolves_trans; [eassumption|apply Hf].
Qed.

Lemma Steps_lift {A} P (r : result A) : Steps (evolves P) (lift r).
Proof. intros s. apply evolves_refl. Qed.

Lemma Steps_get_state P : Steps (evolves P) get_state.
Proof. intros s. apply evolves_refl. Qed.

Lemma Returns_ret {A} (a : A) (Q : A -> Prop) : Q a -> Returns (ret a) Q.
Proof. intros H s b [= <-]. assumption. Qed.

Lemma Returns_bind {A B} (m : M A) (f : A -> M B) (Q : B -> Prop) :
  (forall a, Returns (f a) Q) -> Returns (bind m f) Q.
Proof.
  intros Hf s b. unfold bind. destruct (m s) as [[a|e] s1]; simpl; [|discriminate].
  apply Hf.
Qed.

End Evolution.

(** ** Every primitive evolves the state quietly *)

Section PrimitiveSteps.
Import Trace.
Context `{R : Runtime} `{W : World}.

Lemma evolves_with_clock (P : event -> Prop) s t e :
  P e -> clock s <= t -> timely (clock s) t e ->
  dispatch_time BySteamGridDB e = None -> dispatch_time ByRAWG e = None ->
  evolves P s (with_clock t e s).
Proof.
  intros HP Ht Hy Hg Hr. exists [e].
  split; [reflexivity|]. split; [auto|]. split; [exact Ht|]. split; [auto|].
  split; [reflexivity|].
  split; apply client_evolves_quiet; unfold dispatch_times; simpl;
    [rewrite Hg|rewrite Hr]; reflexivity.
Qed.

(** A step that shows neither in the trace nor in the timing of a client. *)
Lemma evolves_silent (P : event -> Prop) s s' :
  trace s' = trace s -> clock s' = clock s -> cache_dir s' = cache_dir s ->
  sgdb_timing s' = sgdb_timing s -> rawg_timing s' = rawg_timing s ->
  evolves P s s'.
Proof.
  intros Ht Hc Hd Hg Hr. exists []. rewrite Hg, Hr.
  split; [exact Ht|]. split; [constructor|]. split; [lia|]. split; [constructor|].
  split; [exact Hd|]. split; apply client_evolves_refl.
Qed.

Lemma Steps_log lv msg : marker (Log lv msg) = None -> Steps quiet (log lv msg).
Proof.
  intros Hm s. apply evolves_with_clock; simpl; auto; lia.
Qed.

Lemma Steps_print msg : Steps quiet (print msg).
Proof. intros s. apply evolves_with_clock; simpl; auto; lia. Qed.

Lemma Steps_time_time : Steps quiet time_time.
Proof. intros s. apply evolves_with_clock; simpl; auto; lia. Qed.

Lemma Steps_time_sleep d : Steps quiet (time_sleep d).
Proof. intros s. apply evolves_with_clock; simpl; auto; lia. Qed.

Lemma Steps_download who url :
  who = ByDownload \/ who = ByStoreSearch -> Steps quiet (http who url).
Proof.
  intros Hw s. apply evolves_with_clock; simpl; auto; try lia;
    destruct Hw as [-> | ->]; reflexivity.
Qed.

Lemma Steps_write_file path n : Steps quiet (write_file path n).
Proof.
  intros s. unfold write_file. destruct (open_wb (trace s) path); simpl.
  - apply evolves_with_clock; simpl; auto; lia.
  - apply evolves_refl.
Qed.

Lemma Steps_random_uniform : Steps quiet random_uniform.
Proof. intros s. apply evolves_with_clock; simpl; auto; lia. Qed.

Lemma Steps_ddgs query : Steps quiet (IconExtractor.ddgs query).
Proof. intros s. apply evolves_with_clock; simpl; auto; lia. Qed.

Lemma Steps_icoextract exe : Steps quiet (IconExtractor.icoextract exe).
Proof. intros s. apply evolves_with_clock; simpl; auto; lia. Qed.

Lemma Steps_remember key found : Steps quiet (IconExtractor.remember key found).
Proof.
  intros s. apply evolves_silent; reflexivity.
Qed.

Lemma Steps_raise {A} e : Steps quiet (raise e : M A).
Proof. intros s. apply evolves_refl. Qed.

Lemma Steps_when b (m : M unit) : Steps quiet m -> Steps quiet (when_ b m).
Proof. intros Hm. destruct b; [assumption|apply Steps_ret]. Qed.

Lemma Steps_sgdb_self : Steps quiet SteamGridDBClient.self.
Proof. intros s. unfold SteamGridDBClient.self. destruct (sgdb s); apply evolves_refl. Qed.

Lemma Steps_rawg_self : Steps quiet RAWGClient.self.
Proof. intros s. unfold RAWGClient.self. destruct (rawg s); apply evolves_refl. Qed.

(** An update of a client that leaves its rate limiter alone. *)
Lemma Steps_sgdb_update f :
  (forall c, sg_min_delay (f c) = sg_min_delay c
             /\ sg_last_request_time (f c) = sg_last_request_time c) ->
  Steps quiet (SteamGridDBClient.update f).
Proof.
  intros Hf s. unfold SteamGridDBClient.update, SteamGridDBClient.self, bind.
  destruct (sgdb s) as [c|] eqn:Hc; simpl; [|apply evolves_refl].
  apply evolves_silent; try reflexivity.
  unfold sgdb_timing. simpl. rewrite Hc. destruct (Hf c) as [-> ->]. reflexivity.
Qed.

Lemma Steps_rawg_update f :
  (forall c, rw_min_delay (f c) = rw_min_delay c
             /\ rw_last_request_time (f c) = rw_last_request_time c) ->
  Steps quiet (RAWGClient.update f).
Proof.
  intros Hf s. unfold RAWGClient.update, RAWGClient.self, bind.
  destruct (rawg s) as [c|] eqn:Hc; simpl; [|apply evolves_refl].
  apply evolves_silent; try reflexivity.
  unfold rawg_timing. simpl. rewrite Hc. destruct (Hf c) as [-> ->]. reflexivity.
Qed.

Lemma plain_quiet evs :
  Forall plain evs ->
  Forall (fun e => marker e = None) evs
  /\ forall who, dispatch_times who evs = [].
Proof.
  induction 1 as [|e evs He _ (IH1 & IH3)]; [repeat split; intros; constructor|].
  destruct e; try contradiction; (split; [constructor; [reflexivity|assumption]|]);
    intros who; apply IH3.
Qed.

Lemma sgdb_wait_rate_limit_spec s c :
  sgdb s = Some c ->
  exists evs s1,
    SteamGridDBClient._wait_rate_limit s = (Val tt, s1)
    /\ trace s1 = evs ++ trace s /\ Forall plain evs
    /\ Forall (timely (clock s) (clock s1)) evs /\ last_reading evs = Some (clock s1)
    /\ clock s <= clock s1
    /\ sg_last_request_time c + sg_min_delay c <= clock s1
    /\ sgdb s1 = Some (SteamGridDBClient.set_last_request_time (clock s1) c)
    /\ rawg s1 = rawg s /\ cache_dir s1 = cache_dir s.
Proof.
  intros Hc.
  unfold SteamGridDBClient._wait_rate_limit, SteamGridDBClient.update,
    SteamGridDBClient.self, bind, time_time, when_.
  rewrite Hc. simpl.
  destruct (Z.ltb_spec (clock s + Z.of_N (elapse (trace s)) - sg_last_request_time c)
              (sg_min_delay c)) as [Hlt|Hge]; simpl; rewrite Hc; simpl.
  - eexists [_; _; _], _. split; [reflexivity|]. simpl.
    repeat split; try (repeat constructor); try lia.
  - eexists [_; _], _. split; [reflexivity|]. simpl.
    repeat split; try (repeat constructor); try lia.
Qed.

Lemma Steps_sgdb_request {A} url (K : http_reply -> M A) :
  (forall r, Steps quiet (K r)) ->
  Steps quiet (SteamGridDBClient._wait_rate_limit ;; r <- http BySteamGridDB url ;; K r).
Proof.
  intros HK s. unfold bind at 1.
  destruct (sgdb s) as [c|] eqn:Hc.
  - destruct (sgdb_wait_rate_limit_spec s c Hc)
      as (evs & s1 & -> & Ht & Hp & Hy & Hrd & Hck & Hlast & Hs1 & Hr1 & Hd1).
    unfold bind at 1. cbn [http]. cbv zeta.
    eapply evolves_trans; [|apply HK].
    destruct (plain_quiet evs Hp) as (Hq & Hdt).
    set (t := clock s1 + Z.of_N (elapse (trace s1))).
    assert (Hs1t : clock s1 <= t) by (unfold t; lia).
    exists (Urlopen BySteamGridDB url t :: evs).
    split; [simpl; rewrite Ht; reflexivity|].
    split; [constructor; [reflexivity|assumption]|].
    split; [simpl; lia|].
    split; [constructor; [simpl; lia|
            eapply Forall_impl; [exact Hy|]; intros e; apply timely_weaken; simpl; lia]|].
    split; [assumption|].
    split.
    + assert (Hrel : releases BySteamGridDB (Urlopen BySteamGridDB url t :: evs) = [(clock s1, t)]).
      { cbn [releases dispatch_time caller_eqb].
        rewrite Hrd, (releases_quiet _ _ (Hdt BySteamGridDB)). reflexivity. }
      unfold client_evolves. rewrite Hrel.
      change (dispatch_times BySteamGridDB (Urlopen BySteamGridDB url t :: evs))
        with (t :: dispatch_times BySteamGridDB evs).
      rewrite Hdt. split; [reflexivity|].
      unfold sgdb_timing. simpl. rewrite Hs1, Hc. simpl.
      split; [reflexivity|]. intros Hd.
      repeat split; simpl; try lia. constructor; [simpl; lia|constructor].
    + unfold rawg_timing. simpl. rewrite Hr1.
      apply (client_evolves_quiet ByRAWG). unfold dispatch_times. simpl. apply Hdt.
  - unfold SteamGridDBClient._wait_rate_limit, SteamGridDBClient.self, bind.
    rewrite Hc. simpl. apply evolves_refl.
Qed.

Lemma rawg_wait_rate_limit_spec s c :
  rawg s = Some c ->
  exists evs s1,
    RAWGClient._wait_rate_limit s = (Val tt, s1)
    /\ trace s1 = evs ++ trace s /\ Forall plain evs
    /\ Forall (timely (clock s) (clock s1)) evs /\ last_reading evs = Some (clock s1)
    /\ clock s <= clock s1
    /\ rw_last_request_time c + rw_min_delay c <= clock s1
    /\ rawg s1 = Some (RAWGClient.set_last_request_time (clock s1) c)
    /\ sgdb s1 = sgdb s /\ cache_dir s1 = cache_dir s.
Proof.
  intros Hc.
  unfold RAWGClient._wait_rate_limit, RAWGClient.update,
    RAWGClient.self, bind, time_time, when_.
  rewrite Hc. simpl.
  destruct (Z.ltb_spec (clock s + Z.of_N (elapse (trace s)) - rw_last_request_time c)
              (rw_min_delay c)) as [Hlt|Hge]; simpl; rewrite Hc; simpl.
  - eexists [_; _; _], _. split; [reflexivity|]. simpl.
    repeat split; try (repeat constructor); try lia.
  - eexists [_; _], _. split; [reflexivity|]. simpl.
    repeat split; try (repeat constructor); try lia.
Qed.

Lemma Steps_rawg_request {A} url (K : http_reply -> M A) :
  (forall r, Steps quiet (K r)) ->
  Steps quiet (RAWGClient._wait_rate_limit ;; r <- http ByRAWG url ;; K r).
Proof.
  intros HK s. unfold bind at 1.
  destruct (rawg s) as [c|] eqn:Hc.
  - destruct (rawg_wait_rate_limit_spec s c Hc)
      as (evs & s1 & -> & Ht & Hp & Hy & Hrd & Hck & Hlast & Hs1 & Hr1 & Hd1).
    unfold bind at 1. cbn [http]. cbv zeta.
    eapply evolves_trans; [|apply HK].
    destruct (plain_quiet evs Hp) as (Hq & Hdt).
    set (t := clock s1 + Z.of_N (elapse (trace s1))).
    assert (Hs1t : clock s1 <= t) by (unfold t; lia).
    exists (Urlopen ByRAWG url t :: evs).
    split; [simpl; rewrite Ht; reflexivity|].
    split; [constructor; [reflexivity|assumption]|].
    split; [simpl; lia|].
    split; [constructor; [simpl; lia|
            eapply Forall_impl; [exact Hy|]; intros e; apply timely_weaken; simpl; lia]|].
    split; [assumption|].
    split.
    + unfold sgdb_timing. simpl. rewrite Hr1.
      apply (client_evolves_quiet BySteamGridDB). unfold dispatch_times. simpl. apply Hdt.
    + assert (Hrel : releases ByRAWG (Urlopen ByRAWG url t :: evs) = [(clock s1, t)]).
      { cbn [releases dispatch_time caller_eqb].
        rewrite Hrd, (releases_quiet _ _ (Hdt ByRAWG)). reflexivity. }
      unfold client_evolves. rewrite Hrel.
      change (dispatch_times ByRAWG (Urlopen ByRAWG url t :: evs))
        with (t :: dispatch_times ByRAWG evs).
      rewrite Hdt. split; [reflexivity|].
      unfold rawg_timing. simpl. rewrite Hs1, Hc. simpl.
      split; [reflexivity|]. intros Hd.
      repeat split; simpl; try lia. constructor; [simpl; lia|constructor].
  - unfold RAWGClient._wait_rate_limit, RAWGClient.self, bind.
    rewrite Hc. simpl. apply evolves_refl.
Qed.

End PrimitiveSteps.

(** ** So does every method below the tiers *)

Create HintDb steps.
#[export] Hint Resolve Steps_ret Steps_lift Steps_get_state Steps_raise Steps_print
  Steps_time_time Steps_time_sleep Steps_write_file Steps_random_uniform Steps_ddgs
  Steps_icoextract Steps_remember Steps_sgdb_self Steps_rawg_self : steps.

(** Walk through a computation, one construct at a time. *)
Ltac steps :=
  cbv zeta;
  repeat first
    [ solve [auto with steps]
    | apply Steps_log; reflexivity
    | apply Steps_download; solve [auto]
    | apply Steps_when
    | apply Steps_sgdb_request; intros ?
    | apply Steps_rawg_request; intros ?
    | apply Steps_sgdb_update; intros ?; split; reflexivity
    | apply Steps_rawg_update; intros ?; split; reflexivity
    | apply Steps_bind; [|intros ?]
    | match goal with
      | |- Steps _ (if ?b then _ else _) => destruct b
      | |- Steps _ (match ?x with _ => _ end) => destruct x
      end ].

Section FunctionSteps.
Import Trace.
Context `{R : Runtime} `{W : World}.

Lemma Steps__download_file url path : Steps quiet (IconExtractor._download_file url path).
Proof. unfold IconExtractor._download_file. steps. Qed.
#[local] Hint Resolve Steps__download_file : steps.

Lemma Steps__search_steam_id_by_name name :
  Steps quiet (IconExtractor._search_steam_id_by_name name).
Proof. unfold IconExtractor._search_steam_id_by_name. steps. Qed.

Lemma Steps_try_urls urls path : Steps quiet (IconExtractor.try_urls urls path).
Proof. induction urls as [|u urls IH]; simpl; steps. Qed.

Lemma Steps__download_steam_cover app_id path :
  Steps quiet (IconExtractor._download_steam_cover app_id path).
Proof. apply Steps_try_urls. Qed.

Lemma Steps_ddg_results results path : Steps quiet (IconExtractor.ddg_results results path).
Proof. induction results as [|r results IH]; simpl; steps. Qed.
#[local] Hint Resolve Steps_ddg_results : steps.

Lemma Steps__search_duckduckgo name path :
  Steps quiet (IconExtractor._search_duckduckgo name path).
Proof. unfold IconExtractor._search_duckduckgo. steps. Qed.

Lemma Steps__extract_exe_icon exe path :
  Steps quiet (IconExtractor._extract_exe_icon exe path).
Proof. unfold IconExtractor._extract_exe_icon. steps. Qed.

Lemma Steps__make_request endpoint : Steps quiet (SteamGridDBClient._make_request endpoint).
Proof. unfold SteamGridDBClient._make_request. steps. Qed.
#[local] Hint Resolve Steps__make_request : steps.

Lemma Steps_grids key endpoint : Steps quiet (SteamGridDBClient.grids key endpoint).
Proof. unfold SteamGridDBClient.grids. steps. Qed.

Lemma Steps_get_grids_by_steam_id id :
  Steps quiet (SteamGridDBClient.get_grids_by_steam_id id).
Proof. apply Steps_grids. Qed.

Lemma Steps_get_grids_by_game_id id :
  Steps quiet (SteamGridDBClient.get_grids_by_game_id id).
Proof. apply Steps_grids. Qed.

Lemma Steps_sgdb_search_game name : Steps quiet (SteamGridDBClient.search_game name).
Proof. unfold SteamGridDBClient.search_game. steps. Qed.

Lemma Steps_rawg_search_game name : Steps quiet (RAWGClient.search_game name).
Proof. unfold RAWGClient.search_game. steps. Qed.

Lemma Steps__download_image url path : Steps quiet (CoverAPIManager._download_image url path).
Proof. unfold CoverAPIManager._download_image. steps. Qed.
#[local] Hint Resolve Steps__download_image : steps.

Lemma Steps_for_return {A B} (xs : list A) (body : A -> M (option B)) :
  (forall x, Steps quiet (body x)) -> Steps quiet (for_return xs body).
Proof. intros Hb. induction xs as [|x xs IH]; simpl; steps. Qed.

Lemma Steps_download_first urls path msg src :
  marker (Log INFO msg) = None ->
  Steps quiet (CoverAPIManager.download_first urls path msg src).
Proof.
  intros Hm. unfold CoverAPIManager.download_first. apply Steps_for_return.
  intros url. steps. apply Steps_log. assumption.
Qed.

End FunctionSteps.

#[export] Hint Resolve Steps__download_file Steps__search_steam_id_by_name
  Steps__download_steam_cover Steps__search_duckduckgo Steps__extract_exe_icon
  Steps__make_request Steps_get_grids_by_steam_id Steps_get_grids_by_game_id
  Steps_sgdb_search_game Steps_rawg_search_game Steps__download_image : steps.

(** ** The walk through the tiers *)

Ltac returns :=
  cbv zeta;
  repeat first
    [ apply Returns_ret; solve [auto]
    | apply Returns_bind; intros ?
    | match goal with
      | |- Returns (if ?b then _ else _) _ => destruct b
      | |- Returns (match ?x with _ => _ end) _ => destruct x
      end ].

Section ChainFacts.
Import Trace CoverAPIManager Fallback.
Context `{R : Runtime} `{W : World}.

Lemma evolves_same_clients P s s' : evolves P s s' -> same_clients s s'.
Proof.
  intros (evs & _ & _ & _ & _ & _ & [_ Hg] & [_ Hr]). unfold sgdb_timing, rawg_timing in *.
  split.
  - destruct (sgdb s), (sgdb s'); simpl in *; tauto.
  - destruct (rawg s), (rawg s'); simpl in *; tauto.
Qed.

Lemma attempted_app evs2 evs1 : attempted (evs2 ++ evs1) = attempted evs1 ++ attempted evs2.
Proof. unfold attempted. rewrite rev_app_distr, omap_app. reflexivity. Qed.

Lemma attempted_quiet evs : Forall (fun e => marker e = None) evs -> attempted evs = [].
Proof.
  unfold attempted. intros H. apply Forall_rev in H.
  induction H as [|e l He _ IH]; simpl; [reflexivity|]. rewrite He. exact IH.
Qed.

Lemma attempted_one e k : marker e = Some k -> attempted [e] = [k].
Proof.
  intros H. unfold attempted.
  change (omap marker (rev [e]))
    with (match marker e with Some y => [y] | None => [] end).
  rewrite H. reflexivity.
Qed.

Lemma enabled_stable path ts s s' :
  Forall (attempt_ok path) ts -> same_clients s s' -> enabled ts s' = enabled ts s.
Proof.
  intros Hts Hs. induction Hts as [|t ts [_ Hst] _ IH]; [reflexivity|].
  unfold enabled in *. simpl. rewrite (Hst s s' Hs), IH. reflexivity.
Qed.

Lemma evolves_announce s msg :
  evolves (fun _ => True) s (with_event (Log INFO msg) s).
Proof. apply evolves_with_clock; simpl; auto; lia. Qed.

Lemma quiet_any s s' : quiet s s' -> evolves (fun _ => True) s s'.
Proof. apply evolves_mono. auto. Qed.

Lemma quiet_events s s' :
  quiet s s' -> exists evs, trace s' = evs ++ trace s /\ attempted evs = [].
Proof.
  intros (evs & Ht & Hq & _). exists evs. split; [assumption|].
  apply attempted_quiet. assumption.
Qed.

Lemma resolve_cons t ts s :
  resolve (t :: ts) s
  = if t_precondition t s
    then match t_attempt t s with
         | (Val (Some c), s') => (Val (Some c), s')
         | (Val None, s') => resolve ts s'
         | (Exc e, s') => (Exc e, s')
         end
    else resolve ts s.
Proof.
  cbn [resolve]. unfold bind, get_state.
  destruct (t_precondition t s); [|reflexivity].
  destruct (t_attempt t s) as [[[c|]|e] s']; reflexivity.
Qed.

Lemma resolve_spec path ts :
  Forall (attempt_ok path) ts ->
  forall s, exists evs,
    trace (snd (resolve ts s)) = evs ++ trace s
    /\ evolves (fun _ => True) s (snd (resolve ts s))
    /\ run_of (enabled ts s) (fst (resolve ts s)) path evs
    /\ (evs = [] \/ opens_with_marker evs).
Proof.
  intros Hall. induction Hall as [|t ts Ht Hts IH]; intros s.
  - exists []. simpl. repeat split; auto. apply evolves_refl.
  - destruct Ht as [(msg & rest & Hat & Hmk & Hq & Hret) Hst].
    rewrite resolve_cons. unfold enabled. cbn [List.filter]. fold (enabled ts s).
    destruct (t_precondition t s) eqn:Hpre; [|apply IH].
    set (s1 := with_event (Log INFO msg) s).
    assert (Hrun1 : t_attempt t s = rest s1) by (rewrite Hat; reflexivity).
    rewrite Hrun1. clear Hrun1.
    specialize (Hq s1). specialize (Hret s1).
    pose proof (evolves_announce s msg) as H01. fold s1 in H01.
    destruct (rest s1) as [r s2] eqn:Hrest. cbn [fst snd] in *.
    destruct (quiet_events _ _ Hq) as (evt & Htr & Hatt).
    assert (Hhere : attempted (evt ++ [Log INFO msg]) = [t_number t]).
    { rewrite attempted_app, Hatt, (attempted_one _ _ Hmk). reflexivity. }
    assert (Hopen : opens_with_marker (evt ++ [Log INFO msg])).
    { exists evt, (Log INFO msg). split; [reflexivity|]. rewrite Hmk. discriminate. }
    assert (H02 : evolves (fun _ => True) s s2).
    { eapply evolves_trans; [exact H01|apply quiet_any; exact Hq]. }
    destruct r as [[c|]|e]; cbn [fst snd].
    + exists (evt ++ [Log INFO msg]).
      split; [rewrite Htr, <- app_assoc; reflexivity|].
      split; [assumption|]. split; [|auto].
      destruct (Hret _ eq_refl) as [?|[= ->]]; [discriminate|].
      exists [], t, (enabled ts s). repeat split; auto.
    + destruct (IH s2) as (evr & Htr2 & H23 & Hrun & Hm).
      exists (evr ++ evt ++ [Log INFO msg]).
      split; [rewrite Htr2, Htr, <- !app_assoc; reflexivity|].
      split; [eapply evolves_trans; eassumption|].
      assert (Hen : enabled ts s2 = enabled ts s)
        by (apply (enabled_stable path);
            [assumption | eapply evolves_same_clients; exact H02]).
      rewrite Hen in Hrun.
      split.
      * unfold run_of in *. rewrite attempted_app, Hhere.
        destruct (fst (resolve ts s2)) as [[c|]|e].
        -- destruct Hrun as (before & t' & after & -> & -> & ->).
           exists (t :: before), t', after. repeat split.
        -- rewrite Hrun. reflexivity.
        -- destruct Hrun as (before & t' & after & -> & ->).
           exists (t :: before), t', after. repeat split.
      * right. exists (evr ++ evt), (Log INFO msg).
        split; [rewrite app_assoc; reflexivity|]. rewrite Hmk. discriminate.
    + exists (evt ++ [Log INFO msg]).
      split; [rewrite Htr, <- app_assoc; reflexivity|].
      split; [assumption|]. split; [|auto].
      exists [], t, (enabled ts s). repeat split; auto.
Qed.

Lemma Returns_bind_with {A B} (m : M A) (f : A -> M B) (Q1 : A -> Prop) (Q : B -> Prop) :
  Returns m Q1 -> (forall a, Q1 a -> Returns (f a) Q) -> Returns (bind m f) Q.
Proof.
  intros Hm Hf s b. unfold bind. specialize (Hm s).
  destruct (m s) as [[a|e] s1]; simpl in *; [|discriminate].
  apply Hf, Hm. reflexivity.
Qed.

Lemma Returns_for_return {A B} (xs : list A) (body : A -> M (option B)) Q :
  (forall x, Returns (body x) Q) -> Q None -> Returns (for_return xs body) Q.
Proof.
  intros Hb Hn. induction xs as [|x xs IH]; simpl; [apply Returns_ret; assumption|].
  apply (Returns_bind_with _ _ Q); [apply Hb|].
  intros [v|] Hv; [apply Returns_ret; assumption|apply IH].
Qed.

Lemma Returns_download_first urls path msg src :
  Returns (download_first urls path msg src)
    (fun r => r = None \/ r = Some (Some path, src)).
Proof.
  unfold download_first. apply Returns_for_return; [|auto]. intros url. returns.
Qed.

Lemma tiers_ok game_title app_id exe_path path :
  Forall (attempt_ok path) (tiers game_title app_id exe_path path).
Proof.
  unfold tiers.
  repeat match goal with
         | |- Forall _ (_ :: _) => apply List.Forall_cons
         | |- Forall _ [] => apply List.Forall_nil
         end;
    (split; [|intros s s' [Hg Hr]; cbn [t_precondition]; rewrite ?Hg, ?Hr; reflexivity]);
    eexists _, _; (split; [reflexivity|]); (split; [reflexivity|]);
    cbn [t_source]; split.
  all: try (unfold pass; returns; apply Returns_download_first).
  all: unfold pass; steps; apply Steps_download_first; reflexivity.
Qed.

Lemma then_pass (b : block) s : then_ b pass s = b s.
Proof. unfold then_, bind, pass, ret. destruct (b s) as [[[c|]|e] s']; reflexivity. Qed.

Lemma then_guarded t ts (rest : block) :
  (forall s, rest s = resolve ts s) ->
  forall s, then_ (if_ (t_precondition t) (t_attempt t)) rest s = resolve (t :: ts) s.
Proof.
  intros Hrest s. rewrite resolve_cons. unfold then_, if_, bind, get_state, pass, ret.
  destruct (t_precondition t s); [|apply Hrest].
  destruct (t_attempt t s) as [[[c|]|e] s']; [reflexivity|apply Hrest|reflexivity].
Qed.

Lemma then_always t ts (rest : block) :
  (forall s, t_precondition t s = true) ->
  (forall s, rest s = resolve ts s) ->
  forall s, then_ (t_attempt t) rest s = resolve (t :: ts) s.
Proof.
  intros Hpre Hrest s. rewrite resolve_cons, Hpre. unfold then_, bind, ret.
  destruct (t_attempt t s) as [[[c|]|e] s']; [reflexivity|apply Hrest|reflexivity].
Qed.

Lemma last_guarded t s : if_ (t_precondition t) (t_attempt t) s = resolve [t] s.
Proof. rewrite <- (then_pass _ s). apply then_guarded. reflexivity. Qed.

Lemma enabled_tiers game_title app_id exe_path path s :
  map t_number (enabled (tiers game_title app_id exe_path path) s)
  = eligible app_id exe_path s.
Proof.
  unfold enabled, tiers, eligible. cbn [List.filter t_precondition].
  destruct (Py.truthy_opt app_id), (is_set (sgdb s)), (is_set (rawg s)),
    (Py.truthy_opt exe_path); reflexivity.
Qed.

Lemma source_of_tiers game_title app_id exe_path path t :
  In t (tiers game_title app_id exe_path path) -> t_source t = source_of (t_number t).
Proof.
  unfold tiers. cbn [In].
  intros [<-|[<-|[<-|[<-|[<-|[<-|[<-|[]]]]]]]]; reflexivity.
Qed.

(** [get_cover] walks the list of tiers. *)
Lemma get_cover_resolve game_title app_id exe_path s :
  get_cover game_title app_id exe_path s
  = match resolve (tiers game_title app_id exe_path
                     (cache_path_of (cache_dir s) game_title app_id)) s with
    | (Val (Some c), s') => (Val c, s')
    | (Val None, s') =>
        (Val (None, "None"),
         with_event (Log WARNING ("   ❌ All tiers failed for: " ++ game_title)%string) s')
    | (Exc e, s') => (Exc e, s')
    end.
Proof.
  unfold get_cover. unfold bind at 1. cbn [get_state]. unfold bind at 1.
  set (path := cache_path_of (cache_dir s) game_title app_id).
  set (ts := tiers game_title app_id exe_path path).
  match goal with
  | |- context [match ?chain s with _ => _ end] =>
      assert (Hchain : forall s0, chain s0 = resolve ts s0)
  end.
  { subst ts. unfold tiers.
    apply (then_guarded (Build_tier 2 _ _ _)).
    apply (then_guarded (Build_tier 3 _ _ _)).
    apply (then_guarded (Build_tier 4 _ _ _)).
    apply (then_always (Build_tier 5 _ _ _)); [reflexivity|].
    apply (then_guarded (Build_tier 6 _ _ _)).
    apply (then_always (Build_tier 7 _ _ _)); [reflexivity|].
    apply (last_guarded (Build_tier 8 _ _ _)). }
  rewrite Hchain. destruct (resolve ts s) as [[[c|]|e] s']; reflexivity.
Qed.

Lemma eligible_not_nil app_id exe_path s : eligible app_id exe_path s <> [].
Proof.
  unfold eligible.
  destruct (Py.truthy_opt app_id && is_set (sgdb s)), (Py.truthy_opt app_id),
    (is_set (rawg s)); discriminate.
Qed.

Lemma get_cover_run game_title app_id exe_path s :
  exists evs,
    trace (snd (get_cover game_title app_id exe_path s)) = evs ++ trace s
    /\ evolves (fun _ => True) s (snd (get_cover game_title app_id exe_path s))
    /\ opens_with_marker evs
    /\ cover_run app_id exe_path (cache_path_of (cache_dir s) game_title app_id) s
         (fst (get_cover game_title app_id exe_path s)) evs.
Proof.
  rewrite get_cover_resolve.
  set (path := cache_path_of (cache_dir s) game_title app_id).
  pose proof (tiers_ok game_title app_id exe_path path) as Hok.
  destruct (resolve_spec path _ Hok s) as (evs & Htr & Hev & Hrun & Hopen).
  pose proof (enabled_tiers game_title app_id exe_path path s) as Hel.
  assert (Hne : attempted evs <> [] -> opens_with_marker evs).
  { intros Hne. destruct Hopen as [-> |]; [|assumption]. contradiction Hne. reflexivity. }
  destruct (resolve _ s) as [[[c|]|e] s'] eqn:Hres; cbn [fst snd] in *.
  - destruct Hrun as (before & t & after & Hen & -> & Hatt).
    exists evs. rewrite Hen, map_app in Hel. cbn [map] in Hel. rewrite map_app in Hatt.
    split; [assumption|]. split; [assumption|].
    split; [apply Hne; rewrite Hatt; destruct (map t_number before); discriminate|].
    split; [reflexivity|].
    exists (map t_number before), (t_number t), (map t_number after).
    split; [symmetry; exact Hel|]. split; [|exact Hatt].
    apply (source_of_tiers game_title app_id exe_path path).
    assert (Hin : In t (enabled (tiers game_title app_id exe_path path) s))
      by (rewrite Hen; apply in_elt).
    apply List.filter_In in Hin. tauto.
  - exists (Log WARNING ("   ❌ All tiers failed for: " ++ game_title)%string :: evs).
    unfold run_of in Hrun. rewrite Hel in Hrun.
    assert (Ho : opens_with_marker evs)
      by (apply Hne; rewrite Hrun; apply eligible_not_nil).
    split; [cbn; rewrite Htr; reflexivity|].
    split; [eapply evolves_trans; [exact Hev|];
            apply evolves_with_clock; simpl; auto; lia|].
    split.
    + destruct Ho as (later & e0 & -> & He0). eexists (_ :: later), e0.
      split; [reflexivity|assumption].
    + split; [reflexivity|].
      change (_ :: evs) with ([Log WARNING ("   ❌ All tiers failed for: " ++ game_title)%string] ++ evs).
      rewrite attempted_app, app_nil_r. exact Hrun.
  - destruct Hrun as (before & t & after & Hen & Hatt).
    exists evs. rewrite Hen, map_app in Hel. cbn [map] in Hel. rewrite map_app in Hatt.
    split; [assumption|]. split; [assumption|].
    split; [apply Hne; rewrite Hatt; destruct (map t_number before); discriminate|].
    exists (map t_number before), (t_number t), (map t_number after).
    split; [symmetry; exact Hel|exact Hatt].
Qed.

End ChainFacts.

(** ** get_cover *)

Section GetCoverClaims.
Import Trace CoverAPIManager Fallback.
Context `{R : Runtime} `{W : World}.

(** C1.  A call of [get_cover] is a walk through the ordered list of
    tiers that skips a tier whose precondition fails and stops at the
    first attempt that returns.  On the trace: the first thing a call does
    is announce a tier; the tiers it announces are, in priority order, the
    eligible ones (stable identifier present, client configured,
    executable path present) up to and including the one whose tag it
    returns, and all of them when it returns (None, "None"). *)
Theorem get_cover_tier_order (game_title : string) (app_id exe_path : option string)
  (s : state) :
  get_cover game_title app_id exe_path s
  = match resolve (tiers game_title app_id exe_path
                     (cache_path_of (cache_dir s) game_title app_id)) s with
    | (Val (Some c), s') => (Val c, s')
    | (Val None, s') =>
        (Val (None, "None"),
         with_event (Log WARNING ("   ❌ All tiers failed for: " ++ game_title)%string) s')
    | (Exc e, s') => (Exc e, s')
    end
  /\ exists evs,
      trace (snd (get_cover game_title app_id exe_path s)) = evs ++ trace s
      /\ opens_with_marker evs
      /\ match fst (get_cover game_title app_id exe_path s) with
         | Val (Some _, src) =>
             exists before k after,
               eligible app_id exe_path s = before ++ k :: after
               /\ src = source_of k /\ attempted evs = before ++ [k]
         | Val (None, _) => attempted evs = eligible app_id exe_path s
         | Exc _ =>
             exists before k after,
               eligible app_id exe_path s = before ++ k :: after
               /\ attempted evs = before ++ [k]
         end.
Proof.
  split; [apply get_cover_resolve|].
  destruct (get_cover_run game_title app_id exe_path s) as (evs & Htr & _ & Ho & Hrun).
  exists evs. split; [assumption|]. split; [assumption|].
  unfold cover_run in Hrun.
  destruct (fst (get_cover game_title app_id exe_path s)) as [[[p|] src]|e]; tauto.
Qed.

(** C4, as amended.  The provenance tag that [get_cover] returns is one of
    "SteamGridDB", "Steam CDN", "RAWG.io", "Steam Store", "DuckDuckGo",
    "EXE Icon" and "None". *)
Theorem get_cover_source_tags (game_title : string) (app_id exe_path : option string)
  (s : state) :
  match fst (get_cover game_title app_id exe_path s) with
  | Val (_, src) =>
      In src ["SteamGridDB"; "Steam CDN"; "RAWG.io"; "Steam Store";
              "DuckDuckGo"; "EXE Icon"; "None"]
  | Exc _ => True
  end.
Proof.
  destruct (get_cover_run game_title app_id exe_path s) as (evs & _ & _ & _ & Hrun).
  unfold cover_run in Hrun.
  destruct (fst (get_cover game_title app_id exe_path s)) as [[[p|] src]|e]; [| |exact I].
  - destruct Hrun as (_ & before & k & after & _ & -> & _).
    do 9 (destruct k as [|k]; [simpl; tauto|]). simpl; tauto.
  - destruct Hrun as [-> _]. simpl; tauto.
Qed.

(** C3.  The cache path that [get_cover] derives, and returns on success,
    depends on the stable identifier alone when there is one, and on the
    normalised title alone when there is none; it is the path that
    [_get_cache_path] gives for that key. *)
Theorem get_cover_cache_path_deterministic
  (t1 t2 : string) (a1 a2 e1 e2 : option string) (s1 s2 : state) :
  cache_dir s1 = cache_dir s2 ->
  (Py.truthy_opt a1 = true /\ a2 = a1)
  \/ (Py.truthy_opt a1 = false /\ Py.truthy_opt a2 = false
      /\ IconExtractor._clean_name t1 = IconExtractor._clean_name t2) ->
  cache_path_of (cache_dir s1) t1 a1 = cache_path_of (cache_dir s2) t2 a2
  /\ (forall p src, fst (get_cover t1 a1 e1 s1) = Val (Some p, src) ->
                    p = cache_path_of (cache_dir s1) t1 a1)
  /\ (forall p src, fst (get_cover t2 a2 e2 s2) = Val (Some p, src) ->
                    p = cache_path_of (cache_dir s2) t2 a2)
  /\ cache_path_of (cache_dir s1) t1 a1
     = IconExtractor._get_cache_path (cache_dir s1)
         (if Py.truthy_opt a1 then default EmptyString a1
          else md5_hexdigest (IconExtractor._clean_name t1)).
Proof.
  intros Hdir Hsame. split; [|split; [|split]].
  - unfold cache_path_of. rewrite Hdir.
    destruct Hsame as [[H1 ->] | (H1 & H2 & Hc)].
    + rewrite H1. reflexivity.
    + rewrite H1, H2, Hc. reflexivity.
  - intros p src Hr.
    destruct (get_cover_run t1 a1 e1 s1) as (evs & _ & _ & _ & Hrun).
    rewrite Hr in Hrun. destruct Hrun as [-> _]. reflexivity.
  - intros p src Hr.
    destruct (get_cover_run t2 a2 e2 s2) as (evs & _ & _ & _ & Hrun).
    rewrite Hr in Hrun. destruct Hrun as [-> _]. reflexivity.
  - reflexivity.
Qed.

End GetCoverClaims.

Module GetCoverExamples.
Import Trace CoverAPIManager Fallback Sample.
#[local] Existing Instance Sample.runtime.

Lemma get_cover_cache_path_deterministic_witness :
  cache_path_of (cache_dir no_keys) "Doom Eternal [CODEX]" (Some "782330")
  = cache_path_of (cache_dir no_keys) "DOOM" (Some "782330")
  /\ cache_path_of (cache_dir no_keys) "Doom.Eternal-CODEX" None
     = cache_path_of (cache_dir no_keys) "Doom Eternal [GOG]" (Some EmptyString).
Proof.
  split.
  - refine (proj1 (get_cover_cache_path_deterministic (W := offline)
             "Doom Eternal [CODEX]" "DOOM" (Some "782330") (Some "782330") None None
             no_keys no_keys eq_refl _)).
    left. split; reflexivity.
  - refine (proj1 (get_cover_cache_path_deterministic (W := offline)
             "Doom.Eternal-CODEX" "Doom Eternal [GOG]" None (Some EmptyString) None None
             no_keys no_keys eq_refl _)).
    right. repeat split; vm_compute; reflexivity.
Defined.

(** C4 fails as stated: a cover fetched from the Steam CDN is returned
    with the tag "Steam CDN", which is not in the claimed set. *)
Lemma get_cover_tag_outside_claimed_set :
  snd <$> (match fst (get_cover (W := cdn_up) "Doom Eternal [CODEX]" (Some "782330") None no_keys)
           with Val c => Some c | Exc _ => None end)
  = Some "Steam CDN"
  /\ ~ In "Steam CDN" ["SteamGridDB"; "SteamCDN"; "RAWG"; "SteamStoreSearch";
                       "DuckDuckGo"; "ExeIcon"; "None"].
Proof.
  split; [vm_compute; reflexivity|].
  simpl. intros H. repeat (destruct H as [H|H]; [discriminate H|]). exact H.
Qed.

(** C2: the code breaks the claim.  With a SteamGridDB key configured and
    the service answering 200 with the JSON text [1], the AttributeError
    raised by [data.get] in [get_grids_by_steam_id] leaves [get_cover]. *)
Theorem get_cover_raises_on_array_payload :
  fst (get_cover (W := answers_array) "Doom" (Some "10") None with_sgdb_key)
  = Exc Py.AttributeError.
Proof. vm_compute. reflexivity. Qed.

End GetCoverExamples.

(** ** Rate limiting *)

Section RateLimit.
Import Trace.
Context `{R : Runtime} `{W : World}.

Lemma perform_evolves q s : evolves (fun _ => True) s (perform q s).
Proof.
  destruct q; simpl.
  - destruct (get_cover_run game_title app_id exe_path s) as (_ & _ & H & _). exact H.
  - apply quiet_any, Steps__make_request.
  - apply quiet_any, Steps_get_grids_by_steam_id.
  - apply quiet_any, Steps_sgdb_search_game.
  - apply quiet_any, Steps_get_grids_by_game_id.
  - apply quiet_any, Steps_rawg_search_game.
Qed.

Lemma perform_all_evolves qs : forall s, evolves (fun _ => True) s (perform_all qs s).
Proof.
  induction qs as [|q qs IH]; intros s; simpl; [apply evolves_refl|].
  eapply evolves_trans; [apply perform_evolves|apply IH].
Qed.

(** The latest of spaced times is as many delays after the earliest as
    there are times in between. *)
Lemma spaced_span d lo ts : forall t,
  spaced d (t :: ts) -> Forall (fun x => lo <= x) (t :: ts) ->
  lo + Z.of_nat (length ts) * d <= t.
Proof.
  induction ts as [|t' ts IH]; intros t [Hd Hs] Hb.
  - inversion Hb; subst. simpl. lia.
  - inversion Hb as [|? ? _ Hb']; subst. specialize (IH t' Hs Hb').
    simpl length. lia.
Qed.

Lemma last_reading_timely lo hi evs stamp :
  Forall (timely lo hi) evs -> last_reading evs = Some stamp -> lo <= stamp <= hi.
Proof.
  induction 1 as [|e evs He _ IH]; [discriminate|].
  destruct e; simpl in *; auto. intros [= <-]. exact He.
Qed.

(** The readings and the requests of a stretch lie within it. *)
Lemma timely_releases who lo hi evs :
  Forall (timely lo hi) evs ->
  Forall (fun r => lo <= fst r /\ snd r <= hi) (releases who evs).
Proof.
  induction 1 as [|e evs He Hy IH]; simpl; [constructor|].
  destruct (dispatch_time who e) as [t|] eqn:E; [|exact IH].
  destruct (last_reading evs) as [stamp|] eqn:L; [|exact IH].
  constructor; [|exact IH]. simpl.
  pose proof (last_reading_timely lo hi evs stamp Hy L).
  destruct e; try discriminate. simpl in E, He.
  destruct (caller_eqb who0 who); [|discriminate]. injection E as <-. lia.
Qed.

Lemma elapsed_bound d lo hi rel :
  0 <= d -> lo <= hi ->
  spaced d (map fst rel) ->
  Forall (fun r => lo <= fst r /\ snd r <= hi) rel ->
  Forall (fun r => fst r <= snd r) rel ->
  (Z.of_nat (length rel) - 1) * d <= hi - lo.
Proof.
  intros Hd Hck Hs Hy Hle. destruct rel as [|r rel]; [simpl; lia|].
  pose proof (spaced_span d lo (map fst rel) (fst r) Hs) as H.
  assert (Hlo : Forall (fun x => lo <= x) (fst r :: map fst rel)).
  { change (fst r :: map fst rel) with (map fst (r :: rel)).
    apply List.Forall_forall. intros x Hx. apply in_map_iff in Hx as (y & <- & Hy').
    rewrite List.Forall_forall in Hy. apply Hy in Hy'. lia. }
  specialize (H Hlo). rewrite length_map in H.
  inversion Hy as [|? ? [_ Hhi] _]; subst. inversion Hle as [|? ? Hr _]; subst.
  simpl length. lia.
Qed.

Lemma init_dispatch_times who dir sgdb_key rawg_key t0 :
  dispatch_times who (trace (CoverAPIManager.__init__ dir sgdb_key rawg_key t0)) = [].
Proof.
  unfold CoverAPIManager.__init__. simpl.
  destruct (Py.truthy_opt rawg_key), (Py.truthy_opt sgdb_key); reflexivity.
Qed.

(** The requests of a client since the manager was constructed. *)
Lemma releases_since_init who d dir sgdb_key rawg_key t0 evs s'
  (timing : state -> option (Z * Z)) :
  let s0 := CoverAPIManager.__init__ dir sgdb_key rawg_key t0 in
  trace s' = evs ++ trace s0 ->
  clock s0 <= clock s' ->
  Forall (timely (clock s0) (clock s')) evs ->
  client_evolves who evs (timing s0) (timing s') ->
  (timing s0 = None \/ timing s0 = Some (d, 0)) -> 0 <= d ->
  let rel := releases who (trace s') in
  map snd rel = dispatch_times who (trace s')
  /\ spaced d (map fst rel)
  /\ Forall (fun r => fst r <= snd r) rel
  /\ (Z.of_nat (length rel) - 1) * d <= clock s' - t0.
Proof.
  intros s0 Htr Hck Hy [Hm Hc] Ht0 Hd rel. subst rel.
  assert (Hrel : releases who (trace s') = releases who evs).
  { rewrite Htr, (releases_app who evs _ Hm).
    rewrite (releases_quiet who (trace s0)) by apply init_dispatch_times.
    apply app_nil_r. }
  assert (Hdis : dispatch_times who (trace s') = dispatch_times who evs).
  { rewrite Htr. unfold dispatch_times. rewrite omap_app.
    fold (dispatch_times who (trace s0)). unfold s0.
    rewrite init_dispatch_times. apply app_nil_r. }
  rewrite Hrel, Hdis. split; [exact Hm|].
  assert (Hs0 : clock s0 = t0) by reflexivity.
  destruct Ht0 as [E|E]; rewrite E in Hc.
  - destruct (timing s'); [contradiction|]. rewrite Hc. simpl.
    repeat split; try constructor. lia.
  - destruct (timing s') as [[d' last']|]; [|contradiction].
    destruct Hc as [_ Hp]. destruct (Hp Hd) as (Hs & Hb & _).
    assert (Hle : Forall (fun r => fst r <= snd r) (releases who evs))
      by (eapply Forall_impl; [exact Hb|]; simpl; intros; lia).
    split; [exact Hs|]. split; [exact Hle|].
    rewrite <- Hs0.
    apply elapsed_bound; auto. apply timely_releases. exact Hy.
Qed.

(** C6, as amended.  Take a manager as constructed, and any sequence of
    requests to it and to its two clients.  Every request of a client
    leaves after a reading of the clock, the one that [_wait_rate_limit]
    has stored in [_last_request_time]; for the SteamGridDB client these
    readings lie at least 250 ms apart, for the RAWG client at least
    100 ms, and no request leaves before its reading.  So [n] requests of
    one client take at least [n - 1] of its delays, 5 SteamGridDB
    requests at least 4 x 250 ms; and the requests themselves lie that
    far apart whenever each one left at the instant of its reading. *)
Theorem rate_limit_release_spacing (dir : string) (sgdb_key rawg_key : option string) (t0 : Z)
  (qs : list request) :
  let s' := perform_all qs (CoverAPIManager.__init__ dir sgdb_key rawg_key t0) in
  let sg := releases BySteamGridDB (trace s') in
  let rw := releases ByRAWG (trace s') in
  (map snd sg = dispatch_times BySteamGridDB (trace s')
   /\ spaced 250 (map fst sg)
   /\ Forall (fun r => fst r <= snd r) sg
   /\ (Z.of_nat (length sg) - 1) * 250 <= clock s' - t0
   /\ (Forall (fun r => snd r = fst r) sg ->
       spaced 250 (dispatch_times BySteamGridDB (trace s'))))
  /\ (map snd rw = dispatch_times ByRAWG (trace s')
      /\ spaced 100 (map fst rw)
      /\ Forall (fun r => fst r <= snd r) rw
      /\ (Z.of_nat (length rw) - 1) * 100 <= clock s' - t0
      /\ (Forall (fun r => snd r = fst r) rw ->
          spaced 100 (dispatch_times ByRAWG (trace s')))).
Proof.
  intros s' sg rw. subst s' sg rw.
  set (s0 := CoverAPIManager.__init__ dir sgdb_key rawg_key t0).
  destruct (perform_all_evolves qs s0) as (evs & Htr & _ & Hck & Hy & _ & Hg & Hr).
  assert (Hprompt : forall d (rel : list (Z * Z)) ts,
             map snd rel = ts -> spaced d (map fst rel) ->
             Forall (fun r => snd r = fst r) rel -> spaced d ts).
  { intros d rel ts <- Hs Hp. replace (map snd rel) with (map fst rel); [exact Hs|].
    clear Hs. induction Hp as [|r rel Hr' _ IH]; [reflexivity|]. simpl. congruence. }
  split.
  - destruct (releases_since_init BySteamGridDB 250 dir sgdb_key rawg_key t0 evs
                (perform_all qs s0) sgdb_timing Htr Hck Hy Hg) as (H1 & H2 & H3 & H4).
    + unfold sgdb_timing. simpl. destruct (Py.truthy_opt sgdb_key); auto.
    + lia.
    + repeat split; auto. apply (Hprompt 250 _ _ H1 H2).
  - destruct (releases_since_init ByRAWG 100 dir sgdb_key rawg_key t0 evs
                (perform_all qs s0) rawg_timing Htr Hck Hy Hr) as (H1 & H2 & H3 & H4).
    + unfold rawg_timing. simpl. destruct (Py.truthy_opt rawg_key); auto.
    + lia.
    + repeat split; auto. apply (Hprompt 100 _ _ H1 H2).
Qed.

(** ** Authorisation failures *)

(** A SteamGridDB client without a key answers at once and does nothing. *)
Lemma sgdb_disabled_make_request s c endpoint :
  sgdb s = Some c -> Py.truthy_opt (sg_api_key c) = false ->
  SteamGridDBClient._make_request endpoint s = (Val Py.None_, s).
Proof.
  intros Hc Hk. unfold SteamGridDBClient._make_request, SteamGridDBClient.self, bind.
  rewrite Hc, Hk. reflexivity.
Qed.

(** A 401 takes the key away: whatever the state, if the reply to the
    request of [_make_request] is HTTP 401, the client has no key
    afterwards. *)
Lemma sgdb_401_disables s c endpoint :
  sgdb s = Some c -> Py.truthy_opt (sg_api_key c) = true ->
  urlopen (trace (snd (SteamGridDBClient._wait_rate_limit s)))
    (SteamGridDBClient.BASE_URL ++ "/" ++ endpoint)%string = HTTPError 401 ->
  exists c', sgdb (snd (SteamGridDBClient._make_request endpoint s)) = Some c'
             /\ sg_api_key c' = None.
Proof.
  intros Hc Hk H401.
  destruct (sgdb_wait_rate_limit_spec s c Hc) as (evs & s1 & Hw & _ & _ & _ & _ & _ & _ & Hs1 & _).
  rewrite Hw in H401. cbn [snd] in H401.
  unfold SteamGridDBClient._make_request. unfold bind at 1.
  unfold SteamGridDBClient.self at 1. rewrite Hc, Hk. cbn [negb].
  unfold bind at 1. rewrite Hw. unfold bind at 1. cbn [http]. rewrite H401.
  cbn. unfold SteamGridDBClient.update, SteamGridDBClient.self, bind. cbn.
  rewrite Hs1. cbn. eexists. split; reflexivity.
Qed.

(** Once the key is gone, every further [_make_request] returns None and
    leaves the state, hence the trace, as it was. *)
Lemma sgdb_disabled_forever endpoints : forall s c,
  sgdb s = Some c -> Py.truthy_opt (sg_api_key c) = false ->
  Forall (fun e => SteamGridDBClient._make_request e s = (Val Py.None_, s)) endpoints
  /\ perform_all (map MakeRequest endpoints) s = s.
Proof.
  induction endpoints as [|e es IH]; intros s c Hc Hk; [split; [constructor|reflexivity]|].
  pose proof (sgdb_disabled_make_request s c e Hc Hk) as He.
  destruct (IH s c Hc Hk) as [Hall Hsame].
  split; [constructor; assumption|].
  simpl. rewrite He. exact Hsame.
Qed.

End RateLimit.

Module RateLimitExamples.
Import Trace Sample.
#[local] Existing Instance Sample.runtime.

(** C6 fails as stated: when the first request is held up for 100 ms
    after the clock was read for it, the second one, released 250 ms
    after the first, leaves only 150 ms after it. *)
Lemma dispatches_closer_than_min_delay :
  let s' := perform_all (W := held_up)
              [MakeRequest "grids/steam/10"; MakeRequest "grids/steam/20"] started_late in
  dispatch_times BySteamGridDB (trace s') = [1000250; 1000100]
  /\ releases BySteamGridDB (trace s') = [(1000250, 1000250); (1000000, 1000100)]
  /\ ~ spaced 250 (dispatch_times BySteamGridDB (trace s')).
Proof.
  intros s'.
  assert (E : dispatch_times BySteamGridDB (trace s') = [1000250; 1000100])
    by (vm_compute; reflexivity).
  split; [exact E|]. split; [vm_compute; reflexivity|].
  rewrite E. simpl. lia.
Qed.

End RateLimitExamples.

Module ClientExamples.
Import Trace Sample.
#[local] Existing Instance Sample.runtime.

(** C5: the code breaks the claim for the RAWG client.  Its key is
    refused with HTTP 401 on a first search; the second search, for
    another name, opens a URL again and the key is still in place. *)
Theorem rawg_client_not_disabled_by_401 :
  let s1 := perform (W := unauthorized) (RawgSearchGame "doom") with_rawg_key in
  let s2 := perform (W := unauthorized) (RawgSearchGame "quake") s1 in
  length (dispatch_times ByRAWG (trace s1)) = 1%nat
  /\ length (dispatch_times ByRAWG (trace s2)) = 2%nat
  /\ (rw_api_key <$> rawg s2) = Some (Some "bad-key").
Proof. vm_compute. repeat split. Qed.

End ClientExamples.

(** ** The shape of a normalised name *)

Section CleanNameShape.
Import PyStr Re CleanName.

Lemma remove_from_sublist r s : forall prev skip, sublist (remove_from r prev s skip) s.
Proof.
  induction s as [|c s IH]; intros prev skip; simpl; [constructor|].
  destruct skip as [|n]; [|apply sublist_cons, IH].
  destruct (match_at r prev (c :: s)) as [[|n]|];
    first [apply sublist_skip, IH | apply sublist_cons, IH].
Qed.

Lemma Forall_sublist {A} (Q : A -> Prop) l1 l2 : sublist l1 l2 -> Forall Q l2 -> Forall Q l1.
Proof.
  induction 1 as [|x l1 l2 _ IH|x l1 l2 _ IH]; intros H; [constructor|..];
    apply Forall_cons in H as [Hx H]; [constructor|]; auto.
Qed.

Lemma remove_sublist r s : sublist (remove r s) s.
Proof. apply remove_from_sublist. Qed.

Lemma fold_remove_sublist (rs : list regex) (f : regex -> regex) : forall n,
  sublist (fold_left (fun n j => remove (f j) n) rs n) n.
Proof.
  induction rs as [|r rs IH]; intros n; simpl; [reflexivity|].
  etransitivity; [apply IH|apply remove_sublist].
Qed.

(** The text that [_clean_name] splits into words is what is left of the
    name, dots and underscores replaced, after deletions. *)
Lemma clean_chars_collapse name :
  exists n, clean_chars name = collapse n
            /\ sublist n (replace_char "_" " " (replace_char "." " " name)).
Proof.
  unfold clean_chars. eexists. split; [reflexivity|].
  do 4 (etransitivity; [apply remove_sublist|]).
  apply fold_remove_sublist.
Qed.

Lemma split_from_Forall (Q : ascii -> Prop) s : forall w,
  Forall Q w -> Forall Q s -> Forall (Forall Q) (split_from w s).
Proof.
  induction s as [|c s IH]; intros w Hw Hs; simpl.
  - destruct w; repeat constructor. apply Forall_rev. assumption.
  - apply Forall_cons in Hs as [Hc Hs].
    destruct (isspace c).
    + destruct w; [apply IH; [constructor|assumption]|].
      constructor; [apply Forall_rev; assumption|apply IH; [constructor|assumption]].
    + apply IH; [constructor|]; assumption.
Qed.

Lemma replaced_no_dots name :
  Forall (fun c => c <> "."%char /\ c <> "_"%char)
    (replace_char "_" " " (replace_char "." " " name)).
Proof.
  unfold replace_char. rewrite map_map. apply Forall_map, Forall_forall. intros c _. simpl.
  destruct (Ascii.eqb_spec c "."); [subst; simpl; split; discriminate|].
  destruct (Ascii.eqb_spec c "_"); [split; discriminate|]. split; assumption.
Qed.

Lemma split_from_concat s : forall w,
  concat (split_from w s) = rev w ++ List.filter nonspace s.
Proof.
  unfold nonspace.
  induction s as [|c s IH]; intros w; simpl.
  - destruct w; simpl; rewrite ?app_nil_r; reflexivity.
  - destruct (isspace c); simpl.
    + destruct w as [|a w]; [apply IH|]. simpl. rewrite IH. reflexivity.
    + rewrite IH. simpl. rewrite <- app_assoc. reflexivity.
Qed.

Lemma filter_join_space ws :
  Forall word ws -> List.filter nonspace (join_space ws) = concat ws.
Proof.
  assert (Hw : forall w, Forall (fun c => isspace c = false) w -> List.filter nonspace w = w).
  { induction 1 as [|c w Hc _ IH]; simpl; [reflexivity|].
    unfold nonspace at 1. rewrite Hc. simpl. congruence. }
  induction 1 as [|w ws [_ H] Hws IH]; [reflexivity|].
  destruct ws as [|w' ws].
  - simpl. rewrite app_nil_r. auto.
  - change (join_space (w :: w' :: ws)) with (w ++ " "%char :: join_space (w' :: ws)).
    rewrite List.filter_app. cbn [List.filter]. change (nonspace " ") with false. cbv iota.
    rewrite IH, Hw by assumption. reflexivity.
Qed.

Lemma filter_collapse n : List.filter nonspace (collapse n) = List.filter nonspace n.
Proof.
  unfold collapse. rewrite filter_join_space by (apply split_from_words; constructor).
  unfold split. rewrite split_from_concat. reflexivity.
Qed.

Lemma sublist_List_filter (p : ascii -> bool) l1 l2 :
  sublist l1 l2 -> sublist (List.filter p l1) (List.filter p l2).
Proof.
  induction 1 as [|x l1 l2 _ IH|x l1 l2 _ IH]; simpl; [constructor|..];
    destruct (p x); try assumption; [apply sublist_skip|apply sublist_cons]; assumption.
Qed.

Lemma filter_replace_char a l :
  sublist (List.filter nonspace (replace_char a " " l)) (List.filter nonspace l).
Proof.
  induction l as [|c l IH]; simpl; [constructor|].
  destruct (Ascii.eqb c a).
  - change (nonspace " ") with false. cbv iota.
    destruct (nonspace c); [apply sublist_cons|]; assumption.
  - destruct (nonspace c); [apply sublist_skip|]; assumption.
Qed.

Lemma length_join_split s : forall w,
  (length (join_space (split_from w s)) <= length w + length s)%nat.
Proof.
  assert (Hj : forall w ws, (length (join_space (w :: ws))
                             <= length w + 1 + length (join_space ws))%nat).
  { intros w [|w' ws]; [simpl; lia|].
    change (join_space (w :: w' :: ws)) with (w ++ " "%char :: join_space (w' :: ws)).
    rewrite length_app. simpl. lia. }
  induction s as [|c s IH]; intros w; simpl.
  - destruct w; simpl; rewrite ?length_app, ?length_rev; simpl; lia.
  - destruct (isspace c).
    + destruct w as [|a w]; [specialize (IH []); simpl in *; lia|].
      etransitivity; [apply Hj|]. rewrite length_rev. specialize (IH []). simpl in *. lia.
    + specialize (IH (c :: w)). simpl in *. lia.
Qed.

Lemma length_chars s : length (list_ascii_of_string s) = String.length s.
Proof. induction s as [|c s IH]; simpl; congruence. Qed.

End CleanNameShape.

(** X1.  A name that [_clean_name] returns is a sequence of words joined
    by single spaces: it neither starts nor ends with a blank, has no two
    blanks in a row, and its words are not empty and hold no white space,
    no dot and no underscore. *)
Theorem clean_name_normal_form (x : string) :
  exists ws : list (list ascii),
    list_ascii_of_string (CleanName._clean_name x) = PyStr.join_space ws
    /\ Forall (fun w => w <> []
                        /\ Forall (fun c => PyStr.isspace c = false
                                            /\ c <> "."%char /\ c <> "_"%char) w) ws.
Proof.
  unfold CleanName._clean_name. rewrite list_ascii_of_string_of_list_ascii.
  destruct (clean_chars_collapse (list_ascii_of_string x)) as (n & -> & Hsub).
  exists (PyStr.split n). split; [reflexivity|].
  assert (Hw : Forall word (PyStr.split n)) by (apply split_from_words; constructor).
  assert (Hd : Forall (Forall (fun c => c <> "."%char /\ c <> "_"%char)) (PyStr.split n)).
  { apply split_from_Forall; [constructor|].
    eapply Forall_sublist; [eassumption|apply replaced_no_dots]. }
  rewrite Forall_forall in Hw, Hd. apply Forall_forall. intros w Hin.
  destruct (Hw w Hin) as [Hne Hsp]. specialize (Hd w Hin).
  split; [assumption|].
  rewrite Forall_forall in Hsp, Hd. apply Forall_forall. intros c Hc.
  split; [apply Hsp|apply Hd]; assumption.
Qed.

(** X2.  [_clean_name] only deletes: apart from white space, the
    characters of the result are characters of the name, in the same
    order; and the result is never longer than the name. *)
Theorem clean_name_only_deletes (x : string) :
  let visible s := List.filter (fun c => negb (PyStr.isspace c)) (list_ascii_of_string s) in
  sublist (visible (CleanName._clean_name x)) (visible x)
  /\ (String.length (CleanName._clean_name x) <= String.length x)%nat.
Proof.
  cbv zeta. rewrite <- !length_chars.
  unfold CleanName._clean_name. rewrite list_ascii_of_string_of_list_ascii.
  destruct (clean_chars_collapse (list_ascii_of_string x)) as (n & -> & Hsub).
  split.
  - change (sublist (List.filter nonspace (CleanName.collapse n))
              (List.filter nonspace (list_ascii_of_string x))).
    rewrite filter_collapse.
    etransitivity; [apply sublist_List_filter; eassumption|].
    etransitivity; apply filter_replace_char.
  - apply sublist_length in Hsub. unfold PyStr.replace_char in Hsub.
    rewrite !length_map in Hsub.
    pose proof (length_join_split n []) as H. simpl in H.
    unfold CleanName.collapse, PyStr.split. lia.
Qed.

(** ** Growth is a preorder *)

Section GrowthFacts.

Lemma grows_refl P s : grows P s s.
Proof. split; [exists []; split; [reflexivity|constructor]|]. split; [reflexivity|auto]. Qed.

Lemma grows_trans P s1 s2 s3 : grows P s1 s2 -> grows P s2 s3 -> grows P s1 s3.
Proof.
  intros ((e1 & T1 & P1) & C1 & O1) ((e2 & T2 & P2) & C2 & O2).
  split; [exists (e2 ++ e1); split; [rewrite T2, T1, app_assoc; reflexivity|]|].
  - apply Forall_app; auto.
  - split; [etransitivity; eassumption|auto].
Qed.

Lemma grows_mono (P Q : event -> Prop) s s' :
  (forall e, P e -> Q e) -> grows P s s' -> grows Q s s'.
Proof.
  intros PQ ((evs & T & HP) & rest). split; [|assumption].
  exists evs. split; [assumption|]. eapply Forall_impl; eauto.
Qed.

Lemma grows_with_clock (P : event -> Prop) s t e : P e -> grows P s (with_clock t e s).
Proof.
  intros HP. split; [exists [e]; split; [reflexivity|repeat constructor; assumption]|].
  split; [reflexivity|auto].
Qed.

Lemma grows_perform_all `{R : Runtime} `{W : World} (I : state -> Prop) P :
  stable I -> (forall q, Under I (grows P) (fun s => (Val tt, perform q s))) ->
  forall qs s, I s -> grows P s (perform_all qs s).
Proof.
  intros HI Hq. unfold perform_all.
  induction qs as [|q qs IH]; intros s Hs; simpl; [apply grows_refl|].
  pose proof (Hq q s Hs) as H1. simpl in H1.
  eapply grows_trans; [eassumption|]. apply IH.
  eapply HI; [|eassumption]. eapply grows_mono; [|eassumption]. auto.
Qed.

Lemma stable_sgdb_off : stable sgdb_off.
Proof. intros s s' (_ & _ & H). exact H. Qed.

Lemma stable_cached k v : stable (fun s => _search_cache s !! k = Some v).
Proof. intros s s' (_ & H & _) Hk. eapply lookup_weaken; eassumption. Qed.

Lemma stable_True : stable (fun _ => True).
Proof. intros s s' _ _. exact I. Qed.

(** The positions of the requests of [who] in a trace that grew by
    events none of which is such a request. *)
Lemma dispatch_times_grows who s s' :
  grows (fun e => Trace.dispatch_time who e = None) s s' ->
  Trace.dispatch_times who (trace s') = Trace.dispatch_times who (trace s).
Proof.
  intros ((evs & -> & H) & _). unfold Trace.dispatch_times. rewrite omap_app.
  replace (omap (Trace.dispatch_time who) evs) with (@nil Z); [reflexivity|].
  induction H as [|e evs He _ IH]; simpl; [reflexivity|]. rewrite He. assumption.
Qed.

Lemma file_writes_none evs :
  Forall (fun e => file_write e = None) evs -> file_writes evs = [].
Proof.
  unfold file_writes. induction 1 as [|e evs He _ IH]; simpl; [reflexivity|].
  rewrite He. assumption.
Qed.

End GrowthFacts.

(** ** The footprint of every method

    [I] is what is known of the state beforehand, [P] what the events may
    be.  Events of one kind need [P] only where a method can add them. *)

Create HintDb under.

Section Footprint.
Context `{R : Runtime} `{W : World}.
Variable I : state -> Prop.
Variable P : event -> Prop.
Hypothesis I_stable : stable I.
Hypothesis P_inert : forall e, inert e = true -> P e.

Lemma Under_ret {A} (a : A) : Under I (grows P) (ret a).
Proof. intros s _. apply grows_refl. Qed.

Lemma Under_lift {A} (r : result A) : Under I (grows P) (lift r).
Proof. intros s _. apply grows_refl. Qed.

Lemma Under_get_state : Under I (grows P) get_state.
Proof. intros s _. apply grows_refl. Qed.

Lemma Under_raise {A} e : Under I (grows P) (raise e : M A).
Proof. intros s _. apply grows_refl. Qed.

Lemma Under_bind {A B} (m : M A) (f : A -> M B) :
  Under I (grows P) m -> (forall a, Under I (grows P) (f a)) -> Under I (grows P) (bind m f).
Proof.
  intros Hm Hf s Hs. unfold bind. specialize (Hm s Hs).
  destruct (m s) as [[a|e] s1]; simpl in *; [|assumption].
  eapply grows_trans; [eassumption|]. apply Hf.
  eapply I_stable; [|eassumption]. eapply grows_mono; [|eassumption]. auto.
Qed.

Lemma Under_when b (m : M unit) : Under I (grows P) m -> Under I (grows P) (when_ b m).
Proof. intros Hm. destruct b; [assumption|apply Under_ret]. Qed.

Lemma Under_log lv msg : Under I (grows P) (log lv msg).
Proof. intros s _. apply grows_with_clock, P_inert. reflexivity. Qed.

Lemma Under_print msg : Under I (grows P) (print msg).
Proof. intros s _. apply grows_with_clock, P_inert. reflexivity. Qed.

Lemma Under_time_time : Under I (grows P) time_time.
Proof. intros s _. apply grows_with_clock, P_inert. reflexivity. Qed.

Lemma Under_time_sleep d : Under I (grows P) (time_sleep d).
Proof. intros s _. apply grows_with_clock, P_inert. reflexivity. Qed.

Lemma Under_random_uniform : Under I (grows P) random_uniform.
Proof. intros s _. apply grows_with_clock, P_inert. reflexivity. Qed.

Lemma Under_http who url :
  (forall t, P (Urlopen who url t)) -> Under I (grows P) (http who url).
Proof. intros HP s _. apply grows_with_clock, HP. Qed.

Lemma Under_write_file path n :
  P (WriteFile path n) -> Under I (grows P) (write_file path n).
Proof.
  intros HP s _. unfold write_file. destruct (open_wb (trace s) path); simpl.
  - apply grows_with_clock, HP.
  - apply grows_refl.
Qed.

Lemma Under_ddgs query : P (DdgImages query) -> Under I (grows P) (IconExtractor.ddgs query).
Proof. intros HP s _. apply grows_with_clock, HP. Qed.

Lemma Under_icoextract exe :
  P (IcoExtract exe) -> Under I (grows P) (IconExtractor.icoextract exe).
Proof. intros HP s _. apply grows_with_clock, HP. Qed.

Lemma Under_sgdb_self : Under I (grows P) SteamGridDBClient.self.
Proof.
  intros s _. unfold SteamGridDBClient.self. destruct (sgdb s); apply grows_refl.
Qed.

Lemma Under_rawg_self : Under I (grows P) RAWGClient.self.
Proof. intros s _. unfold RAWGClient.self. destruct (rawg s); apply grows_refl. Qed.

(** An update of the SteamGridDB client that does not give it a key. *)
Lemma Under_sgdb_update f :
  (forall c, Py.truthy_opt (sg_api_key c) = false -> Py.truthy_opt (sg_api_key (f c)) = false) ->
  Under I (grows P) (SteamGridDBClient.update f).
Proof.
  intros Hf s _. unfold SteamGridDBClient.update, SteamGridDBClient.self, bind.
  destruct (sgdb s) as [c|] eqn:Hc; simpl; [|apply grows_refl].
  split; [exists []; split; [reflexivity|constructor]|]. split; [reflexivity|].
  unfold sgdb_off. simpl. rewrite Hc. apply Hf.
Qed.

Lemma Under_rawg_update f : Under I (grows P) (RAWGClient.update f).
Proof.
  intros s _. unfold RAWGClient.update, RAWGClient.self, bind.
  destruct (rawg s) as [c|] eqn:Hc; simpl; [|apply grows_refl].
  split; [exists []; split; [reflexivity|constructor]|]. split; [reflexivity|].
  unfold sgdb_off. simpl. auto.
Qed.

End Footprint.

#[export] Hint Resolve Under_ret Under_lift Under_get_state Under_raise Under_log Under_print
  Under_time_time Under_time_sleep Under_random_uniform Under_http Under_write_file
  Under_ddgs Under_icoextract Under_sgdb_self Under_rawg_self Under_rawg_update : under.

(** Walk through a computation, one construct at a time. *)
Ltac under :=
  cbv zeta;
  repeat first
    [ solve [auto with under]
    | apply Under_when
    | apply Under_sgdb_update; intros ?; solve [auto]
    | apply Under_bind; [solve [auto] | | intros ?]
    | match goal with
      | |- Under _ _ (if ?b then _ else _) => destruct b
      | |- Under _ _ (match ?x with _ => _ end) => destruct x
      end ].

Section MethodFootprints.
Context `{R : Runtime} `{W : World}.
Variable I : state -> Prop.
Variable P : event -> Prop.
Hypothesis I_stable : stable I.
Hypothesis P_inert : forall e, inert e = true -> P e.
Hypothesis P_download : forall url t, P (Urlopen ByDownload url t).
Hypothesis P_write : forall path n, P (WriteFile path n).
Hypothesis P_ddg : forall query, P (DdgImages query).
Hypothesis P_ico : forall exe, P (IcoExtract exe).
Hypothesis P_rawg : forall url t, P (Urlopen ByRAWG url t).
(** Either the SteamGridDB client is known to be without its key, or
    requests to SteamGridDB are among the events allowed. *)
Hypothesis P_sgdb :
  (forall s, I s -> sgdb_off s) \/ (forall url t, P (Urlopen BySteamGridDB url t)).

Lemma Under__download_file url path :
  Under I (grows P) (IconExtractor._download_file url path).
Proof. unfold IconExtractor._download_file. under. Qed.
#[local] Hint Resolve Under__download_file : under.

(** Either the name is too short to be searched, or it is known to be in
    the search cache, or requests to the store search are among the
    events allowed. *)
Lemma Under__search_steam_id_by_name name :
  (PyStr.len (IconExtractor._clean_name name) <? 2) = true
  \/ (forall s, I s -> is_Some (_search_cache s !! IconExtractor._clean_name name))
  \/ (forall url t, P (Urlopen ByStoreSearch url t)) ->
  Under I (grows P) (IconExtractor._search_steam_id_by_name name).
Proof.
  intros Hst s Hs. unfold IconExtractor._search_steam_id_by_name.
  destruct (PyStr.len (IconExtractor._clean_name name) <? 2) eqn:Hlen; [apply grows_refl|].
  unfold bind at 1. cbn [get_state].
  destruct (_search_cache s !! IconExtractor._clean_name name) as [v|] eqn:Hk;
    [apply grows_refl|].
  destruct Hst as [Hst|[Hst|Hst]];
    [discriminate | destruct (Hst s Hs) as [v Hv]; congruence |].
  unfold bind at 1. cbn [print emit]. unfold bind at 1. cbn [http].
  set (url := ("https://store.steampowered.com/api/storesearch/?term=" ++ _ ++ _)%string).
  cbv zeta. set (s1 := with_clock _ (Urlopen _ _ _) _).
  destruct (IconExtractor.store_reply_appid _) as [appid|].
  - split; [eexists [_; _; _]; split; [reflexivity|]|].
    + repeat constructor; first [apply P_inert; reflexivity | apply Hst].
    + split; [apply insert_subseteq; assumption|auto].
  - split; [eexists [_; _; _]; split; [reflexivity|]|].
    + repeat constructor; first [apply P_inert; reflexivity | apply Hst].
    + split; [apply insert_subseteq; assumption|auto].
Qed.

Lemma Under_try_urls urls path : Under I (grows P) (IconExtractor.try_urls urls path).
Proof. induction urls as [|u urls IH]; simpl; under. Qed.

Lemma Under__download_steam_cover app_id path :
  Under I (grows P) (IconExtractor._download_steam_cover app_id path).
Proof. apply Under_try_urls. Qed.

Lemma Under_ddg_results results path :
  Under I (grows P) (IconExtractor.ddg_results results path).
Proof. induction results as [|r results IH]; simpl; under. Qed.
#[local] Hint Resolve Under_ddg_results : under.

Lemma Under__search_duckduckgo name path :
  Under I (grows P) (IconExtractor._search_duckduckgo name path).
Proof. unfold IconExtractor._search_duckduckgo. under. Qed.

Lemma Under__extract_exe_icon exe path :
  Under I (grows P) (IconExtractor._extract_exe_icon exe path).
Proof. unfold IconExtractor._extract_exe_icon. under. Qed.

Lemma Under_sgdb_wait_rate_limit : Under I (grows P) SteamGridDBClient._wait_rate_limit.
Proof.
  unfold SteamGridDBClient._wait_rate_limit. under.
Qed.
#[local] Hint Resolve Under_sgdb_wait_rate_limit : under.

Lemma Under__make_request endpoint :
  Under I (grows P) (SteamGridDBClient._make_request endpoint).
Proof.
  destruct P_sgdb as [Hoff|Hsg].
  - intros s Hs. specialize (Hoff s Hs). unfold sgdb_off in Hoff.
    destruct (sgdb s) as [c|] eqn:Hc; [|contradiction].
    rewrite (sgdb_disabled_make_request s c endpoint Hc Hoff). apply grows_refl.
  - unfold SteamGridDBClient._make_request. under.
Qed.
#[local] Hint Resolve Under__make_request : under.

Lemma Under_grids key endpoint : Under I (grows P) (SteamGridDBClient.grids key endpoint).
Proof. unfold SteamGridDBClient.grids. under. Qed.

Lemma Under_get_grids_by_steam_id id :
  Under I (grows P) (SteamGridDBClient.get_grids_by_steam_id id).
Proof. apply Under_grids. Qed.

Lemma Under_get_grids_by_game_id id :
  Under I (grows P) (SteamGridDBClient.get_grids_by_game_id id).
Proof. apply Under_grids. Qed.

Lemma Under_sgdb_search_game name : Under I (grows P) (SteamGridDBClient.search_game name).
Proof. unfold SteamGridDBClient.search_game. under. Qed.

Lemma Under_rawg_wait_rate_limit : Under I (grows P) RAWGClient._wait_rate_limit.
Proof. unfold RAWGClient._wait_rate_limit. under. Qed.
#[local] Hint Resolve Under_rawg_wait_rate_limit : under.

Lemma Under_rawg_search_game name : Under I (grows P) (RAWGClient.search_game name).
Proof. unfold RAWGClient.search_game. under. Qed.

Lemma Under__download_image url path :
  Under I (grows P) (CoverAPIManager._download_image url path).
Proof. unfold CoverAPIManager._download_image. under. Qed.
#[local] Hint Resolve Under__download_image : under.

Lemma Under_for_return {A B} (xs : list A) (body : A -> M (option B)) :
  (forall x, Under I (grows P) (body x)) -> Under I (grows P) (for_return xs body).
Proof. intros Hb. induction xs as [|x xs IH]; simpl; under. Qed.

Lemma Under_download_first urls path msg src :
  Under I (grows P) (CoverAPIManager.download_first urls path msg src).
Proof. unfold CoverAPIManager.download_first. apply Under_for_return. intros url. under. Qed.

#[local] Hint Resolve Under__download_steam_cover Under__search_duckduckgo
  Under__extract_exe_icon Under_get_grids_by_steam_id Under_get_grids_by_game_id
  Under_sgdb_search_game Under_rawg_search_game Under_download_first
  Under__search_steam_id_by_name : under.

Lemma Under_get_cover game_title app_id exe_path :
  (PyStr.len (IconExtractor._clean_name game_title) <? 2) = true
  \/ (forall s, I s -> is_Some (_search_cache s !! IconExtractor._clean_name game_title))
  \/ (forall url t, P (Urlopen ByStoreSearch url t)) ->
  Under I (grows P) (CoverAPIManager.get_cover game_title app_id exe_path).
Proof.
  intros Hst.
  unfold CoverAPIManager.get_cover, CoverAPIManager.then_, CoverAPIManager.if_,
    CoverAPIManager.pass, CoverAPIManager.tier2, CoverAPIManager.tier3,
    CoverAPIManager.tier4, CoverAPIManager.tier5, CoverAPIManager.tier6,
    CoverAPIManager.tier7, CoverAPIManager.tier8, CoverAPIManager.pass.
  under.
Qed.

Lemma Under_perform q :
  (forall url t, P (Urlopen ByStoreSearch url t)) ->
  Under I (grows P) (fun s => (Val tt, perform q s)).
Proof.
  intros Hst s Hs. cbn [snd]. destruct q; cbn [perform].
  - apply Under_get_cover; auto.
  - apply Under__make_request; auto.
  - apply Under_get_grids_by_steam_id; auto.
  - apply Under_sgdb_search_game; auto.
  - apply Under_get_grids_by_game_id; auto.
  - apply Under_rawg_search_game; auto.
Qed.

End MethodFootprints.

(** ** What is remembered *)

Section Remembered.
Import Trace.
Context `{R : Runtime} `{W : World}.

Lemma inert_no_dispatch who e : inert e = true -> dispatch_time who e = None.
Proof. destruct e; try discriminate; reflexivity. Qed.

(** A search that goes out leaves its answer in the cache. *)
Lemma search_remembers name s :
  (PyStr.len (IconExtractor._clean_name name) <? 2) = false ->
  exists r s1, IconExtractor._search_steam_id_by_name name s = (Val r, s1)
               /\ _search_cache s1 !! IconExtractor._clean_name name = Some r.
Proof.
  intros Hlen. unfold IconExtractor._search_steam_id_by_name. rewrite Hlen.
  unfold bind at 1. cbn [get_state].
  destruct (_search_cache s !! IconExtractor._clean_name name) as [v|] eqn:Hk.
  - exists v, s. split; [reflexivity|exact Hk].
  - unfold bind at 1. cbn [print emit]. unfold bind at 1. cbn [http].
    destruct (IconExtractor.store_reply_appid _) as [appid|].
    + eexists (Some appid), _. split; [reflexivity|]. cbn. apply lookup_insert_eq.
    + eexists None, _. split; [reflexivity|]. cbn. apply lookup_insert_eq.
Qed.

(** A search whose answer is in the cache returns it and does nothing. *)
Lemma search_recalls name s r :
  (PyStr.len (IconExtractor._clean_name name) <? 2) = false ->
  _search_cache s !! IconExtractor._clean_name name = Some r ->
  IconExtractor._search_steam_id_by_name name s = (Val r, s).
Proof.
  intros Hlen Hk. unfold IconExtractor._search_steam_id_by_name. rewrite Hlen.
  unfold bind at 1. cbn [get_state]. rewrite Hk. reflexivity.
Qed.

Lemma search_too_short name s :
  (PyStr.len (IconExtractor._clean_name name) <? 2) = true ->
  IconExtractor._search_steam_id_by_name name s = (Val None, s).
Proof.
  intros Hlen. unfold IconExtractor._search_steam_id_by_name. rewrite Hlen. reflexivity.
Qed.

(** Whatever is asked of the manager, no entry of the search cache is
    lost or changed. *)
Lemma perform_all_keeps_cache qs s k v :
  _search_cache s !! k = Some v -> _search_cache (perform_all qs s) !! k = Some v.
Proof.
  intros Hk.
  assert (H : grows (fun _ => True) s (perform_all qs s)).
  { apply (grows_perform_all (fun _ => True) _ stable_True); [|exact Logic.I].
    intros q. apply Under_perform; auto using stable_True. }
  destruct H as (_ & Hsub & _). eapply lookup_weaken; eassumption.
Qed.

Lemma get_cover_no_store_search game_title app_id exe_path s :
  (PyStr.len (IconExtractor._clean_name game_title) <? 2) = true
  \/ is_Some (_search_cache s !! IconExtractor._clean_name game_title) ->
  dispatch_times ByStoreSearch
    (trace (snd (CoverAPIManager.get_cover game_title app_id exe_path s)))
  = dispatch_times ByStoreSearch (trace s).
Proof.
  intros H. apply dispatch_times_grows.
  assert (Hfree : forall who, who <> ByStoreSearch ->
            forall url t, dispatch_time ByStoreSearch (Urlopen who url t) = None).
  { intros who Hw url t. destruct who; try reflexivity. contradiction. }
  destruct H as [Hlen|[v Hv]].
  - apply (Under_get_cover (fun _ => True) _ stable_True); try exact Logic.I;
      try (intros; reflexivity); try (intros; apply Hfree; discriminate);
      auto using inert_no_dispatch.
  - apply (Under_get_cover
             (fun s => _search_cache s !! IconExtractor._clean_name game_title = Some v) _
             (stable_cached _ v));
      try exact Hv;
      try (intros; reflexivity); try (intros; apply Hfree; discriminate);
      auto using inert_no_dispatch.
Qed.

Lemma sgdb_off_never_contacted qs s :
  sgdb_off s ->
  dispatch_times BySteamGridDB (trace (perform_all qs s))
  = dispatch_times BySteamGridDB (trace s).
Proof.
  intros Hoff. apply dispatch_times_grows.
  apply (grows_perform_all sgdb_off _ stable_sgdb_off); [|assumption].
  intros q. apply Under_perform; auto using stable_sgdb_off, inert_no_dispatch;
    intros; reflexivity.
Qed.

End Remembered.

(** X3.  The store search is memoised for the life of the manager, also
    when it failed.  Once [_search_steam_id_by_name] has run for a title,
    then after any further requests to the manager and its clients a
    search for a title with the same normalised name returns the same
    answer and leaves the state untouched, and a [get_cover] for such a
    title sends no request to the store search. *)
Theorem store_search_memoised `{R : Runtime} `{W : World} (title title' : string)
  (app_id exe_path : option string) (qs : list request) (s : state) :
  IconExtractor._clean_name title' = IconExtractor._clean_name title ->
  let s1 := snd (IconExtractor._search_steam_id_by_name title s) in
  let s2 := perform_all qs s1 in
  IconExtractor._search_steam_id_by_name title' s2
  = (fst (IconExtractor._search_steam_id_by_name title s), s2)
  /\ Trace.dispatch_times ByStoreSearch
       (trace (snd (CoverAPIManager.get_cover title' app_id exe_path s2)))
     = Trace.dispatch_times ByStoreSearch (trace s2).
Proof.
  intros Hc s1 s2.
  destruct (PyStr.len (IconExtractor._clean_name title) <? 2) eqn:Hlen.
  - split.
    + rewrite (search_too_short title s Hlen). apply search_too_short. congruence.
    + apply get_cover_no_store_search. left. congruence.
  - destruct (search_remembers title s Hlen) as (r & s1' & Hr & Hk).
    subst s2 s1. rewrite Hr. cbn [fst snd].
    apply (perform_all_keeps_cache qs) in Hk.
    rewrite <- Hc in Hk, Hlen. split.
    + apply search_recalls; assumption.
    + apply get_cover_no_store_search. right. eauto.
Qed.


Module MemoExamples.
Import Sample.
#[local] Existing Instance Sample.runtime.

Lemma store_search_memoised_witness :
  let s1 := snd (IconExtractor._search_steam_id_by_name (W := offline) "Doom [CODEX]" no_keys) in
  let s2 := perform_all (W := offline) [GetCover "Quake" None None] s1 in
  IconExtractor._search_steam_id_by_name (W := offline) "Doom" s2
  = (fst (IconExtractor._search_steam_id_by_name (W := offline) "Doom [CODEX]" no_keys), s2)
  /\ Trace.dispatch_times ByStoreSearch
       (trace (snd (CoverAPIManager.get_cover (W := offline) "Doom" None None s2)))
     = Trace.dispatch_times ByStoreSearch (trace s2).
Proof.
  apply (store_search_memoised (W := offline) "Doom [CODEX]" "Doom" None None
           [GetCover "Quake" None None] no_keys).
  vm_compute. reflexivity.
Defined.


End MemoExamples.

(** ** Files written *)

Section WriteFacts.
Import CoverAPIManager.
Context `{R : Runtime} `{W : World}.

Lemma file_writes_app e2 e1 : file_writes (e2 ++ e1) = file_writes e2 ++ file_writes e1.
Proof. apply omap_app. Qed.

Lemma opened_app e2 e1 : opened (e2 ++ e1) = opened e1 ++ opened e2.
Proof. unfold opened. rewrite rev_app_distr. apply omap_app. Qed.

Lemma Run_bind {A B} (m : M A) (f : A -> M B) Q1 Q2 (Q : result B -> list event -> Prop) :
  Run m Q1 -> (forall a, Run (f a) (Q2 a)) ->
  (forall a e1 r e2, Q1 (Val a) e1 -> Q2 a r e2 -> Q r (e2 ++ e1)) ->
  (forall e e1, Q1 (Exc e) e1 -> Q (Exc e) e1) ->
  Run (bind m f) Q.
Proof.
  intros Hm Hf Hv He s. unfold bind. destruct (Hm s) as (e1 & T1 & H1).
  destruct (m s) as [[a|e] s1]; simpl in *.
  - destruct (Hf a s1) as (e2 & T2 & H2). exists (e2 ++ e1).
    rewrite T2, T1, app_assoc. split; [reflexivity|]. eapply Hv; eassumption.
  - exists e1. split; [assumption|]. apply He; assumption.
Qed.

Lemma Run_weaken {A} (m : M A) (Q Q' : result A -> list event -> Prop) :
  Run m Q -> (forall r evs, Q r evs -> Q' r evs) -> Run m Q'.
Proof. intros Hm HQ s. destruct (Hm s) as (evs & T & H). exists evs. auto. Qed.

Lemma Writes_bind {A B} (m : M A) (f : A -> M B) Q1 Q2
  (Q : result B -> list (string * Z) -> Prop) :
  Writes m Q1 -> (forall a, Writes (f a) (Q2 a)) ->
  (forall a w1 r w2, Q1 (Val a) w1 -> Q2 a r w2 -> Q r (w2 ++ w1)) ->
  (forall e w1, Q1 (Exc e) w1 -> Q (Exc e) w1) ->
  Writes (bind m f) Q.
Proof.
  intros Hm Hf Hv He. unfold Writes in *.
  apply (Run_bind m f (fun r evs => Q1 r (file_writes evs))
           (fun a r evs => Q2 a r (file_writes evs))); [exact Hm|exact Hf| |].
  - intros a e1 r e2 H1 H2. rewrite file_writes_app. eapply Hv; eassumption.
  - intros e e1 H1. apply He. exact H1.
Qed.

Lemma Writes_ret {A} (a : A) (Q : result A -> list (string * Z) -> Prop) :
  Q (Val a) [] -> Writes (ret a) Q.
Proof. intros H s. exists []. split; [reflexivity|exact H]. Qed.

Lemma Writes_weaken {A} (m : M A) (Q Q' : result A -> list (string * Z) -> Prop) :
  Writes m Q -> (forall r w, Q r w -> Q' r w) -> Writes m Q'.
Proof. intros Hm HQ. eapply Run_weaken; [exact Hm|]. intros r evs. apply HQ. Qed.

Lemma Silent_of_Under {A} (m : M A) :
  Under (fun _ => True) (grows (fun e => file_write e = None)) m -> Silent m.
Proof.
  intros Hm s. destruct (Hm s Logic.I) as ((evs & T & H) & _).
  exists evs. split; [assumption|apply file_writes_none; assumption].
Qed.

(** After a stretch that writes nothing, that cannot [return] and whose
    exceptions the outcome allows. *)
Lemma Writes_after {A B} (m : M A) (f : A -> M B) (Q : result B -> list (string * Z) -> Prop) :
  Silent m -> (forall a, Writes (f a) Q) -> (forall e, Q (Exc e) []) -> Writes (bind m f) Q.
Proof.
  intros Hm Hf He.
  apply (Writes_bind m f (fun _ w => w = []) (fun _ => Q)); [exact Hm|exact Hf| |].
  - intros a w1 r w2 -> H2. rewrite app_nil_r. exact H2.
  - intros e w1 ->. apply He.
Qed.

(** The same when the stretch cannot raise. *)
Lemma Writes_then {A B} (m : M A) (f : A -> M B) (Q : result B -> list (string * Z) -> Prop) :
  (forall s, exists a, fst (m s) = Val a) -> Silent m -> (forall a, Writes (f a) Q) ->
  Writes (bind m f) Q.
Proof.
  intros Ht Hm Hf s. unfold bind. destruct (Hm s) as (e1 & T1 & H1). destruct (Ht s) as [a Ha].
  destruct (m s) as [[a'|e] s1]; simpl in *; [|discriminate].
  destruct (Hf a' s1) as (e2 & T2 & H2). exists (e2 ++ e1).
  rewrite T2, T1, app_assoc. split; [reflexivity|].
  rewrite file_writes_app, H1, app_nil_r. exact H2.
Qed.

Lemma inert_no_write e : inert e = true -> file_write e = None.
Proof. destruct e; try discriminate; reflexivity. Qed.

Lemma Silent_log lv msg : Silent (log lv msg).
Proof. apply Silent_of_Under, Under_log. apply inert_no_write. Qed.

Lemma Silent_print msg : Silent (print msg).
Proof. apply Silent_of_Under, Under_print. apply inert_no_write. Qed.

Lemma Silent_time_sleep d : Silent (time_sleep d).
Proof. apply Silent_of_Under, Under_time_sleep. apply inert_no_write. Qed.

Lemma Silent_random_uniform : Silent random_uniform.
Proof. apply Silent_of_Under, Under_random_uniform. apply inert_no_write. Qed.

Lemma Silent_ddgs query : Silent (IconExtractor.ddgs query).
Proof. apply Silent_of_Under, Under_ddgs. reflexivity. Qed.

Lemma Silent_icoextract exe : Silent (IconExtractor.icoextract exe).
Proof. apply Silent_of_Under, Under_icoextract. reflexivity. Qed.

Lemma Silent_get_state : Silent get_state.
Proof. apply Silent_of_Under, Under_get_state. Qed.

(** The clients and the store search write no file. *)
Lemma Silent__search_steam_id_by_name name :
  Silent (IconExtractor._search_steam_id_by_name name).
Proof.
  apply Silent_of_Under, Under__search_steam_id_by_name; [apply inert_no_write|].
  right. right. reflexivity.
Qed.

Lemma Silent_get_grids_by_steam_id id : Silent (SteamGridDBClient.get_grids_by_steam_id id).
Proof.
  apply Silent_of_Under, Under_get_grids_by_steam_id;
    [apply stable_True|apply inert_no_write|right; reflexivity].
Qed.

Lemma Silent_get_grids_by_game_id id : Silent (SteamGridDBClient.get_grids_by_game_id id).
Proof.
  apply Silent_of_Under, Under_get_grids_by_game_id;
    [apply stable_True|apply inert_no_write|right; reflexivity].
Qed.

Lemma Silent_sgdb_search_game name : Silent (SteamGridDBClient.search_game name).
Proof.
  apply Silent_of_Under, Under_sgdb_search_game;
    [apply stable_True|apply inert_no_write|right; reflexivity].
Qed.

Lemma Silent_rawg_search_game name : Silent (RAWGClient.search_game name).
Proof.
  apply Silent_of_Under, Under_rawg_search_game;
    [apply stable_True|apply inert_no_write|reflexivity].
Qed.

(** *** The two downloaders *)

Lemma Run__download_file u path :
  Run (IconExtractor._download_file (Py.Str u) path) (fetched u path).
Proof.
  intros s. unfold IconExtractor._download_file, bind. cbn [http].
  destruct (urlopen (trace s) u) as [status [data|]| |]; cbn;
    try (eexists [_]; split; [reflexivity|]; eexists; reflexivity).
  destruct (Z.eqb_spec status 200); cbn;
    [|eexists [_]; split; [reflexivity|]; eexists; reflexivity].
  destruct (Z.ltb_spec 2048 (nbytes data)); cbn;
    [|eexists [_]; split; [reflexivity|]; eexists; reflexivity].
  unfold write_file. cbn. destruct (open_wb _ path); cbn.
  - eexists [_; _]. split; [reflexivity|]. eexists _, _. split; [eassumption|reflexivity].
  - eexists [_]. split; [reflexivity|]. eexists. reflexivity.
Qed.

Lemma fetched_wrote u path r evs : fetched u path r evs -> wrote true path r (file_writes evs).
Proof.
  destruct r as [[|]|e]; simpl; [| |auto].
  - intros (n & t & Hn & ->). exists n. auto.
  - intros (t & ->). reflexivity.
Qed.

Lemma Writes__download_file url path :
  Writes (IconExtractor._download_file url path) (wrote true path).
Proof.
  destruct url; try (apply Writes_ret; reflexivity).
  eapply Run_weaken; [apply Run__download_file|]. apply fetched_wrote.
Qed.

Lemma Silent_http who url : Silent (http who url).
Proof. apply Silent_of_Under, Under_http. reflexivity. Qed.

Lemma Writes_write_file path n :
  Writes (write_file path n)
    (fun r w => match r with
                | Val true => w = [(path, n)]
                | Val false => w = []
                | Exc _ => False
                end).
Proof.
  intros s. unfold write_file. destruct (open_wb (trace s) path); cbn.
  - eexists [_]. split; reflexivity.
  - exists []. split; reflexivity.
Qed.

Lemma Writes__download_image url path :
  Writes (CoverAPIManager._download_image url path) (wrote true path).
Proof.
  assert (Hfail : Writes (log DEBUG ("Download failed from " ++ py_str url)%string ;; ret false)
                    (wrote true path)).
  { apply Writes_then; [intros s; eexists; reflexivity|apply Silent_log|].
    intros _. apply Writes_ret. reflexivity. }
  unfold CoverAPIManager._download_image. cbv zeta.
  destruct url; try exact Hfail.
  apply Writes_then; [intros s0; eexists; reflexivity|apply Silent_http|].
  intros [status [data|]| |]; try exact Hfail.
  - destruct (status =? 200); [|apply Writes_ret; reflexivity].
    destruct (Z.ltb_spec 2048 (nbytes data)); [|apply Writes_ret; reflexivity].
    eapply (Writes_bind _ _
              (fun r w => match r with
                          | Val true => w = [(path, nbytes data)]
                          | Val false => w = []
                          | Exc _ => False
                          end)
              (fun ok r w => if ok then r = Val true /\ w = [] else wrote true path r w));
      [apply Writes_write_file| | |].
    + intros [|]; [apply Writes_ret; auto|exact Hfail].
    + intros [|] w1 r w2 H1 H2; simpl in H1; subst w1.
      * destruct H2 as [-> ->]. exists (nbytes data). auto.
      * rewrite app_nil_r. exact H2.
    + intros e w1 [].
  - destruct (status =? 200); [exact Hfail|apply Writes_ret; reflexivity].
Qed.

(** *** The methods that download *)

Lemma Writes_try_urls urls path :
  Writes (IconExtractor.try_urls urls path) (wrote true path).
Proof.
  induction urls as [|u urls IH]; cbn [IconExtractor.try_urls];
    [apply Writes_ret; reflexivity|].
  eapply (Writes_bind _ _ (wrote true path)
            (fun ok r w => if ok then r = Val true /\ w = [] else wrote true path r w));
    [apply Writes__download_file| | |].
  - intros [|]; [apply Writes_ret; auto|exact IH].
  - intros [|] w1 r w2 H1 H2; simpl in H1.
    + destruct H2 as [-> ->]. exact H1.
    + subst w1. rewrite app_nil_r. exact H2.
  - intros e w1 [].
Qed.

Lemma Writes__download_steam_cover app_id path :
  Writes (IconExtractor._download_steam_cover app_id path) (wrote true path).
Proof. apply Writes_try_urls. Qed.

Lemma Writes_ddg_results results path :
  Writes (IconExtractor.ddg_results results path)
    (fun r w => match r with
                | Val (raised, ok) => wrote true path (Val ok) w /\ (raised = true -> ok = false)
                | Exc _ => False
                end).
Proof.
  induction results as [|res results IH]; cbn [IconExtractor.ddg_results];
    [apply Writes_ret; split; [reflexivity|auto]|].
  destruct (Py.item res "image") as [image|]; [|apply Writes_ret; split; [reflexivity|auto]].
  eapply (Writes_bind _ _ (wrote true path)
            (fun (ok : bool) (r : result (bool * bool)) (w : list (string * Z)) =>
               if ok then r = Val (false, true) /\ w = []
               else match r with
                    | Val (raised, ok) =>
                        wrote true path (Val ok) w /\ (raised = true -> ok = false)
                    | Exc _ => False
                    end));
    [apply Writes__download_file| | |].
  - intros [|]; [|exact IH].
    apply Writes_then; [intros s; eexists; reflexivity|apply Silent_print|].
    intros _. apply Writes_ret. auto.
  - intros [|] w1 r w2 H1 H2; simpl in H1.
    + destruct H2 as [-> ->]. split; [exact H1|discriminate].
    + subst w1. rewrite app_nil_r. exact H2.
  - intros e w1 [].
Qed.

Lemma Writes__search_duckduckgo name path :
  Writes (IconExtractor._search_duckduckgo name path) (wrote true path).
Proof.
  unfold IconExtractor._search_duckduckgo.
  destruct (negb HAS_DDG); [apply Writes_ret; reflexivity|]. cbv zeta.
  apply Writes_then; [intros s; eexists; reflexivity|apply Silent_random_uniform|]. intros delay.
  apply Writes_then; [intros s; eexists; reflexivity|apply Silent_print|]. intros _.
  apply Writes_then; [intros s; eexists; reflexivity|apply Silent_time_sleep|]. intros _.
  apply Writes_then; [intros s; eexists; reflexivity|apply Silent_ddgs|]. intros [results|].
  - eapply (Writes_bind _ _
              (fun r w => match r with
                          | Val (raised, ok) =>
                              wrote true path (Val ok) w /\ (raised = true -> ok = false)
                          | Exc _ => False
                          end)
              (fun (a : bool * bool) (r : result bool) (w : list (string * Z)) =>
                 r = Val (if fst a then false else snd a) /\ w = []));
      [apply Writes_ddg_results| | |].
    + intros [[|] ok].
      * apply Writes_then; [intros s; eexists; reflexivity|apply Silent_print|].
        intros _. apply Writes_ret. auto.
      * apply Writes_ret. auto.
    + intros [raised ok] w1 r w2 [H1 Hr] H2. cbn beta in H2. destruct H2 as [-> ->].
      cbn [fst snd app]. destruct raised; [|exact H1].
      rewrite Hr in H1 by reflexivity. exact H1.
    + intros e w1 [].
  - apply Writes_then; [intros s; eexists; reflexivity|apply Silent_print|].
    intros _. apply Writes_ret. reflexivity.
Qed.

Lemma Writes__extract_exe_icon exe path :
  Writes (IconExtractor._extract_exe_icon exe path) (wrote false path).
Proof.
  unfold IconExtractor._extract_exe_icon.
  destruct (_ || _); [apply Writes_ret; reflexivity|].
  apply Writes_then; [intros s; eexists; reflexivity|apply Silent_icoextract|].
  intros [[count [n|]]|]; try (apply Writes_ret; reflexivity).
  destruct (0 <? count); [|apply Writes_ret; reflexivity].
  eapply Writes_weaken; [apply Writes_write_file|].
  intros [[|]|e] w; simpl; auto. intros ->. exists n. split; [reflexivity|discriminate].
Qed.

(** *** The tiers *)

(** [ok <- dl ;; if ok then ... return (path, src) else fall through] *)
Lemma Writes_attempt (dl : M bool) big path msg src :
  Writes dl (wrote big path) -> big = true \/ src = "EXE Icon" ->
  Writes (ok <- dl ;;
          if ok then log INFO msg ;; ret (Some (Some path, src)) else CoverAPIManager.pass)
    (block_wrote path).
Proof.
  intros Hdl Hbig.
  eapply (Writes_bind _ _ (wrote big path)
            (fun (ok : bool) (r : result (option CoverAPIManager.cover))
                 (w : list (string * Z)) =>
               r = Val (if ok then Some (Some path, src) else None) /\ w = []));
    [exact Hdl| | |].
  - intros [|].
    + apply Writes_then; [intros s; eexists; reflexivity|apply Silent_log|].
      intros _. apply Writes_ret. auto.
    + apply Writes_ret. auto.
  - intros [|] w1 r w2 H1 H2; simpl in H1; destruct H2 as [-> ->]; cbn [app block_wrote].
    + destruct H1 as (n & -> & Hn). split; [reflexivity|]. exists n. split; [reflexivity|].
      intros Hsrc. apply Hn. destruct Hbig; [assumption|contradiction].
    + exact H1.
  - intros e w1 [].
Qed.

Lemma Writes_download_first urls path msg src :
  src <> "EXE Icon" ->
  Writes (CoverAPIManager.download_first urls path msg src) (block_wrote path).
Proof.
  intros Hsrc. unfold CoverAPIManager.download_first.
  induction urls as [|url urls IH]; cbn [for_return]; [apply Writes_ret; reflexivity|].
  eapply (Writes_bind _ _ (block_wrote path)
            (fun (a : option CoverAPIManager.cover) (r : result (option CoverAPIManager.cover))
                 (w : list (string * Z)) =>
               match a with
               | Some c => r = Val (Some c) /\ w = []
               | None => block_wrote path r w
               end)).
  - apply (Writes_attempt _ true); [apply Writes__download_image|auto].
  - intros [c|]; [apply Writes_ret; auto|exact IH].
  - intros [c|] w1 r w2 H1 H2.
    + destruct H2 as [-> ->]. exact H1.
    + simpl in H1. subst w1. rewrite app_nil_r. exact H2.
  - intros e w1 H1. exact H1.
Qed.

Lemma Writes_then_ (b1 b2 : CoverAPIManager.block) path :
  Writes b1 (block_wrote path) -> Writes b2 (block_wrote path) ->
  Writes (CoverAPIManager.then_ b1 b2) (block_wrote path).
Proof.
  intros H1 H2. unfold CoverAPIManager.then_.
  eapply (Writes_bind _ _ (block_wrote path)
            (fun (a : option CoverAPIManager.cover) (r : result (option CoverAPIManager.cover))
                 (w : list (string * Z)) =>
               match a with
               | Some c => r = Val (Some c) /\ w = []
               | None => block_wrote path r w
               end)); [exact H1| | |].
  - intros [c|]; [apply Writes_ret; auto|exact H2].
  - intros [c|] w1 r w2 Hw1 Hw2.
    + destruct Hw2 as [-> ->]. exact Hw1.
    + simpl in Hw1. subst w1. rewrite app_nil_r. exact Hw2.
  - intros e w1 Hw1. exact Hw1.
Qed.

Lemma Writes_if_ cond (body : CoverAPIManager.block) path :
  Writes body (block_wrote path) -> Writes (CoverAPIManager.if_ cond body) (block_wrote path).
Proof.
  intros Hb. unfold CoverAPIManager.if_.
  apply Writes_then; [intros s; eexists; reflexivity|apply Silent_get_state|].
  intros s. destruct (cond s); [exact Hb|apply Writes_ret; reflexivity].
Qed.

(** A tier: its marker, a look-up that writes nothing, then the rest. *)
Lemma Writes_tier {A} msg (lookup : M A) (rest : A -> CoverAPIManager.block) path :
  Silent lookup -> (forall a, Writes (rest a) (block_wrote path)) ->
  Writes (log INFO msg ;; a <- lookup ;; rest a) (block_wrote path).
Proof.
  intros Hl Hr.
  apply Writes_then; [intros s; eexists; reflexivity|apply Silent_log|]. intros _.
  apply Writes_after; [exact Hl|exact Hr|reflexivity].
Qed.

Lemma Writes_get_cover_tiers game_title app_id exe_path path :
  let clean_name := IconExtractor._clean_name game_title in
  Writes (CoverAPIManager.if_ (fun s => Py.truthy_opt app_id && CoverAPIManager.is_set (sgdb s))
            (CoverAPIManager.tier2 path (default EmptyString app_id)) ;;;
          CoverAPIManager.if_ (fun _ => Py.truthy_opt app_id)
            (CoverAPIManager.tier3 path (default EmptyString app_id)) ;;;
          CoverAPIManager.if_ (fun s => CoverAPIManager.is_set (rawg s))
            (CoverAPIManager.tier4 clean_name path) ;;;
          CoverAPIManager.tier5 game_title clean_name path ;;;
          CoverAPIManager.if_ (fun s => CoverAPIManager.is_set (sgdb s))
            (CoverAPIManager.tier6 clean_name path) ;;;
          CoverAPIManager.tier7 game_title clean_name path ;;;
          CoverAPIManager.if_ (fun _ => Py.truthy_opt exe_path)
            (CoverAPIManager.tier8 path (default EmptyString exe_path)))
    (block_wrote path).
Proof.
  intros clean_name.
  repeat apply Writes_then_; try apply Writes_if_.
  - apply Writes_tier; [apply Silent_get_grids_by_steam_id|].
    intros urls. apply Writes_download_first. discriminate.
  - unfold CoverAPIManager.tier3.
    apply Writes_then; [intros s; eexists; reflexivity|apply Silent_log|]. intros _.
    apply (Writes_attempt _ true); [apply Writes__download_steam_cover|auto].
  - apply Writes_tier; [apply Silent_rawg_search_game|].
    intros image_url. destruct (Py.truthy image_url); [|apply Writes_ret; reflexivity].
    apply (Writes_attempt _ true); [apply Writes__download_image|auto].
  - apply Writes_tier; [apply Silent__search_steam_id_by_name|].
    intros found_id. destruct (Py.truthy_opt found_id); [|apply Writes_ret; reflexivity].
    apply (Writes_attempt _ true); [apply Writes__download_steam_cover|auto].
  - apply Writes_tier; [apply Silent_sgdb_search_game|].
    intros game_id. destruct (Py.truthy_opt game_id); [|apply Writes_ret; reflexivity].
    apply Writes_after; [apply Silent_get_grids_by_game_id| |reflexivity].
    intros urls. apply Writes_download_first. discriminate.
  - unfold CoverAPIManager.tier7.
    apply Writes_then; [intros s; eexists; reflexivity|apply Silent_log|]. intros _.
    apply (Writes_attempt _ true); [apply Writes__search_duckduckgo|auto].
  - unfold CoverAPIManager.tier8.
    apply Writes_then; [intros s; eexists; reflexivity|apply Silent_log|]. intros _.
    apply (Writes_attempt _ false); [apply Writes__extract_exe_icon|auto].
Qed.

Lemma Run_try_urls urls path :
  Run (IconExtractor.try_urls urls path)
    (fun r evs => exists k,
       opened evs = map (pair ByDownload) (firstn k urls)
       /\ (r = Val true /\ (1 <= k <= length urls)%nat
           \/ r = Val false /\ k = length urls)).
Proof.
  induction urls as [|u urls IH]; cbn [IconExtractor.try_urls].
  - intros s. exists []. split; [reflexivity|]. exists 0%nat. split; [reflexivity|]. auto.
  - eapply (Run_bind _ _ (fetched u path)
              (fun (ok : bool) (r : result bool) (evs : list event) =>
                 if ok then r = Val true /\ evs = []
                 else exists k,
                     opened evs = map (pair ByDownload) (firstn k urls)
                     /\ (r = Val true /\ (1 <= k <= length urls)%nat
                         \/ r = Val false /\ k = length urls)));
      [apply Run__download_file| | |].
    + intros [|]; [|exact IH]. intros s. exists []. split; [reflexivity|]. auto.
    + intros [|] e1 r e2 H1 H2; simpl in H1.
      * destruct H2 as [-> ->]. destruct H1 as (n & t & _ & ->).
        exists 1%nat. split; [reflexivity|]. left. split; [reflexivity|]. simpl. lia.
      * destruct H1 as (t & ->). destruct H2 as (k & Ho & Hk).
        exists (S k). rewrite opened_app, Ho. split; [reflexivity|].
        simpl. destruct Hk as [[-> Hk]|[-> ->]]; [left|right]; split; auto; lia.
    + intros e e1 [].
Qed.

End WriteFacts.



(** X7.  [_download_steam_cover] asks for the four addresses of the
    cover in the order of the list and stops at the first that it could
    save: the requests it sends are the first k addresses, with k = 4
    when it returns False. *)
Theorem steam_cover_urls_in_order `{R : Runtime} `{W : World} (app_id save_path : string) :
  Run (IconExtractor._download_steam_cover app_id save_path)
    (fun r evs => exists k,
       opened evs = map (pair ByDownload) (firstn k (IconExtractor.steam_cover_urls app_id))
       /\ (r = Val true /\ (1 <= k <= 4)%nat \/ r = Val false /\ k = 4%nat)).
Proof. apply (Run_try_urls (IconExtractor.steam_cover_urls app_id)). Qed.

(** ** Services without a key *)


(** ** Where exceptions can come from *)

Section SafeFacts.
Import CoverAPIManager.
Context `{R : Runtime} `{W : World}.

Lemma Safe_ret {A} pre (a : A) (post : A -> state -> Prop) :
  (forall s, pre s -> post a s) -> Safe pre (ret a) post.
Proof. intros H s Hs. exists a. split; [reflexivity|apply H, Hs]. Qed.

Lemma Safe_bind {A B} pre (m : M A) (f : A -> M B) mid (post : B -> state -> Prop) :
  Safe pre m mid -> (forall a, Safe (mid a) (f a) post) -> Safe pre (bind m f) post.
Proof.
  intros Hm Hf s Hs. unfold bind. destruct (Hm s Hs) as (a & Ha & Hmid).
  destruct (m s) as [[a'|e] s1]; simpl in *; [|discriminate].
  injection Ha as ->. apply Hf, Hmid.
Qed.

Variables g r : bool.

(** An invariant: nothing below gives a client to the manager, takes one
    away or gives the SteamGridDB client a key. *)
#[local] Abbreviation I := (keyless g r).

Lemma Safe_assume {A} (H : Prop) pre (m : M A) (post : A -> state -> Prop) :
  (H -> Safe pre m post) -> Safe (fun s => H /\ pre s) m post.
Proof. intros Hm s [HH Hs]. apply Hm; assumption. Qed.

Lemma Safe_bindI {A B} (m : M A) (f : A -> M B) (post : B -> state -> Prop) :
  Safe I m (fun _ s => I s) -> (forall a, Safe I (f a) post) -> Safe I (bind m f) post.
Proof. intros Hm Hf. eapply Safe_bind; [exact Hm|exact Hf]. Qed.

Lemma Safe_retI {A} (a : A) : Safe I (ret a) (fun _ s => I s).
Proof. apply Safe_ret. auto. Qed.

Lemma Safe_get_state : Safe I get_state (fun _ s => I s).
Proof. intros s Hs. exists s. auto. Qed.

Lemma Safe_log lv msg : Safe I (log lv msg) (fun _ s => I s).
Proof. intros s Hs. exists tt. auto. Qed.

Lemma Safe_print msg : Safe I (print msg) (fun _ s => I s).
Proof. intros s Hs. exists tt. auto. Qed.

Lemma Safe_time_time : Safe I time_time (fun _ s => I s).
Proof. intros s Hs. eexists. split; [reflexivity|exact Hs]. Qed.

Lemma Safe_time_sleep d : Safe I (time_sleep d) (fun _ s => I s).
Proof. intros s Hs. exists tt. auto. Qed.

Lemma Safe_random_uniform : Safe I random_uniform (fun _ s => I s).
Proof. intros s Hs. eexists. split; [reflexivity|exact Hs]. Qed.

Lemma Safe_http who url : Safe I (http who url) (fun _ s => I s).
Proof. intros s Hs. eexists. split; [reflexivity|exact Hs]. Qed.

Lemma Safe_write_file path n : Safe I (write_file path n) (fun _ s => I s).
Proof.
  intros s Hs. unfold write_file. destruct (open_wb (trace s) path);
    eexists; (split; [reflexivity|exact Hs]).
Qed.

Lemma Safe_ddgs query : Safe I (IconExtractor.ddgs query) (fun _ s => I s).
Proof. intros s Hs. eexists. split; [reflexivity|exact Hs]. Qed.

Lemma Safe_icoextract exe : Safe I (IconExtractor.icoextract exe) (fun _ s => I s).
Proof. intros s Hs. eexists. split; [reflexivity|exact Hs]. Qed.

Lemma Safe_remember key found : Safe I (IconExtractor.remember key found) (fun _ s => I s).
Proof. intros s Hs. exists tt. split; [reflexivity|exact Hs]. Qed.

Lemma Safe_when b (m : M unit) :
  Safe I m (fun _ s => I s) -> Safe I (when_ b m) (fun _ s => I s).
Proof. intros Hm. destruct b; [exact Hm|apply Safe_retI]. Qed.

End SafeFacts.

Create HintDb safe.
#[export] Hint Resolve Safe_retI Safe_get_state Safe_log Safe_print Safe_time_time
  Safe_time_sleep Safe_random_uniform Safe_http Safe_write_file Safe_ddgs Safe_icoextract
  Safe_remember : safe.

(** Walk through a computation that keeps the invariant at every step. *)
Ltac safe :=
  cbv zeta;
  repeat first
    [ solve [auto with safe]
    | apply Safe_when
    | apply Safe_bindI; [|intros ?]
    | match goal with
      | |- Safe _ (if ?b then _ else _) _ => destruct b
      | |- Safe _ (match ?x with _ => _ end) _ => destruct x
      end ].

Section SafeMethods.
Import CoverAPIManager.
Context `{R : Runtime} `{W : World}.
Variables g r : bool.
#[local] Abbreviation I := (keyless g r).

Lemma Safe__download_file url path :
  Safe I (IconExtractor._download_file url path) (fun _ s => I s).
Proof. unfold IconExtractor._download_file. safe. Qed.
#[local] Hint Resolve Safe__download_file : safe.

Lemma Safe__search_steam_id_by_name name :
  Safe I (IconExtractor._search_steam_id_by_name name) (fun _ s => I s).
Proof. unfold IconExtractor._search_steam_id_by_name. safe. Qed.

Lemma Safe_try_urls urls path : Safe I (IconExtractor.try_urls urls path) (fun _ s => I s).
Proof. induction urls as [|u urls IH]; cbn [IconExtractor.try_urls]; safe. Qed.

Lemma Safe__download_steam_cover app_id path :
  Safe I (IconExtractor._download_steam_cover app_id path) (fun _ s => I s).
Proof. apply Safe_try_urls. Qed.

Lemma Safe_ddg_results results path :
  Safe I (IconExtractor.ddg_results results path) (fun _ s => I s).
Proof. induction results as [|res results IH]; cbn [IconExtractor.ddg_results]; safe. Qed.
#[local] Hint Resolve Safe_ddg_results : safe.

Lemma Safe__search_duckduckgo name path :
  Safe I (IconExtractor._search_duckduckgo name path) (fun _ s => I s).
Proof. unfold IconExtractor._search_duckduckgo. safe. Qed.

Lemma Safe__extract_exe_icon exe path :
  Safe I (IconExtractor._extract_exe_icon exe path) (fun _ s => I s).
Proof. unfold IconExtractor._extract_exe_icon. safe. Qed.

Lemma Safe__download_image url path :
  Safe I (CoverAPIManager._download_image url path) (fun _ s => I s).
Proof. unfold CoverAPIManager._download_image. safe. Qed.
#[local] Hint Resolve Safe__download_image : safe.

Lemma Safe_download_first urls path msg src :
  Safe I (CoverAPIManager.download_first urls path msg src) (fun _ s => I s).
Proof.
  unfold CoverAPIManager.download_first.
  induction urls as [|url urls IH]; cbn [for_return]; safe.
Qed.

(** *** The RAWG client, when the manager has one *)

Lemma Safe_rawg_self : r = true -> Safe I RAWGClient.self (fun _ s => I s).
Proof.
  intros -> s Hs. unfold RAWGClient.self. pose proof Hs as (_ & Hr & _).
  destruct (rawg s) as [c|]; [|discriminate].
  exists c. split; [reflexivity|exact Hs].
Qed.

Lemma Safe_rawg_update f : r = true -> Safe I (RAWGClient.update f) (fun _ s => I s).
Proof.
  intros -> s Hs. unfold RAWGClient.update, RAWGClient.self, bind.
  destruct Hs as (Hg & Hr & Hk).
  destruct (rawg s) as [c|] eqn:Hc; [|discriminate].
  exists tt. split; [reflexivity|]. split; [exact Hg|]. split; [reflexivity|exact Hk].
Qed.

Lemma Safe_rawg_search_game name :
  r = true -> Safe I (RAWGClient.search_game name) (fun _ s => I s).
Proof.
  intros Hr. unfold RAWGClient.search_game, RAWGClient._wait_rate_limit.
  pose proof (Safe_rawg_self Hr). pose proof (fun f => Safe_rawg_update f Hr).
  safe.
Qed.

(** *** The SteamGridDB client, when the manager has one, without a key *)

Lemma Safe_sgdb_self : g = true -> Safe I SteamGridDBClient.self (fun _ s => I s).
Proof.
  intros -> s Hs. unfold SteamGridDBClient.self. pose proof Hs as (Hg & _ & _).
  destruct (sgdb s) as [c|]; [|discriminate].
  exists c. split; [reflexivity|exact Hs].
Qed.

Lemma Safe_sgdb_cache f :
  g = true ->
  Safe I (SteamGridDBClient.update
            (fun c => SteamGridDBClient.set_session_cache (f c) c)) (fun _ s => I s).
Proof.
  intros -> s Hs. unfold SteamGridDBClient.update, SteamGridDBClient.self, bind.
  destruct Hs as (Hg & Hr & Hk). unfold no_live_key in Hk.
  destruct (sgdb s) as [c|] eqn:Hc; [|discriminate].
  exists tt. split; [reflexivity|]. split; [reflexivity|]. split; [exact Hr|exact Hk].
Qed.

(** Without a key the client answers None at once. *)
Lemma Safe__make_request endpoint :
  g = true ->
  Safe I (SteamGridDBClient._make_request endpoint) (fun data s => data = Py.None_ /\ I s).
Proof.
  intros -> s Hs. pose proof Hs as (Hg & _ & Hk). unfold no_live_key in Hk.
  destruct (sgdb s) as [c|] eqn:Hc; [|discriminate].
  rewrite (sgdb_disabled_make_request s c endpoint Hc Hk).
  exists Py.None_. split; [reflexivity|]. split; [reflexivity|exact Hs].
Qed.

Lemma Safe_grids key endpoint :
  g = true -> Safe I (SteamGridDBClient.grids key endpoint) (fun _ s => I s).
Proof.
  intros Hg. unfold SteamGridDBClient.grids.
  apply Safe_bindI; [apply Safe_sgdb_self, Hg|]. intros c.
  destruct (sg_session_cache c !! key); [apply Safe_retI|].
  eapply Safe_bind; [apply Safe__make_request, Hg|]. intros data.
  apply Safe_assume. intros ->. change (lift (SteamGridDBClient.grid_urls Py.None_)) with
    (ret (A := list value) []).
  pose proof (fun f => Safe_sgdb_cache f Hg).
  safe.
Qed.

Lemma Safe_sgdb_search_game name :
  g = true -> Safe I (SteamGridDBClient.search_game name) (fun _ s => I s).
Proof.
  intros Hg. unfold SteamGridDBClient.search_game. cbv zeta.
  eapply Safe_bind; [apply Safe__make_request, Hg|]. intros data.
  apply Safe_assume. intros -> s Hs. exists None. split; [reflexivity|exact Hs].
Qed.

(** *** The tiers *)

Lemma Safe_if_ cond (body : block) :
  (forall s, I s -> cond s = true -> exists a, fst (body s) = Val a /\ I (snd (body s))) ->
  Safe I (if_ cond body) (fun _ s => I s).
Proof.
  intros Hb s Hs. unfold if_, bind. cbn [get_state]. destruct (cond s) eqn:Hc.
  - apply Hb; assumption.
  - exists None. split; [reflexivity|exact Hs].
Qed.

Lemma Safe_then_ (b1 b2 : block) :
  Safe I b1 (fun _ s => I s) -> Safe I b2 (fun _ s => I s) ->
  Safe I (then_ b1 b2) (fun _ s => I s).
Proof. intros H1 H2. unfold then_. safe. Qed.

#[local] Hint Resolve Safe__search_steam_id_by_name Safe__download_steam_cover
  Safe__search_duckduckgo Safe__extract_exe_icon Safe_download_first : safe.

Lemma Safe_tier2 path app_id : g = true -> Safe I (tier2 path app_id) (fun _ s => I s).
Proof.
  intros Hg. unfold tier2, SteamGridDBClient.get_grids_by_steam_id.
  pose proof (fun k e => Safe_grids k e Hg). safe.
Qed.

Lemma Safe_tier3 path app_id : Safe I (tier3 path app_id) (fun _ s => I s).
Proof. unfold tier3, pass. safe. Qed.

Lemma Safe_tier4 clean_name path : r = true -> Safe I (tier4 clean_name path) (fun _ s => I s).
Proof.
  intros Hr. unfold tier4, pass. pose proof (fun n => Safe_rawg_search_game n Hr). safe.
Qed.

Lemma Safe_tier5 game_title clean_name path :
  Safe I (tier5 game_title clean_name path) (fun _ s => I s).
Proof. unfold tier5, pass. safe. Qed.

Lemma Safe_tier6 clean_name path : g = true -> Safe I (tier6 clean_name path) (fun _ s => I s).
Proof.
  intros Hg. unfold tier6, pass, SteamGridDBClient.get_grids_by_game_id.
  pose proof (fun k e => Safe_grids k e Hg). pose proof (fun n => Safe_sgdb_search_game n Hg).
  safe.
Qed.

Lemma Safe_tier7 game_title clean_name path :
  Safe I (tier7 game_title clean_name path) (fun _ s => I s).
Proof. unfold tier7, pass. safe. Qed.

Lemma Safe_tier8 path exe_path : Safe I (tier8 path exe_path) (fun _ s => I s).
Proof. unfold tier8, pass. safe. Qed.

Lemma Safe_get_cover game_title app_id exe_path :
  Safe I (get_cover game_title app_id exe_path) (fun _ s => I s).
Proof.
  unfold get_cover.
  apply Safe_bindI; [apply Safe_get_state|]. intros s0. cbv zeta.
  apply Safe_bindI; [|intros [c|]; safe].
  repeat apply Safe_then_; try apply Safe_if_;
    try solve [apply Safe_tier3 | apply Safe_tier5 | apply Safe_tier7 | apply Safe_tier8].
  - intros s Hs Hc. apply andb_prop in Hc as [_ Hc]. apply Safe_tier2; [|exact Hs].
    destruct Hs as (<- & _). exact Hc.
  - intros s Hs _. apply Safe_tier3. exact Hs.
  - intros s Hs Hc. apply Safe_tier4; [|exact Hs]. destruct Hs as (_ & <- & _). exact Hc.
  - intros s Hs Hc. apply Safe_tier6; [|exact Hs]. destruct Hs as (<- & _). exact Hc.
  - intros s Hs _. apply Safe_tier8. exact Hs.
Qed.

End SafeMethods.


Module SafeExamples.
Import Sample.
#[local] Existing Instance Sample.runtime.



End SafeExamples.

(** ** Games and their dictionaries *)

Lemma from_dict_to_dict now g : GameModel.from_dict now (GameModel.to_dict g) = GameModel.Built g.
Proof. destruct g as [? ? ? [?|] ? ? [?|] [?|] [?|] ? ? ?]; reflexivity. Qed.

(** X10.  [to_dict] and [from_dict] are inverse on games: the dictionary
    of a game builds the same game again, whatever the time.  A
    dictionary with a key that is not a field, or without one of uid,
    title and exe_path, raises TypeError, and so does anything that is
    not a dictionary. *)
Theorem game_model_round_trip (now : string) :
  (forall g, GameModel.from_dict now (GameModel.to_dict g) = GameModel.Built g)
  /\ (forall items k v,
        In (k, v) items -> ~ In k GameModel.fields ->
        GameModel.from_dict now (Py.Dict items) = GameModel.Raised Py.TypeError)
  /\ (forall items k,
        In k GameModel.required -> Py.lookup k items = None ->
        GameModel.from_dict now (Py.Dict items) = GameModel.Raised Py.TypeError)
  /\ (forall data, (forall items, data <> Py.Dict items) ->
        GameModel.from_dict now data = GameModel.Raised Py.TypeError).
Proof.
  split; [intros g; apply from_dict_to_dict|]. split; [|split].
  - intros items k v Hin Hk. unfold GameModel.from_dict.
    replace (forallb _ items) with false; [reflexivity|].
    symmetry. apply not_true_is_false. intros Hall.
    rewrite forallb_forall in Hall. specialize (Hall _ Hin). cbn [fst] in Hall.
    apply existsb_exists in Hall as (f & Hf & He). apply String.eqb_eq in He. subst f.
    contradiction.
  - intros items k Hk Hnone. unfold GameModel.from_dict.
    destruct (forallb _ items); [|reflexivity]. cbn [negb].
    replace (forallb _ GameModel.required) with false; [reflexivity|].
    symmetry. apply not_true_is_false. intros Hall.
    rewrite forallb_forall in Hall. specialize (Hall _ Hk). rewrite Hnone in Hall.
    discriminate.
  - intros data Hd. destruct data; try reflexivity. exfalso. eapply Hd. reflexivity.
Qed.

(** ** Repairing the references of the library *)

Section RepairFacts.
Import GameModel Repair.

Lemma repair_spec d games :
  snd (repair_library_references d games)
  = map (fun g => if stale d g then set_icon_path None g else g) games
  /\ fst (repair_library_references d games)
     = Z.of_nat (length (List.filter (stale d) games)).
Proof.
  induction games as [|g games [IH1 IH2]]; [split; reflexivity|].
  cbn [repair_library_references].
  destruct (repair_library_references d games) as [n rest]. cbn [fst snd] in *.
  cbn [map List.filter]. destruct (stale d g); cbn [fst snd length]; subst; split;
    try reflexivity; lia.
Qed.

End RepairFacts.

(** X11.  [repair_library_references] clears exactly the icon paths that
    are set and do not name a valid cache file, and touches nothing else:
    the games keep their number, order and other fields; the count it
    returns is the number of games it changed; afterwards no game has
    such a path, so a second run changes nothing and returns 0. *)
Theorem repair_library_references_spec (d : CoverValidator.disk) (games : list GameModel.t) :
  let '(repaired, games') := Repair.repair_library_references d games in
  games' = map (fun g => if Repair.stale d g then GameModel.set_icon_path None g else g) games
  /\ repaired = Z.of_nat (length (List.filter (Repair.stale d) games))
  /\ Forall (fun g => match GameModel.icon_path g with
                      | Some p => p = EmptyString \/ CoverValidator.validate_cache_file d p = true
                      | None => True
                      end) games'
  /\ Repair.repair_library_references d games' = (0, games').
Proof.
  destruct (repair_spec d games) as [H1 H2].
  destruct (Repair.repair_library_references d games) as [n games'] eqn:E.
  cbn [fst snd] in *. subst.
  assert (Hclean : Forall (fun g => Repair.stale d g = false)
                     (map (fun g => if Repair.stale d g
                                    then GameModel.set_icon_path None g else g) games)).
  { apply Forall_map, Forall_forall. intros g _.
    destruct (Repair.stale d g) eqn:Hs; [reflexivity|exact Hs]. }
  split; [reflexivity|]. split; [reflexivity|]. split.
  - eapply Forall_impl; [exact Hclean|]. intros g. unfold Repair.stale.
    destruct (GameModel.icon_path g) as [[|c p]|]; auto.
    cbn [Py.is_truthy_str andb]. intros Hv. right.
    destruct (CoverValidator.validate_cache_file d (String c p)); [reflexivity|discriminate].
  - set (games' := map _ games) in *.
    destruct (repair_spec d games') as [H1 H2].
    destruct (Repair.repair_library_references d games') as [n rest]. cbn [fst snd] in *.
    subst. f_equal.
    + replace (List.filter (Repair.stale d) games') with (@nil GameModel.t); [reflexivity|].
      symmetry. clear -Hclean. induction Hclean as [|g l Hg _ IH]; [reflexivity|].
      cbn [List.filter]. rewrite Hg. exact IH.
    + clear -Hclean. induction Hclean as [|g l Hg _ IH]; [reflexivity|].
      cbn [map]. rewrite Hg, IH. reflexivity.
Qed.

(** ** Choosing the executable of a game *)

Section ExeFacts.
Import DiskScanner.

Lemma startswith_spec p s :
  PyStr.startswith p s = true <-> exists post, s = (p ++ post)%string.
Proof.
  revert s. induction p as [|a p IH]; intros s; simpl.
  - split; [intros _; exists s; reflexivity|auto].
  - destruct s as [|b s]; [split; [discriminate|intros [post H]; discriminate]|].
    rewrite andb_true_iff, IH. split.
    + intros [Hab [post ->]]. apply Ascii.eqb_eq in Hab. subst. exists post. reflexivity.
    + intros [post [= -> ->]]. split; [apply Ascii.eqb_refl|exists post; reflexivity].
Qed.

Lemma contains_spec x s :
  contains x s = true <-> exists pre post, s = (pre ++ x ++ post)%string.
Proof.
  induction s as [|c s IH]; cbn [contains]; rewrite orb_true_iff, startswith_spec.
  - split.
    + intros [[post H]|H]; [exists EmptyString, post; exact H|discriminate].
    + intros (pre & post & H). left. destruct pre; [exists post; exact H|discriminate].
  - rewrite IH. split.
    + intros [[post H]|(pre & post & H)].
      * exists EmptyString, post. exact H.
      * exists (String c pre), post. simpl. rewrite H. reflexivity.
    + intros (pre & post & H). destruct pre as [|a pre].
      * left. exists post. exact H.
      * right. injection H as -> ->. exists pre, post. reflexivity.
Qed.

Lemma rfind_dot_none s : forall i,
  Forall (fun c => c <> "."%char) (list_ascii_of_string s) -> rfind_dot i s = None.
Proof.
  induction s as [|c s IH]; intros i H; simpl; [reflexivity|].
  simpl in H. apply Forall_cons in H as [Hc Hs]. rewrite IH by assumption.
  destruct (Ascii.eqb_spec c "."); [contradiction|reflexivity].
Qed.

Lemma rfind_dot_last base rest : forall i,
  Forall (fun c => c <> "."%char) (list_ascii_of_string rest) ->
  rfind_dot i (base ++ String "." rest) = Some (i + String.length base)%nat.
Proof.
  induction base as [|c base IH]; intros i H; simpl.
  - rewrite rfind_dot_none by assumption. f_equal. lia.
  - rewrite IH by assumption. f_equal. lia.
Qed.

Lemma substring_all s : String.substring 0 (String.length s) s = s.
Proof. induction s as [|c s IH]; simpl; [reflexivity|]. f_equal. exact IH. Qed.

Lemma substring_split s : forall i,
  (i <= String.length s)%nat ->
  s = (String.substring 0 i s ++ String.substring i (String.length s - i) s)%string.
Proof.
  induction s as [|c s IH]; intros i Hi; simpl in *.
  - destruct i; [reflexivity|lia].
  - destruct i as [|i]; simpl.
    + rewrite substring_all. reflexivity.
    + change (String c s
              = String c (String.substring 0 i s
                          ++ String.substring i (String.length s - i) s)%string).
      f_equal. apply IH. lia.
Qed.

Lemma substring_length s : forall i n,
  (i + n <= String.length s)%nat -> String.length (String.substring i n s) = n.
Proof.
  induction s as [|c s IH]; intros i n H; simpl in *.
  - destruct i, n; simpl; lia.
  - destruct i as [|i]; [destruct n as [|n]; simpl; [reflexivity|rewrite IH; lia]|].
    apply IH. lia.
Qed.

Lemma substring_app_r base ext :
  String.substring (String.length base) (String.length ext) (base ++ ext) = ext.
Proof.
  induction base as [|c base IH]; simpl; [|exact IH].
  induction ext as [|a ext IH]; simpl; [reflexivity|]. f_equal. exact IH.
Qed.

Lemma length_app_string a b :
  String.length (a ++ b) = (String.length a + String.length b)%nat.
Proof. induction a as [|c a IH]; simpl; [reflexivity|]. rewrite IH. reflexivity. Qed.

(** No character becomes a dot in lower case, and none but 'E', 'e',
    'X' and 'x' becomes one of the letters of "exe". *)
Lemma lower_char_dot c : PyStr.lower_char c = "."%char -> c = "."%char.
Proof.
  destruct c as [[] [] [] [] [] [] [] []]; vm_compute; intros H;
    first [reflexivity | discriminate H].
Qed.

Lemma lower_char_letter c :
  PyStr.lower_char c = "e"%char \/ PyStr.lower_char c = "x"%char -> c <> "."%char.
Proof. intros [H|H] ->; vm_compute in H; discriminate H. Qed.

(** The suffix is ".exe" in some case exactly when the name ends so and
    does not start there. *)
Lemma suffix_exe name :
  String.eqb (PyStr.lower (suffix name)) ".exe" = true
  <-> exists base ext, name = (base ++ ext)%string /\ base <> EmptyString
                       /\ PyStr.lower ext = ".exe".
Proof.
  rewrite String.eqb_eq. split.
  - unfold suffix, cut. destruct (rfind_dot 0 name) as [i|] eqn:Hi; [|discriminate].
    destruct (0 <? i)%nat eqn:H0; [|discriminate].
    destruct (i <? String.length name - 1)%nat eqn:H1; [|discriminate]. cbn [andb].
    apply Nat.ltb_lt in H0, H1. intros Hext.
    exists (String.substring 0 i name), (String.substring i (String.length name - i) name).
    split; [apply substring_split; lia|]. split; [|exact Hext].
    intros E. apply (f_equal String.length) in E. rewrite substring_length in E by lia.
    simpl in E. lia.
  - intros (base & ext & -> & Hb & Hext).
    assert (exists c1 c2 c3, ext = String "." (String c1 (String c2 (String c3 EmptyString)))
                             /\ c1 <> "."%char /\ c2 <> "."%char /\ c3 <> "."%char)
      as (c1 & c2 & c3 & -> & N1 & N2 & N3).
    { unfold PyStr.lower in Hext.
      destruct ext as [|c0 [|c1 [|c2 [|c3 [|c4 ext]]]]]; try discriminate Hext.
      simpl in Hext. injection Hext as H0 H1 H2 H3.
      apply lower_char_dot in H0. subst c0. exists c1, c2, c3.
      split; [reflexivity|]. repeat split; apply lower_char_letter; auto. }
    unfold suffix, cut. rewrite rfind_dot_last by (repeat constructor; assumption).
    rewrite length_app_string. cbn [String.length Nat.add].
    assert (Hlen : (0 < String.length base)%nat) by (destruct base; [contradiction|simpl; lia]).
    replace (0 <? String.length base)%nat with true by (symmetry; apply Nat.ltb_lt; lia).
    replace (String.length base <? String.length base + 4 - 1)%nat with true
      by (symmetry; apply Nat.ltb_lt; lia).
    cbn [andb].
    replace (String.length base + 4 - String.length base)%nat
      with (String.length (String "." (String c1 (String c2 (String c3 EmptyString)))))
      by (simpl; lia).
    rewrite substring_app_r. exact Hext.
Qed.

(** *** The stable sort *)

(** The first element after the sort is the first of the largest before
    it. *)
Lemma sort_by_size_head keyed :
  match sort_by_size keyed with
  | [] => keyed = []
  | x :: _ =>
      exists before after,
        keyed = before ++ x :: after
        /\ Forall (fun y => snd y < snd x) before
        /\ Forall (fun y => snd y <= snd x) after
  end.
Proof.
  unfold sort_by_size. induction keyed as [|z keyed IH]; cbn [fold_right]; [reflexivity|].
  destruct (fold_right insert_by_size [] keyed) as [|x sorted].
  - subst keyed. cbn. exists [], []. repeat split; constructor.
  - destruct IH as (before & after & -> & Hb & Ha). cbn [insert_by_size].
    destruct (Z.leb_spec (snd x) (snd z)).
    + exists [], (before ++ x :: after). split; [reflexivity|]. split; [constructor|].
      apply Forall_app. split; [|constructor; [assumption|]].
      * eapply Forall_impl; [exact Hb|]. simpl. intros; lia.
      * eapply Forall_impl; [exact Ha|]. simpl. intros; lia.
    + exists (z :: before), after. split; [reflexivity|].
      split; [constructor; assumption|assumption].
Qed.

Lemma size_keys_spec exes :
  Forall (fun x => _is_game_exe x = true) exes ->
  exists keyed, size_keys exes = Some keyed
                /\ map fst keyed = exes
                /\ Forall (fun y => st_size (fst y) = Some (snd y)) keyed.
Proof.
  unfold size_keys. induction 1 as [|x exes Hx _ (keyed & Hk & Hm & Hs)].
  - exists []. repeat split; constructor.
  - unfold _is_game_exe in Hx. destruct (negb _); [discriminate|].
    destruct (existsb _ _); [discriminate|].
    destruct (st_size x) as [n|] eqn:Hn; [|discriminate].
    exists ((x, n) :: keyed). cbn. rewrite Hn. cbn. rewrite Hk. cbn.
    split; [reflexivity|]. split; [cbn; congruence|constructor; assumption].
Qed.

Lemma find_some_first {A} (p : A -> bool) l x :
  List.find p l = Some x -> In x l /\ p x = true.
Proof. apply List.find_some. Qed.

End ExeFacts.

(** X12.  [_is_game_exe] accepts a file exactly when its name ends in
    ".exe" in any case and has something before that, no word of the
    ignore list occurs in the name in lower case, and its size can be
    read and is at least 512 KiB. *)
Theorem is_game_exe_spec (path : DiskScanner.file) :
  DiskScanner._is_game_exe path = true
  <-> (exists base ext, DiskScanner.name path = (base ++ ext)%string
                        /\ base <> EmptyString /\ PyStr.lower ext = ".exe")
      /\ (forall x, In x DiskScanner.IGNORE_FILES ->
                    ~ exists pre post,
                        PyStr.lower (DiskScanner.name path) = (pre ++ x ++ post)%string)
      /\ (exists n, DiskScanner.st_size path = Some n /\ 524288 <= n).
Proof.
  unfold DiskScanner._is_game_exe. cbv zeta.
  rewrite <- suffix_exe.
  destruct (String.eqb _ ".exe"); cbn [negb];
    [|split; [discriminate|intros [H _]; discriminate H]].
  destruct (existsb _ DiskScanner.IGNORE_FILES) eqn:Hig.
  - split; [discriminate|]. intros (_ & Hno & _). exfalso.
    apply existsb_exists in Hig as (x & Hx & Hc). apply contains_spec in Hc.
    exact (Hno x Hx Hc).
  - assert (Hno : forall x, In x DiskScanner.IGNORE_FILES ->
                    ~ exists pre post,
                        PyStr.lower (DiskScanner.name path) = (pre ++ x ++ post)%string).
    { intros x Hx Hc. apply contains_spec in Hc.
      assert (existsb (fun x => DiskScanner.contains x (PyStr.lower (DiskScanner.name path)))
                DiskScanner.IGNORE_FILES = true) by (apply existsb_exists; eauto).
      congruence. }
    destruct (DiskScanner.st_size path) as [n|].
    + change (512 * 1024) with 524288. destruct (Z.ltb_spec n 524288).
      * split; [discriminate|]. intros (_ & _ & m & [= <-] & ?). lia.
      * split; [|reflexivity]. intros _. repeat split; auto. exists n. split; [reflexivity|lia].
    + split; [discriminate|]. intros (_ & _ & m & [=] & _).
Qed.

(** X13.  [_find_best_exe] returns one of the game executables of the
    folder, or None when the folder cannot be listed or has none; the
    [stat()] of its sort never raises.  It prefers an executable named
    like the folder: when the stem of some game executable equals the
    folder's name, letter case aside, so does the stem of its choice;
    failing that, when some stem equals the folder's name once
    everything but a-z and 0-9 is taken out of both, so does the stem of
    its choice; failing that too, it returns the first of the largest,
    in the order of the listing. *)
Theorem find_best_exe_spec (folder : DiskScanner.folder) :
  let candidates :=
    List.filter DiskScanner._is_game_exe (default [] (DiskScanner.glob_exe folder)) in
  let named exe :=
    PyStr.lower (DiskScanner.stem (DiskScanner.name exe))
    = PyStr.lower (DiskScanner.folder_name folder) in
  let alike exe :=
    DiskScanner.alnum_only (PyStr.lower (DiskScanner.stem (DiskScanner.name exe)))
    = DiskScanner.alnum_only (PyStr.lower (DiskScanner.folder_name folder)) in
  match DiskScanner._find_best_exe folder with
  | DiskScanner.Chosen exe =>
      In exe candidates
      /\ ((exists c, In c candidates /\ named c) -> named exe)
      /\ ((forall c, In c candidates -> ~ named c) ->
          (exists c, In c candidates /\ alike c) -> alike exe)
      /\ ((forall c, In c candidates -> ~ named c /\ ~ alike c) ->
          exists before after n,
            candidates = before ++ exe :: after
            /\ DiskScanner.st_size exe = Some n
            /\ Forall (fun c => exists k, DiskScanner.st_size c = Some k /\ k < n) before
            /\ Forall (fun c => exists k, DiskScanner.st_size c = Some k /\ k <= n) after)
  | DiskScanner.Nothing => candidates = []
  | DiskScanner.StatFailed => False
  end.
Proof.
  cbv zeta. unfold DiskScanner._find_best_exe.
  destruct (DiskScanner.glob_exe folder) as [items|]; [|reflexivity].
  change (default [] (Some items)) with items.
  set (exes := List.filter DiskScanner._is_game_exe items).
  assert (Hall : Forall (fun x => DiskScanner._is_game_exe x = true) exes).
  { apply List.Forall_forall. intros x Hx. apply List.filter_In in Hx. tauto. }
  destruct (size_keys_spec exes Hall) as (keyed & Hk & Hm & Hs).
  pose proof (sort_by_size_head keyed) as Hsort.
  assert (Hkeys : forall part, Forall (fun y => DiskScanner.st_size (fst y) = Some (snd y)) part ->
            forall (Q : Z -> Prop), Forall (fun y => Q (snd y)) part ->
            Forall (fun c => exists k, DiskScanner.st_size c = Some k /\ Q k) (map fst part)).
  { intros part H1 Q H2. apply Forall_map. rewrite Forall_forall in *. intros y Hy.
    exists (snd y). split; [apply H1|apply H2]; assumption. }
  destruct exes as [|e1 [|e2 rest]] eqn:Hex; [reflexivity| |].
  - (* one candidate *)
    split; [left; reflexivity|]. split; [|split].
    + intros (c & [<-|[]] & Hc). exact Hc.
    + intros _ (c & [<-|[]] & Hc). exact Hc.
    + intros _. destruct keyed as [|[x n] [|? ?]]; try discriminate Hm.
      injection Hm as ->. apply Forall_cons in Hs as [Hn _]. cbn in Hn.
      exists [], [], n. repeat split; auto.
  - (* several *)
    rewrite <- Hex in *. clear Hex.
    destruct (List.find _ exes) as [exe|] eqn:F1.
    { apply find_some_first in F1 as [Hin Hn]. apply String.eqb_eq in Hn.
      split; [exact Hin|]. split; [intros _; exact Hn|]. split.
      - intros Hnone. destruct (Hnone exe Hin Hn).
      - intros Hnone. destruct (Hnone exe Hin) as [H _]. contradiction. }
    assert (N1 : forall c, In c exes ->
              PyStr.lower (DiskScanner.stem (DiskScanner.name c))
              <> PyStr.lower (DiskScanner.folder_name folder)).
    { intros c Hc E. apply (List.find_none _ _ F1) in Hc. apply String.eqb_neq in Hc.
      contradiction. }
    clear F1. destruct (List.find _ exes) as [exe|] eqn:F2.
    { apply find_some_first in F2 as [Hin Hn]. apply String.eqb_eq in Hn.
      split; [exact Hin|]. split; [intros (c & Hc & E); destruct (N1 c Hc E)|].
      split; [intros _ _; exact Hn|].
      intros Hnone. destruct (Hnone exe Hin) as [_ H]. contradiction. }
    assert (N2 : forall c, In c exes ->
              DiskScanner.alnum_only (PyStr.lower (DiskScanner.stem (DiskScanner.name c)))
              <> DiskScanner.alnum_only (PyStr.lower (DiskScanner.folder_name folder))).
    { intros c Hc E. apply (List.find_none _ _ F2) in Hc. apply String.eqb_neq in Hc.
      contradiction. }
    rewrite Hk. destruct (DiskScanner.sort_by_size keyed) as [|[exe n] sorted].
    { subst keyed. cbn in Hm. symmetry. exact Hm. }
    destruct Hsort as (before & after & -> & Hb & Ha). cbn [snd] in *.
    rewrite map_app in Hm. cbn [map fst] in Hm.
    apply Forall_app in Hs as [Hsb Hs]. apply Forall_cons in Hs as [Hn Hsa]. cbn in Hn.
    split; [rewrite <- Hm; apply in_or_app; right; left; reflexivity|].
    split; [intros (c & Hc & E); destruct (N1 c Hc E)|].
    split; [intros _ (c & Hc & E); destruct (N2 c Hc E)|].
    intros _. exists (map fst before), (map fst after), n.
    split; [symmetry; exact Hm|]. split; [exact Hn|].
    split; [apply (Hkeys before Hsb (fun k => k < n)); exact Hb
           |apply (Hkeys after Hsa (fun k => k <= n)); exact Ha].
Qed.

(** ** The library as a dictionary *)

Section LibraryFacts.
Import GameModel GameManager.

Lemma lookup_uid k games g : lookup k games = Some g -> uid g = k.
Proof.
  intros H. apply List.find_some in H as [_ H]. apply String.eqb_eq in H. exact H.
Qed.

Lemma lookup_cons k g games :
  lookup k (g :: games) = if String.eqb (uid g) k then Some g else lookup k games.
Proof. reflexivity. Qed.

Lemma lookup_store_same g games : lookup (uid g) (store g games) = Some g.
Proof.
  induction games as [|h games IH]; cbn [store].
  - rewrite lookup_cons, String.eqb_refl. reflexivity.
  - destruct (String.eqb_spec (uid h) (uid g)) as [E|N].
    + rewrite lookup_cons, String.eqb_refl. reflexivity.
    + rewrite lookup_cons. destruct (String.eqb_spec (uid h) (uid g)); [contradiction|exact IH].
Qed.

Lemma lookup_store_other k g games : k <> uid g -> lookup k (store g games) = lookup k games.
Proof.
  intros Hk. induction games as [|h games IH]; cbn [store].
  - rewrite lookup_cons. destruct (String.eqb_spec (uid g) k); [congruence|reflexivity].
  - destruct (String.eqb_spec (uid h) (uid g)) as [E|N].
    + rewrite !lookup_cons. rewrite E.
      destruct (String.eqb_spec (uid g) k); [congruence|reflexivity].
    + rewrite !lookup_cons, IH. reflexivity.
Qed.

Lemma lookup_store k g games :
  lookup k (store g games) = if String.eqb (uid g) k then Some g else lookup k games.
Proof.
  destruct (String.eqb_spec (uid g) k) as [<-|N].
  - apply lookup_store_same.
  - apply lookup_store_other. congruence.
Qed.

Lemma lookup_None k games : lookup k games = None <-> ~ In k (map uid games).
Proof.
  induction games as [|h games IH]; [cbn; tauto|].
  rewrite lookup_cons. cbn [map In]. destruct (String.eqb_spec (uid h) k).
  - split; [discriminate|]. intros H. exfalso. auto.
  - rewrite IH. tauto.
Qed.

(** Storing under a key that is there keeps the keys and their order;
    storing under a new key adds it at the end. *)
Lemma uids_store g games :
  map uid (store g games)
  = match lookup (uid g) games with
    | Some _ => map uid games
    | None => map uid games ++ [uid g]
    end.
Proof.
  induction games as [|h games IH]; [reflexivity|].
  cbn [store]. rewrite lookup_cons.
  destruct (String.eqb_spec (uid h) (uid g)) as [E|N]; cbn [map].
  - rewrite E. reflexivity.
  - rewrite IH. destruct (lookup (uid g) games); reflexivity.
Qed.

Lemma NoDup_store g games : List.NoDup (map uid games) -> List.NoDup (map uid (store g games)).
Proof.
  intros H. rewrite uids_store. destruct (lookup (uid g) games) eqn:E; [exact H|].
  apply lookup_None in E. apply List.NoDup_app; [exact H|repeat constructor; auto|].
  intros x Hx [<-|[]]. contradiction.
Qed.

(** Storing a game back where it was. *)
Lemma store_back k games g g' :
  lookup k games = Some g -> uid g' = k -> store g (store g' games) = games.
Proof.
  intros Hl Hk. induction games as [|h games IH]; [discriminate|].
  rewrite lookup_cons in Hl. cbn [store].
  destruct (String.eqb_spec (uid h) k) as [E|N].
  - injection Hl as ->. rewrite Hk, E, String.eqb_refl. cbn [store].
    rewrite Hk, E, String.eqb_refl. reflexivity.
  - destruct (String.eqb_spec (uid h) (uid g')) as [E'|N']; [congruence|].
    cbn [store]. pose proof (lookup_uid _ _ _ Hl) as Hg.
    destruct (String.eqb_spec (uid h) (uid g)); [congruence|]. rewrite IH by assumption.
    reflexivity.
Qed.

Lemma store_new g games : lookup (uid g) games = None -> store g games = games ++ [g].
Proof.
  induction games as [|h games IH]; [reflexivity|].
  rewrite lookup_cons. cbn [store].
  destruct (String.eqb (uid h) (uid g)); [discriminate|]. intros H. rewrite IH by exact H.
  reflexivity.
Qed.

Lemma flip_twice g :
  set_is_favorite (negb (is_favorite (set_is_favorite (negb (is_favorite g)) g)))
    (set_is_favorite (negb (is_favorite g)) g) = g.
Proof. destruct g. cbn. rewrite negb_involutive. reflexivity. Qed.

Lemma lookup_app k l1 l2 :
  lookup k (l1 ++ l2) = match lookup k l1 with Some g => Some g | None => lookup k l2 end.
Proof.
  induction l1 as [|h l1 IH]; [reflexivity|]. cbn [app]. rewrite !lookup_cons.
  destruct (String.eqb (uid h) k); [reflexivity|exact IH].
Qed.

(** A dict made of the games of a list holds, under each uid, the last
    game of the list that has it. *)
Lemma lookup_fold_store k found : forall acc,
  lookup k (fold_left (fun acc g => store g acc) found acc)
  = match lookup k (rev found) with Some n => Some n | None => lookup k acc end.
Proof.
  induction found as [|g found IH]; intros acc; [reflexivity|].
  cbn [fold_left rev]. rewrite IH, lookup_app, lookup_store.
  destruct (lookup k (rev found)); [reflexivity|].
  rewrite lookup_cons. destruct (String.eqb (uid g) k); reflexivity.
Qed.

Lemma NoDup_fold_store found : forall acc,
  List.NoDup (map uid acc) ->
  List.NoDup (map uid (fold_left (fun acc g => store g acc) found acc)).
Proof.
  induction found as [|g found IH]; intros acc H; [exact H|].
  cbn [fold_left]. apply IH, NoDup_store, H.
Qed.

Lemma lookup_filter k (p : t -> bool) games :
  List.NoDup (map uid games) ->
  lookup k (List.filter p games)
  = match lookup k games with
    | Some o => if p o then Some o else None
    | None => None
    end.
Proof.
  induction games as [|h games IH]; intros Hnd; [reflexivity|].
  cbn [map] in Hnd. apply List.NoDup_cons_iff in Hnd as [Hh Hnd].
  cbn [List.filter]. rewrite lookup_cons.
  destruct (String.eqb_spec (uid h) k) as [E|N].
  - destruct (p h); [rewrite lookup_cons, E, String.eqb_refl; reflexivity|].
    rewrite IH by exact Hnd. apply lookup_None in Hh. rewrite E in Hh. rewrite Hh. reflexivity.
  - destruct (p h); [rewrite lookup_cons|]; rewrite IH by exact Hnd;
      [destruct (String.eqb_spec (uid h) k); [contradiction|]|]; reflexivity.
Qed.

Lemma uid_adopt d old game : uid (adopt d old game) = uid game.
Proof.
  unfold adopt. cbv zeta.
  destruct (icon_path old) as [p|]; [destruct (Py.is_truthy_str p && _)%bool|]; reflexivity.
Qed.

Lemma NoDup_fold_merge d news : forall kept,
  List.NoDup (map uid kept) -> List.NoDup (map uid (fold_left (merge d) news kept)).
Proof.
  induction news as [|n news IH]; intros kept Hk; [exact Hk|].
  cbn [fold_left]. apply IH. unfold merge.
  destruct (lookup _ kept); apply NoDup_store; exact Hk.
Qed.

Lemma lookup_fold_merge d k news : forall kept,
  List.NoDup (map uid news) ->
  lookup k (fold_left (merge d) news kept)
  = match lookup k news with
    | Some n => Some (match lookup k kept with Some old => adopt d old n | None => n end)
    | None => lookup k kept
    end.
Proof.
  induction news as [|n news IH]; intros kept Hnd; [reflexivity|].
  cbn [map] in Hnd. apply List.NoDup_cons_iff in Hnd as [Hn Hnd].
  cbn [fold_left]. rewrite IH by exact Hnd. rewrite lookup_cons.
  assert (Hm : lookup k (merge d kept n)
               = if String.eqb (uid n) k
                 then Some (match lookup k kept with
                            | Some old => adopt d old n
                            | None => n
                            end)
                 else lookup k kept).
  { unfold merge. destruct (String.eqb_spec (uid n) k) as [E|N].
    - rewrite E. destruct (lookup k kept) as [old|].
      + rewrite <- E at 1. rewrite <- (uid_adopt d old n). apply lookup_store_same.
      + rewrite <- E. apply lookup_store_same.
    - destruct (lookup (uid n) kept) as [old|]; apply lookup_store_other;
        rewrite ?uid_adopt; congruence. }
  destruct (String.eqb_spec (uid n) k) as [E|N].
  - apply lookup_None in Hn. rewrite E in Hn. rewrite Hn. exact Hm.
  - rewrite Hm. reflexivity.
Qed.

End LibraryFacts.

(** X14.  [toggle_favorite] does nothing for a uid that is not in the
    library: no game changes and nothing is written.  For a game of the
    library it inverts the flag of that game only, keeps the games in
    place and writes the library to library.json; a second call brings
    the library back.  When library.json cannot be written the call
    raises, with the flag already inverted in memory. *)
Theorem toggle_favorite_spec (k : string) (m : GameManager.manager) :
  match GameManager.lookup k (GameManager._games m) with
  | None => GameManager.toggle_favorite k m = GameManager.Returned m
  | Some game =>
      let flipped := GameModel.set_is_favorite (negb (GameModel.is_favorite game)) game in
      exists m1,
        GameManager.toggle_favorite k m
        = (if GameManager.library_writable m then GameManager.Returned m1
           else GameManager.Raising m1)
        /\ map GameModel.uid (GameManager._games m1) = map GameModel.uid (GameManager._games m)
        /\ (forall k', GameManager.lookup k' (GameManager._games m1)
                       = if String.eqb k k' then Some flipped
                         else GameManager.lookup k' (GameManager._games m))
        /\ (GameManager.library_writable m = true ->
            CoverValidator.library (GameManager.files m1)
            = CoverValidator.Loaded (GameManager.library_json (GameManager._games m1))
            /\ exists m2, GameManager.toggle_favorite k m1 = GameManager.Returned m2
                          /\ GameManager._games m2 = GameManager._games m)
  end.
Proof.
  unfold GameManager.toggle_favorite.
  destruct (GameManager.lookup k (GameManager._games m)) as [game|] eqn:Hl; [|reflexivity].
  cbv zeta. set (flipped := GameModel.set_is_favorite _ game).
  pose proof (lookup_uid _ _ _ Hl) as Hk.
  assert (Hu : GameModel.uid flipped = k) by exact Hk.
  assert (Hkeys : map GameModel.uid (GameManager.store flipped (GameManager._games m))
                  = map GameModel.uid (GameManager._games m)).
  { rewrite uids_store, Hu, Hl. reflexivity. }
  assert (Hlook : forall k', GameManager.lookup k' (GameManager.store flipped
                                                      (GameManager._games m))
                             = if String.eqb k k' then Some flipped
                               else GameManager.lookup k' (GameManager._games m)).
  { intros k'. rewrite lookup_store, Hu. reflexivity. }
  unfold GameManager.save_library. cbn [GameManager.library_writable GameManager.with_games].
  set (games1 := GameManager.store flipped (GameManager._games m)) in *.
  destruct (GameManager.library_writable m) eqn:Hw.
  - eexists. split; [reflexivity|].
    cbn [GameManager._games GameManager.files GameManager.with_files
         GameManager.library_writable GameManager.written CoverValidator.library].
    split; [exact Hkeys|]. split; [exact Hlook|].
    intros _. split; [reflexivity|].
    rewrite Hlook, String.eqb_refl.
    cbn [GameManager.library_writable GameManager.with_files GameManager.with_games
         GameManager._games GameManager.files].
    rewrite Hw. eexists. split; [reflexivity|].
    cbn [GameManager._games GameManager.with_files].
    unfold flipped at 1 2. rewrite flip_twice.
    apply (store_back k); assumption.
  - eexists. split; [reflexivity|]. cbn [GameManager._games].
    split; [exact Hkeys|]. split; [exact Hlook|].
    discriminate.
Qed.
(** X15.  What a rescan makes of the library, uid by uid.  A game of the
    library whose files are gone is dropped before the scan.  A game that
    the scan finds (the last one, when it finds several with one uid)
    replaces the one in the library and takes over its favourite flag and
    its category, and its cover path too when that still names a valid
    file; found for a uid that the library does not hold, or whose game
    was just dropped, it comes as the scanner made it.  A game that the
    scan does not find stays as it is.  Then the library is saved. *)
Theorem scan_all_games_merge (steam_scanner disk_scanner : GameManager.scanner)
  (m : GameManager.manager) (steam_games system_games : list GameModel.t)
  (d1 d2 : CoverValidator.disk) :
  List.NoDup (map GameModel.uid (GameManager._games m)) ->
  steam_scanner (GameManager.files m) = (Some steam_games, d1) ->
  disk_scanner d1 = (Some system_games, d2) ->
  exists games,
    GameManager.scan_all_games steam_scanner disk_scanner m
    = GameManager.save_library (GameManager.with_files d2 (GameManager.with_games games m))
    /\ List.NoDup (map GameModel.uid games)
    /\ forall k,
        let old :=
          match GameManager.lookup k (GameManager._games m) with
          | Some o => if GameManager.gone (GameManager.files m) o then None else Some o
          | None => None
          end in
        GameManager.lookup k games
        = match GameManager.lookup k (rev (steam_games ++ system_games)) with
          | Some found =>
              Some (match old with
                    | Some o => GameManager.adopt d2 o found
                    | None => found
                    end)
          | None => old
          end.
Proof.
  intros Hnd Hs Hd. unfold GameManager.scan_all_games. rewrite Hs, Hd. cbv zeta.
  set (kept := List.filter _ (GameManager._games m)).
  set (news := fold_left _ (steam_games ++ system_games) []).
  assert (Hnews : List.NoDup (map GameModel.uid news)).
  { apply NoDup_fold_store. constructor. }
  assert (Hkept : List.NoDup (map GameModel.uid kept)).
  { clear -Hnd. subst kept. induction (GameManager._games m) as [|h l IH]; [constructor|].
    cbn [map] in Hnd. apply List.NoDup_cons_iff in Hnd as [Hh Hnd]. cbn [List.filter].
    destruct (negb _); [|auto]. cbn [map]. constructor; [|auto].
    intros Hin. apply Hh. apply in_map_iff in Hin as (x & Hx & Hin).
    apply in_map_iff. exists x. split; [exact Hx|]. apply List.filter_In in Hin. tauto. }
  exists (fold_left (GameManager.merge d2) news kept). split; [reflexivity|]. split.
  - apply NoDup_fold_merge, Hkept.
  - intros k. cbv zeta. rewrite lookup_fold_merge by exact Hnews.
    unfold news at 1. rewrite lookup_fold_store. cbn [GameManager.lookup find].
    unfold kept. rewrite lookup_filter by exact Hnd.
    destruct (GameManager.lookup k (rev (steam_games ++ system_games))) as [found|].
    + destruct (GameManager.lookup k (GameManager._games m)) as [o|]; [|reflexivity].
      destruct (GameManager.gone (GameManager.files m) o); reflexivity.
    + destruct (GameManager.lookup k (GameManager._games m)) as [o|]; [|reflexivity].
      destruct (GameManager.gone (GameManager.files m) o); reflexivity.
Qed.
(** ** Loading the library *)

Section LibraryFiles.
Context `{P : PathLib}.
Import GameModel GameManager CoverValidator.

Lemma load_games_to_dict now gs : forall i acc,
  load_games now i (map to_dict gs) acc
  = Completed (fold_left (fun acc g => store g acc) gs acc).
Proof.
  induction gs as [|g gs IH]; intros i acc; [reflexivity|].
  cbn [map load_games fold_left]. rewrite from_dict_to_dict. apply IH.
Qed.

Lemma fold_store_fresh gs : forall acc,
  List.NoDup (map uid (acc ++ gs)) ->
  fold_left (fun acc g => store g acc) gs acc = acc ++ gs.
Proof.
  induction gs as [|g gs IH]; intros acc H; cbn [fold_left]; [rewrite app_nil_r; reflexivity|].
  assert (Hg : lookup (uid g) acc = None).
  { apply lookup_None. rewrite map_app in H. cbn [map] in H.
    apply List.NoDup_remove_2 in H. intros Hin. apply H, in_or_app. left. exact Hin. }
  rewrite store_new by exact Hg. rewrite IH; rewrite <- app_assoc; [reflexivity|exact H].
Qed.

Lemma repair_nothing d games :
  fst (Repair.repair_library_references d games) <= 0 ->
  snd (Repair.repair_library_references d games) = games.
Proof.
  destruct (repair_spec d games) as [-> ->]. intros Hn.
  induction games as [|g games IH]; [reflexivity|]. cbn [map List.filter] in *.
  destruct (Repair.stale d g); cbn [length] in Hn; [lia|]. rewrite IH by exact Hn. reflexivity.
Qed.

Lemma repair_written data d games :
  Repair.repair_library_references (written data d) games
  = Repair.repair_library_references d games.
Proof.
  induction games as [|g games IH]; [reflexivity|].
  cbn [Repair.repair_library_references]. rewrite IH. reflexivity.
Qed.

(** The clean-up leaves the library file alone, and every cache file
    whose name the library file refers to. *)
Lemma cleanup_library d : library (snd (cleanup_orphaned_cache d)) = library d.
Proof.
  unfold cleanup_orphaned_cache. destruct (library d) as [| |data] eqn:Hl; try exact Hl.
  destruct (referenced_files data) as [refs|]; [|exact Hl].
  destruct (cache_dir_exists d); [|exact Hl].
  destruct (sweep refs (glob d "*.jpg") (0, 0, d)) as [[r1 t1] d1] eqn:E1.
  destruct (sweep refs (glob d1 "*.png") (r1, t1, d1)) as [[r2 t2] d2] eqn:E2.
  apply sweep_spec in E1 as (_ & _ & _ & _ & L1). apply sweep_spec in E2 as (_ & _ & _ & _ & L2).
  cbn [snd]. congruence.
Qed.

Lemma cleanup_keeps_referenced d data refs f :
  library d = Loaded data -> referenced_files data = Val refs ->
  f ∈ refs -> f ∈ cache_files d -> f ∈ cache_files (snd (cleanup_orphaned_cache d)).
Proof.
  intros Hl Hr Hf Hin. unfold cleanup_orphaned_cache. rewrite Hl, Hr.
  destruct (cache_dir_exists d); [|exact Hin].
  destruct (sweep refs (glob d "*.jpg") (0, 0, d)) as [[r1 t1] d1] eqn:E1.
  destruct (sweep refs (glob d1 "*.png") (r1, t1, d1)) as [[r2 t2] d2] eqn:E2.
  apply sweep_spec in E1 as (_ & _ & F1 & _ & _). apply sweep_spec in E2 as (_ & _ & F2 & _ & _).
  cbn [snd]. rewrite F2, F1. rewrite !elem_of_difference, !elem_of_deleted. tauto.
Qed.

Lemma traverse_In {A B} (f : A -> result B) xs : forall ys x,
  Py.traverse f xs = Val ys -> In x xs -> exists y, f x = Val y /\ In y ys.
Proof.
  induction xs as [|a xs IH]; intros ys x H Hin; [destruct Hin|].
  cbn [Py.traverse] in H. destruct (f a) as [b|] eqn:Fa; [|discriminate]. cbn [Py.rbind] in H.
  destruct (Py.traverse f xs) as [bs|]; [|discriminate]. cbn [Py.rbind] in H.
  injection H as <-. destruct Hin as [<-|Hin].
  - exists b. split; [exact Fa|left; reflexivity].
  - destruct (IH bs x eq_refl Hin) as (y & Hy & Hin'). exists y. split; [exact Hy|right; exact Hin'].
Qed.

(** The entry from which a game with a cover was built refers to the
    cover. *)
Lemma built_referenced now e g p :
  from_dict now e = Built g -> icon_path g = Some p -> p <> EmptyString ->
  referenced_name e = Val (Some (path_name p)).
Proof.
  intros Hb Hi Hp. destruct e as [| | | | | |items]; try discriminate.
  unfold from_dict in Hb.
  destruct (negb (forallb _ items)); [discriminate|].
  destruct (negb (forallb _ required)); [discriminate|].
  destruct (argument items "uid" as_str EmptyString); [|discriminate].
  destruct (argument items "title" as_str EmptyString); [|discriminate].
  destruct (argument items "exe_path" as_str EmptyString); [|discriminate].
  destruct (argument items "icon_path" as_optional None) as [i|] eqn:Ei; [|discriminate].
  destruct (argument items "platform" as_str "System"); [|discriminate].
  destruct (argument items "category" as_str "All"); [|discriminate].
  destruct (argument items "app_id" as_optional None); [|discriminate].
  destruct (argument items "install_path" as_optional None); [|discriminate].
  destruct (argument items "last_played" as_optional None); [|discriminate].
  destruct (argument items "play_time" as_int 0); [|discriminate].
  destruct (argument items "is_favorite" as_bool false); [|discriminate].
  destruct (argument items "added_date" as_str now); [|discriminate].
  cbn in Hb. injection Hb as <-. cbn [icon_path] in Hi. subst i.
  unfold argument in Ei. unfold referenced_name, Py.get.
  destruct (Py.lookup "icon_path" items) as [v|]; [|discriminate].
  destruct v; try discriminate. injection Ei as ->. cbn [default Py.rbind Py.truthy].
  destruct p; [contradiction|reflexivity].
Qed.

(** Every game that the loop of [load_library] has put into an empty
    library was built from an entry of the file. *)
Lemma load_games_from_entries now entries : forall i acc games g,
  (load_games now i entries acc = Completed games
   \/ load_games now i entries acc = Interrupted games) ->
  In g games -> In g acc \/ exists e j, In e entries /\ from_dict (now j) e = Built g.
Proof.
  induction entries as [|e entries IH]; intros i acc games g H Hin; cbn [load_games] in H.
  - left. destruct H as [[= <-]|H]; [exact Hin|discriminate].
  - destruct (from_dict (now i) e) as [g0|x|] eqn:Fe.
    + destruct (IH _ _ _ _ H Hin) as [Hacc|(e' & j & He' & Hb)].
      * assert (Hs : In g (store g0 acc) -> g = g0 \/ In g acc).
        { clear. induction acc as [|h acc IHa]; cbn [store].
          - intros [<-|[]]. left; reflexivity.
          - destruct (String.eqb (uid h) (uid g0)).
            + intros [<-|Hin]; [left; reflexivity|right; right; exact Hin].
            + intros [<-|Hin]; [right; left; reflexivity|].
              destruct (IHa Hin) as [->|Hin']; [left; reflexivity|right; right; exact Hin']. }
        destruct (Hs Hacc) as [->|Hacc']; [|left; exact Hacc'].
        right. exists e, i. split; [left; reflexivity|exact Fe].
      * right. exists e', j. split; [right; exact He'|exact Hb].
    + left. destruct H as [H|[= <-]]; [discriminate|exact Hin].
    + destruct H; discriminate.
Qed.

Lemma repaired_In d games g p :
  In g (snd (Repair.repair_library_references d games)) -> icon_path g = Some p ->
  exists g0, In g0 games /\ icon_path g0 = Some p.
Proof.
  destruct (repair_spec d games) as [-> _]. intros Hin Hi.
  apply in_map_iff in Hin as (g0 & <- & Hin). exists g0. split; [exact Hin|].
  destruct (Repair.stale d g0); [discriminate|exact Hi].
Qed.

Lemma referenced_library_json games g p :
  In g games -> icon_path g = Some p -> p <> EmptyString ->
  exists refs, referenced_files (library_json games) = Val refs /\ path_name p ∈ refs.
Proof.
  intros Hin Hi Hp.
  change (referenced_files (library_json games))
    with (Py.rbind (Py.traverse referenced_name (map to_dict games))
            (fun names => Val (list_to_set (C := gset string) (omap id names)))).
  assert (Hall : forall gs, exists names,
             Py.traverse referenced_name (map to_dict gs) = Val names
             /\ forall g, In g gs -> icon_path g = Some p -> In (Some (path_name p)) names).
  { induction gs as [|h gs (names & Hn & Hnames)]; [exists []; split; [reflexivity|intros ? []]|].
    cbn [map Py.traverse]. rewrite Hn.
    destruct (referenced_name (to_dict h)) as [y|] eqn:Ry.
    - exists (y :: names). split; [reflexivity|]. intros g' [<-|Hg'] Hi'.
      + left. rewrite (built_referenced EmptyString _ _ _ (from_dict_to_dict _ h) Hi' Hp) in Ry.
        congruence.
      + right. eauto.
    - exfalso. destruct h as [? ? ? [[|c i]|] ? ? ? ? ? ? ? ?]; discriminate. }
  destruct (Hall games) as (names & -> & Hnames). cbn [Py.rbind].
  eexists. split; [reflexivity|]. apply elem_of_list_to_set, list_elem_of_omap.
  exists (Some (path_name p)). split; [|reflexivity]. apply list_elem_of_In. eauto.
Qed.

(** X16.  Loading the library at start-up, when no game is held yet,
    never deletes the cover of a game that it has loaded: for every game
    of the library afterwards whose icon path is set, the cache file of
    that name is still there if it was there before. *)
Theorem load_library_keeps_covers (now : nat -> string) (m m' : manager) :
  _games m = [] ->
  load_library now m = Some m' ->
  forall g p,
    In g (_games m') -> icon_path g = Some p -> p <> EmptyString ->
    path_name p ∈ cache_files (files m) -> path_name p ∈ cache_files (files m').
Proof.
  intros H0 Hl g p Hin Hi Hp Hf. unfold load_library in Hl.
  destruct (library (files m)) as [| |data] eqn:Lib;
    try (injection Hl as <-; exact Hf).
  destruct (Py.rbind _ Py.iter) as [entries|] eqn:En; [|injection Hl as <-; exact Hf].
  destruct (load_games now 0 entries (_games m)) as [games|games|] eqn:Lg;
    [|injection Hl as <-; exact Hf|discriminate].
  destruct (Repair.repair_library_references (files m) games) as [n games'] eqn:Rep.
  assert (Hg' : games' = snd (Repair.repair_library_references (files m) games))
    by (rewrite Rep; reflexivity).
  destruct (0 <? n) eqn:Hn.
  - unfold save_library in Hl. cbn [library_writable with_games] in Hl.
    destruct (library_writable m); [|injection Hl as <-; exact Hf].
    cbn [files with_files with_games _games] in Hl.
    set (d := written _ _) in Hl.
    destruct (cleanup_orphaned_cache d) as [c d'] eqn:Cl. injection Hl as <-.
    cbn [files with_files _games with_games] in *.
    destruct (referenced_library_json games' g p Hin Hi Hp) as (refs & Hr & Hpr).
    replace d' with (snd (cleanup_orphaned_cache d)) by (rewrite Cl; reflexivity).
    eapply cleanup_keeps_referenced; [reflexivity|exact Hr|exact Hpr|exact Hf].
  - cbn [files with_games] in Hl.
    destruct (cleanup_orphaned_cache (files m)) as [c d'] eqn:Cl. injection Hl as <-.
    cbn [files with_files _games with_games] in *.
    replace d' with (snd (cleanup_orphaned_cache (files m))) by (rewrite Cl; reflexivity).
    destruct (referenced_files data) as [refs|e] eqn:Hr.
    + eapply cleanup_keeps_referenced; [exact Lib|exact Hr| |exact Hf].
      subst games'. destruct (repaired_In _ _ _ _ Hin Hi) as (g0 & Hin0 & Hi0).
      destruct (load_games_from_entries now entries 0 (_games m) games g0 (or_introl Lg) Hin0)
        as [Hacc|(e & j & He & Hb)]; [rewrite H0 in Hacc; destruct Hacc|].
      pose proof (built_referenced _ _ _ _ Hb Hi0 Hp) as Hre.
      unfold referenced_files in Hr.
      destruct (Py.get_default data "games" (Py.List [])) as [v|]; [|discriminate].
      cbn [Py.rbind] in En, Hr. rewrite En in Hr. cbn [Py.rbind] in Hr.
      destruct (Py.traverse referenced_name entries) as [names|] eqn:T; [|discriminate].
      cbn [Py.rbind] in Hr. injection Hr as <-.
      destruct (traverse_In _ _ _ _ T He) as (y & Hy & Hyin). rewrite Hre in Hy.
      injection Hy as <-. apply elem_of_list_to_set, list_elem_of_omap.
      exists (Some (path_name p)). split; [apply list_elem_of_In; exact Hyin|reflexivity].
    + rewrite (cleanup_malformed_inventory _ _ _ Lib Hr). exact Hf.
Qed.

(** X17.  A library that was saved is loaded again as it was, game by
    game and in the same order, but for the icon paths that are set and
    do not name a valid cache file, which are cleared; and once loaded,
    the library file holds the games as they are held. *)
Theorem save_then_load (now : nat -> string) (m m1 : manager) :
  List.NoDup (map uid (_games m)) ->
  save_library m = Returned m1 ->
  exists m2,
    load_library now (with_games [] m1) = Some m2
    /\ _games m2
       = map (fun g => if Repair.stale (files m) g then set_icon_path None g else g) (_games m)
    /\ library (files m2) = Loaded (library_json (_games m2)).
Proof.
  intros Hnd Hs. unfold save_library in Hs.
  destruct (library_writable m) eqn:Hw; [|discriminate]. injection Hs as <-.
  unfold load_library.
  cbn [files with_files with_games written library _games].
  change (Py.rbind (Py.get_default (library_json (_games m)) "games" (Py.List [])) Py.iter)
    with (Val (map to_dict (_games m))).
  cbv iota beta. rewrite load_games_to_dict.
  rewrite (fold_store_fresh (_games m) []) by exact Hnd. cbn [app].
  rewrite repair_written.
  destruct (repair_spec (files m) (_games m)) as [R1 R2].
  pose proof (repair_nothing (files m) (_games m)) as R0.
  destruct (Repair.repair_library_references (files m) (_games m)) as [n games'] eqn:Rep.
  cbn [fst snd] in R1, R2, R0.
  destruct (0 <? n) eqn:Hn.
  - unfold save_library. cbn [library_writable with_games with_files]. rewrite Hw.
    cbn [files with_files with_games _games].
    set (d := written (library_json games') _).
    pose proof (cleanup_library d) as Hlib.
    destruct (cleanup_orphaned_cache d) as [c d'] eqn:Cl. cbn [snd] in Hlib.
    eexists. split; [reflexivity|]. cbn [_games files with_files with_games].
    split; [exact R1|exact Hlib].
  - cbn [files with_files with_games _games].
    set (d := written (library_json (_games m)) _).
    pose proof (cleanup_library d) as Hlib.
    destruct (cleanup_orphaned_cache d) as [c d'] eqn:Cl. cbn [snd] in Hlib.
    eexists. split; [reflexivity|]. cbn [_games files with_files with_games].
    apply Z.ltb_ge in Hn. rewrite <- R1. rewrite (R0 Hn). split; [reflexivity|exact Hlib].
Qed.

End LibraryFiles.

Module LibraryExamples.
Import GameModel GameManager CoverValidator LibrarySample.
#[local] Existing Instance Sample.paths.

Lemma shelf_uids : List.NoDup (map uid (_games shelf)).
Proof. repeat (constructor; [cbn; intuition discriminate|]). constructor. Defined.

Lemma scan_all_games_merge_witness :
  exists games,
    scan_all_games (finds []) (finds [doom_found]) shelf
    = save_library (with_files (files shelf) (with_games games shelf))
    /\ List.NoDup (map uid games)
    /\ forall k,
        let old :=
          match lookup k (_games shelf) with
          | Some o => if gone (files shelf) o then None else Some o
          | None => None
          end in
        lookup k games
        = match lookup k (rev ([] ++ [doom_found])) with
          | Some found =>
              Some (match old with
                    | Some o => adopt (files shelf) o found
                    | None => found
                    end)
          | None => old
          end.
Proof.
  apply (scan_all_games_merge (finds []) (finds [doom_found]) shelf [] [doom_found]
           (files shelf) (files shelf)); [exact shelf_uids|reflexivity|reflexivity].
Defined.

Lemma load_library_keeps_covers_witness :
  let m' := default fresh (load_library clock fresh) in
  load_library clock fresh = Some m'
  /\ In (icon_path doom) (map icon_path (_games m'))
  /\ "a.jpg" ∈ cache_files (files m').
Proof.
  intros m'.
  assert (Hl : load_library clock fresh = Some m') by (vm_compute; reflexivity).
  split; [exact Hl|]. split; [vm_compute; left; reflexivity|].
  apply (load_library_keeps_covers clock fresh m' eq_refl Hl doom "cache/icons/a.jpg");
    [vm_compute; left; reflexivity|reflexivity|discriminate|].
  apply elem_of_list_to_set. left.
Defined.

Lemma save_then_load_witness :
  let m1 := with_files (written (library_json (_games shelf)) (files shelf)) shelf in
  exists m2,
    load_library clock (with_games [] m1) = Some m2
    /\ _games m2
       = map (fun g => if Repair.stale (files shelf) g then set_icon_path None g else g)
           (_games shelf)
    /\ library (files m2) = Loaded (library_json (_games m2)).
Proof.
  intros m1. apply (save_then_load clock shelf m1); [exact shelf_uids|reflexivity].
Defined.

End LibraryExamples.

(** ** What the junk patterns match *)

Ltac by_cases c := destruct c as [[] [] [] [] [] [] [] []]; vm_compute; try reflexivity; try discriminate.

Section PatternFacts.
Import PyStr Re CleanName NameWords.

Lemma isword_lower c : isword (lower_ascii c) = isword c.
Proof. by_cases c. Qed.

Lemma space_not_word c : isspace c = true -> isword c = false.
Proof. by_cases c. Qed.

Lemma digit_word c : isdecimal c = true -> isword c = true.
Proof. by_cases c. Qed.

Lemma letter_word c : letter c = true -> isword c = true.
Proof. by_cases c. Qed.

Lemma letter_not_digit c : letter c = true -> isdecimal c = false.
Proof. by_cases c. Qed.

Lemma separator_not_word c : is_separator c = true -> c <> "_"%char -> isword c = false.
Proof. by_cases c. intros _ H. exfalso. apply H. reflexivity. Qed.

(** Under IGNORECASE a word character is matched by word characters only. *)
Lemma same_char_word c x :
  Ascii.eqb (lower_ascii c) (lower_ascii x) = true -> isword c = isword x.
Proof.
  intros H. apply Ascii.eqb_eq in H. rewrite <- (isword_lower c), <- (isword_lower x), H.
  reflexivity.
Qed.

Lemma last_cons_some {A} (x : A) l : exists y, last (x :: l) = Some y.
Proof.
  revert x. induction l as [|z l IH]; intros x; [exists x; reflexivity|].
  destruct (IH z) as [y Hy]. exists y. exact Hy.
Qed.

Lemma prev_after_cons prev c u : prev_after prev (c :: u) = prev_after (Some c) u.
Proof.
  unfold prev_after. destruct u as [|d u]; [reflexivity|].
  change (last (c :: d :: u)) with (last (d :: u)).
  destruct (last_cons_some d u) as [y ->]. reflexivity.
Qed.

Lemma prev_after_app prev u v : prev_after prev (u ++ v) = prev_after (prev_after prev u) v.
Proof.
  revert prev. induction u as [|c u IH]; intros prev; [reflexivity|].
  cbn [app]. rewrite !prev_after_cons. apply IH.
Qed.

(** A literal matches a copy of itself, letter case aside. *)
Lemma rmatch_lit W : forall prev s k,
  rmatch (lit_i W) prev s k
  = match after_i W s with
    | Some rest => k (prev_after prev (take (String.length W) s)) rest
    | None => None
    end.
Proof.
  induction W as [|x W IH]; intros prev s k; [reflexivity|].
  destruct W as [|y W].
  - cbn [lit_i after_i String.length]. unfold chr_i. cbn [rmatch].
    destruct s as [|c s]; [reflexivity|].
    destruct (Ascii.eqb (lower_ascii c) (lower_ascii x)); reflexivity.
  - change (lit_i (String x (String y W))) with (Seq (chr_i x) (lit_i (String y W))).
    cbn [rmatch]. unfold chr_i at 1. cbn [rmatch].
    destruct s as [|c s]; [reflexivity|].
    change (after_i (String x (String y W)) (c :: s))
      with (if Ascii.eqb (lower_ascii c) (lower_ascii x)
            then after_i (String y W) s else None).
    destruct (Ascii.eqb (lower_ascii c) (lower_ascii x)); [|reflexivity].
    rewrite IH. change (String.length (String x (String y W))) with (S (String.length (String y W))).
    cbn [take]. rewrite prev_after_cons. reflexivity.
Qed.

(** What is left after a copy of [a], and the copy. *)
Lemma after_i_split a : forall s rest,
  after_i a s = Some rest ->
  exists u, s = u ++ rest /\ length u = String.length a /\ after_i a u = Some []
            /\ take (String.length a) s = u.
Proof.
  induction a as [|x a IH]; intros s rest H; cbn [after_i] in H.
  - injection H as <-. exists []. auto.
  - destruct s as [|c s]; [discriminate|].
    destruct (Ascii.eqb (lower_ascii c) (lower_ascii x)) eqn:E; [|discriminate].
    destruct (IH _ _ H) as (u & -> & Hl & Hu & Ht). exists (c :: u).
    cbn [after_i String.length length take app]. rewrite E, Hl, Hu, Ht. auto.
Qed.

Lemma after_i_app a : forall u rest,
  after_i a u = Some [] -> after_i a (u ++ rest) = Some rest.
Proof.
  induction a as [|x a IH]; intros u rest H; cbn [after_i] in *.
  - injection H as ->. reflexivity.
  - destruct u as [|c u]; [discriminate|]. cbn [app].
    destruct (Ascii.eqb (lower_ascii c) (lower_ascii x)); [|discriminate]. apply IH, H.
Qed.

(** A copy of a run of word characters is a run of word characters. *)
Lemma after_i_word a : forall u,
  after_i a u = Some [] ->
  Forall (fun c => isword c = true) u
  <-> forallb isword (list_ascii_of_string a) = true.
Proof.
  induction a as [|x a IH]; intros u H; cbn [after_i] in H.
  - injection H as ->. split; [reflexivity|constructor].
  - destruct u as [|c u]; [discriminate|].
    destruct (Ascii.eqb (lower_ascii c) (lower_ascii x)) eqn:E; [|discriminate].
    cbn [list_ascii_of_string forallb]. rewrite andb_true_iff, <- (IH u H).
    rewrite <- (same_char_word c x E). split.
    + intros HF. inversion HF; subst. auto.
    + intros [? ?]. constructor; assumption.
Qed.

(** The loop of a greedy repetition of a class, as [rmatch] runs it. *)
#[local] Abbreviation star_loop p k :=
  (fix loop (n : nat) (prev : option ascii) (s : list ascii) {struct n}
     : option (list ascii) :=
     match n with
     | O => k prev s
     | S n' =>
         match
           match s with
           | [] => None
           | c :: s' =>
               if p c
               then if (length s' <? length s)%nat then loop n' (Some c) s' else None
               else None
           end
         with
         | Some rest => Some rest
         | None => k prev s
         end
     end).

Lemma star_loop_run (p : ascii -> bool) (k : cont) r :
  match r with c :: _ => p c = false | [] => True end ->
  forall u n prev,
    Forall (fun c => p c = true) u -> (length u < n)%nat ->
    star_loop p k n prev (u ++ r) = backtrack k prev u r.
Proof.
  intros Hr. induction u as [|c u IH]; intros n prev Hu Hn.
  - destruct n as [|n]; [lia|]. cbn [app backtrack].
    destruct r as [|c r]; [reflexivity|]. rewrite Hr. reflexivity.
  - destruct n as [|n]; [simpl in Hn; lia|]. inversion Hu as [|? ? Hc Hu']; subst.
    cbn [app backtrack]. rewrite Hc.
    replace (length (u ++ r) <? length (c :: u ++ r))%nat with true
      by (symmetry; apply Nat.ltb_lt; simpl; lia).
    rewrite IH by (simpl in Hn; auto; lia). reflexivity.
Qed.

(** A greedy repetition of a class takes the whole run first. *)
Lemma rmatch_star_class p k r :
  match r with c :: _ => p c = false | [] => True end ->
  forall u prev,
    Forall (fun c => p c = true) u ->
    rmatch (Star true (Chr p)) prev (u ++ r) k = backtrack k prev u r.
Proof.
  intros Hr u prev Hu.
  change (rmatch (Star true (Chr p)) prev (u ++ r) k)
    with (star_loop p k (S (length (u ++ r))) prev (u ++ r)).
  apply star_loop_run; [exact Hr|exact Hu|]. rewrite length_app. lia.
Qed.

Lemma rmatch_star_skip r1 prev s k :
  (forall k', rmatch r1 prev s k' = None) -> rmatch (Star true r1) prev s k = k prev s.
Proof. intros H. cbn [rmatch]. rewrite H. reflexivity. Qed.

(** Where what follows fails before every character of the run, only the
    end of the run counts. *)
Lemma backtrack_end (p : ascii -> bool) (k : cont) r : forall u prev,
  Forall (fun c => p c = true) u ->
  (forall prev' c rest, word_before prev' = true -> p c = true ->
                        k prev' (c :: rest) = None) ->
  (forall c, p c = true -> isword c = true) ->
  word_before prev = true ->
  backtrack k prev u r = k (prev_after prev u) r.
Proof.
  induction u as [|c u IH]; intros prev Hu Hk Hp Hprev; [reflexivity|].
  inversion Hu as [|? ? Hc Hu']; subst. cbn [backtrack app].
  rewrite prev_after_cons, IH by (auto; simpl; auto).
  rewrite (Hk prev c (u ++ r) Hprev Hc). destruct (k _ r); reflexivity.
Qed.

(** The digits at the start of a text. *)
Lemma skip_digits_split s :
  exists ds, s = ds ++ skip_digits s
             /\ Forall (fun c => isdecimal c = true) ds
             /\ match skip_digits s with c :: _ => isdecimal c = false | [] => True end.
Proof.
  induction s as [|c s (ds & E & Hd & Hs)]; [exists []; repeat split; constructor|].
  cbn [skip_digits]. destruct (isdecimal c) eqn:Hc.
  - exists (c :: ds). cbn [app]. rewrite <- E. repeat split; [constructor|]; assumption.
  - exists []. repeat split; [constructor|exact Hc].
Qed.

(** The check of \b at the end of a junk pattern. *)
#[local] Abbreviation at_word_end :=
  (fun (prev : option ascii) (rest : list ascii) =>
     if xorb (word_before prev) (word_after rest) then Some rest else None).

Lemma whole_word_eq j prev s (k : cont) :
  rmatch (whole_word j) prev s k
  = if xorb (word_before prev) (word_after s)
    then rmatch j prev s
           (fun prev' s' => if xorb (word_before prev') (word_after s') then k prev' s' else None)
    else None.
Proof. reflexivity. Qed.

Lemma match_at_inside j prev s :
  word_before prev = true -> word_after s = true -> match_at (whole_word j) prev s = None.
Proof. intros H1 H2. unfold match_at. rewrite whole_word_eq, H1, H2. reflexivity. Qed.

Lemma word_after_app v s' :
  Forall (fun c => isword c = true) v -> word_after s' = false ->
  word_after (v ++ s') = match v with [] => false | _ => true end.
Proof. intros Hv Hs. destruct v as [|c v]; [exact Hs|]. inversion Hv; subst. assumption. Qed.

Lemma prev_after_word prev u :
  u <> [] -> Forall (fun c => isword c = true) u -> word_before (prev_after prev u) = true.
Proof.
  intros Hne Hu. unfold prev_after. destruct (last u) as [c|] eqn:E.
  - apply last_Some in E as [l ->]. apply Forall_app in Hu as [_ Hc].
    inversion Hc; subst. assumption.
  - apply last_None in E. contradiction.
Qed.

(** A run of word characters at the start of a text lies within its
    first word. *)
Lemma prefix_of_word w s' u rest :
  Forall (fun c => isword c = true) u -> word_after s' = false ->
  w ++ s' = u ++ rest -> exists v, w = u ++ v /\ rest = v ++ s'.
Proof.
  intros Hu Hs. revert w. induction u as [|c u IH]; intros w E.
  - exists w. auto.
  - inversion Hu as [|? ? Hc Hu']; subst. destruct w as [|x w].
    + cbn [app] in E. subst s'. cbn in Hs. congruence.
    + cbn [app] in E. injection E as -> E. destruct (IH Hu' w E) as (v & -> & ->).
      exists v. auto.
Qed.

Lemma after_i_nonempty W u :
  W <> EmptyString -> after_i W u = Some [] -> u <> [].
Proof. destruct W; [contradiction|]. destruct u; [discriminate|]. discriminate. Qed.

(** What a literal of word characters leaves of a word and what follows
    it, up to the check at its end. *)
Lemma lit_in_word W prev w s' (k : cont) :
  W <> EmptyString -> forallb isword (list_ascii_of_string W) = true ->
  Forall (fun c => isword c = true) w -> word_after s' = false ->
  rmatch (lit_i W) prev (w ++ s') k
  = match after_i W w with
    | Some v => k (prev_after prev (take (String.length W) w)) (v ++ s')
    | None => None
    end.
Proof.
  intros HW Hwordy Hw Hs. rewrite rmatch_lit.
  destruct (after_i W (w ++ s')) as [rest|] eqn:E.
  - destruct (after_i_split _ _ _ E) as (u & Hu & Hl & Hc & Ht).
    assert (Huw : Forall (fun c => isword c = true) u) by (apply (after_i_word W u Hc), Hwordy).
    destruct (prefix_of_word w s' u rest Huw Hs Hu) as (v & -> & ->).
    rewrite (after_i_app W u v Hc). rewrite Ht.
    rewrite take_app_length' by (symmetry; exact Hl). reflexivity.
  - destruct (after_i W w) as [v|] eqn:E'; [|reflexivity].
    destruct (after_i_split _ _ _ E') as (u & -> & _ & Hc & _).
    rewrite <- app_assoc, (after_i_app W u (v ++ s') Hc) in E. discriminate.
Qed.

Lemma after_i_copy W w v :
  after_i W w = Some v -> exists u, w = u ++ v /\ after_i W u = Some []
                                    /\ take (String.length W) w = u.
Proof.
  intros E. destruct (after_i_split _ _ _ E) as (u & -> & Hl & Hc & Ht). exists u. auto.
Qed.

(** The end of a pattern that has read [u] of the word [u ++ v]. *)
Lemma at_word_end_in_word prev u v s' :
  u <> [] -> Forall (fun c => isword c = true) (u ++ v) -> word_after s' = false ->
  (if xorb (word_before (prev_after prev u)) (word_after (v ++ s'))
   then Some (v ++ s') else None)
  = match v with [] => Some s' | _ => None end.
Proof.
  intros Hne Hw Hs. apply Forall_app in Hw as [Hu Hv].
  rewrite (prev_after_word prev u Hne Hu), (word_after_app v s' Hv Hs).
  destruct v; reflexivity.
Qed.

Lemma tag_start W prev w s' :
  W <> EmptyString -> forallb isword (list_ascii_of_string W) = true ->
  Forall (fun c => isword c = true) w -> word_after s' = false ->
  rmatch (lit_i W) prev (w ++ s') at_word_end
  = if same_word W w then Some s' else None.
Proof.
  intros HW Hwordy Hw Hs. rewrite (lit_in_word W prev w s') by assumption.
  unfold same_word. destruct (after_i W w) as [v|] eqn:E; [|reflexivity].
  destruct (after_i_copy _ _ _ E) as (u & -> & Hc & ->).
  cbv beta. rewrite (at_word_end_in_word prev u v s' (after_i_nonempty W u HW Hc) Hw Hs).
  destruct v; reflexivity.
Qed.

Lemma after_i_append a b : forall s,
  after_i (a ++ b) s = match after_i a s with Some mid => after_i b mid | None => None end.
Proof.
  induction a as [|x a IH]; intros s; [reflexivity|].
  change (String x a ++ b)%string with (String x (a ++ b)%string). cbn [after_i].
  destruct s as [|c s]; [reflexivity|].
  destruct (Ascii.eqb (lower_ascii c) (lower_ascii x)); [apply IH|reflexivity].
Qed.

Lemma phrase_start head rest prev w s' (k : cont) :
  well_formed (Phrase head rest) = true ->
  Forall (fun c => isword c = true) w -> word_after s' = false ->
  same_word head w = false ->
  rmatch (lit_i (head ++ rest)) prev (w ++ s') k = None.
Proof.
  unfold well_formed. intros Hwf Hw Hs Hh.
  apply andb_prop in Hwf as [Hwf _]. apply andb_prop in Hwf as [Hwf Hr].
  apply andb_prop in Hwf as [Hne Hwordy].
  rewrite rmatch_lit, after_i_append.
  destruct (after_i head (w ++ s')) as [mid|] eqn:E; [|reflexivity].
  destruct (after_i_split _ _ _ E) as (u & Hu & Hl & Hc & Ht).
  assert (Huw : Forall (fun c => isword c = true) u) by (apply (after_i_word head u Hc), Hwordy).
  destruct (prefix_of_word w s' u mid Huw Hs Hu) as (v & -> & ->).
  destruct (list_ascii_of_string rest) as [|c0 r0] eqn:Er; [discriminate|].
  destruct rest as [|x rest]; [discriminate|]. cbn [list_ascii_of_string] in Er.
  injection Er as <- <-. cbn [after_i].
  destruct (v ++ s') as [|c m] eqn:Em; [reflexivity|].
  destruct (Ascii.eqb (lower_ascii c) (lower_ascii x)) eqn:Ec; [|reflexivity].
  exfalso. apply same_char_word in Ec. apply negb_true_iff in Hr. rewrite Hr in Ec.
  destruct v as [|y v].
  - unfold same_word in Hh. rewrite app_nil_r in Hh. rewrite Hc in Hh. discriminate.
  - cbn [app] in Em. injection Em as -> _. apply Forall_app in Hw as [_ Hv].
    inversion Hv; subst. congruence.
Qed.

Lemma digit_not_dot c : isdecimal c = true -> Ascii.eqb "." c = false.
Proof. by_cases c. Qed.

Lemma word_not_dot c : isword c = true -> Ascii.eqb "." c = false.
Proof. by_cases c. Qed.

Lemma not_word_not_digit c : isword c = false -> isdecimal c = false.
Proof. by_cases c. Qed.

Lemma not_word_not_letter c : isword c = false -> letter c = false.
Proof. by_cases c. Qed.

Lemma word_not_space c : isword c = true -> isspace c = false.
Proof. by_cases c. Qed.

Lemma skip_digits_word s :
  Forall (fun c => isword c = true) s -> Forall (fun c => isword c = true) (skip_digits s).
Proof.
  intros H. destruct (skip_digits_split s) as (ds & E & _). rewrite E in H.
  apply Forall_app in H. tauto.
Qed.

(** \d+ within a word: the digits at the start of [v], all of them,
    when what follows fails before a digit. *)
Lemma plus_digit_in_word prev v s' (k : cont) :
  word_before prev = true ->
  Forall (fun c => isword c = true) v -> word_after s' = false ->
  (forall prev' c rest, word_before prev' = true -> isdecimal c = true ->
                        k prev' (c :: rest) = None) ->
  exists prev',
    word_before prev' = true
    /\ rmatch (plus digit) prev (v ++ s') k
       = match v with
         | c :: v' => if isdecimal c then k prev' (skip_digits v' ++ s') else None
         | [] => None
         end.
Proof.
  intros Hprev Hv Hs Hk.
  destruct v as [|c v].
  - exists prev. split; [exact Hprev|]. cbn [app].
    destruct s' as [|x s']; [reflexivity|]. cbn in Hs.
    change (rmatch (plus digit) prev (x :: s') k)
      with (if isdecimal x then rmatch (Star true (Chr isdecimal)) (Some x) s' k else None).
    rewrite (not_word_not_digit x Hs). reflexivity.
  - inversion Hv as [|? ? Hc Hv']; subst. cbn [app].
    change (rmatch (plus digit) prev (c :: v ++ s') k)
      with (if isdecimal c then rmatch (Star true (Chr isdecimal)) (Some c) (v ++ s') k
            else None).
    destruct (isdecimal c) eqn:Hd; [|exists prev; auto].
    destruct (skip_digits_split v) as (ds & E & Hds & Hstop).
    exists (prev_after (Some c) ds). split.
    + destruct ds as [|d ds]; [exact Hc|]. apply prev_after_word; [discriminate|].
      eapply Forall_impl; [exact Hds|]. apply digit_word.
    + rewrite E at 1. rewrite <- app_assoc.
      rewrite rmatch_star_class; [|  |exact Hds].
      * apply (backtrack_end isdecimal); auto using digit_word.
      * destruct (skip_digits v) as [|x r]; [|exact Hstop]. cbn [app].
        destruct s' as [|x s']; [exact I|]. cbn in Hs. apply not_word_not_digit, Hs.
Qed.

Lemma at_word_end_before_digit prev' c rest :
  word_before prev' = true -> isdecimal c = true -> at_word_end prev' (c :: rest) = None.
Proof.
  intros Hp Hc. cbv beta. rewrite Hp. cbn [word_after]. rewrite (digit_word c Hc). reflexivity.
Qed.

Lemma numbered_start W blanks prev w s' :
  well_formed (Numbered W blanks) = true ->
  Forall (fun c => isword c = true) w -> word_after s' = false ->
  heads (Numbered W blanks) w = false ->
  rmatch (pattern_of (Numbered W blanks)) prev (w ++ s') at_word_end
  = if takes (Numbered W blanks) w then Some s' else None.
Proof.
  unfold well_formed. intros Hwf Hw Hs Hh.
  apply andb_prop in Hwf as [Hne Hwordy]. apply negb_true_iff, String.eqb_neq in Hne.
  assert (Hlit : forall k,
             rmatch (lit_i W) prev (w ++ s') k
             = match after_i W w with
               | Some v => k (prev_after prev (take (String.length W) w)) (v ++ s')
               | None => None
               end) by (intros; apply lit_in_word; assumption).
  cbn [takes]. destruct (after_i W w) as [v|] eqn:E.
  - destruct (after_i_copy _ _ _ E) as (u & -> & Hc & Ht).
    pose proof (after_i_nonempty W u Hne Hc) as Hu.
    pose proof Hw as Hw'. apply Forall_app in Hw' as [Huw Hvw].
    destruct (plus_digit_in_word (prev_after prev u) v s' at_word_end
                (prev_after_word prev u Hu Huw) Hvw Hs at_word_end_before_digit)
      as (p' & Hp' & Hplus).
    assert (Hfin : rmatch (plus digit) (prev_after prev u) (v ++ s') at_word_end
                   = if number v then Some s' else None).
    { rewrite Hplus. unfold number. destruct v as [|c v]; [reflexivity|].
      destruct (isdecimal c); [|reflexivity]. cbn [andb]. cbv beta. rewrite Hp'.
      inversion Hvw; subst.
      rewrite (word_after_app (skip_digits v) s') by (auto using skip_digits_word).
      destruct (skip_digits v); reflexivity. }
    destruct blanks; cbn [pattern_of rmatch]; rewrite Hlit, Ht.
    + destruct v as [|c v].
      * exfalso. cbn [heads] in Hh. unfold same_word in Hh. rewrite E in Hh. discriminate.
      * inversion Hvw; subst.
        change (rmatch (Star true (Chr isspace)) (prev_after prev u) ([] ++ (c :: v) ++ s')
                  (fun prev' s'0 => rmatch (plus digit) prev' s'0 at_word_end)
                = if number (c :: v) then Some s' else None).
        rewrite rmatch_star_class; [exact Hfin| |constructor].
        cbn [app]. apply word_not_space. assumption.
    + exact Hfin.
  - destruct blanks; cbn [pattern_of rmatch]; rewrite Hlit; reflexivity.
Qed.

(** (\.\d+)*[a-z]? and the check of \b after it. *)
#[local] Abbreviation version_tail :=
  (fun (prev : option ascii) (s : list ascii) =>
     rmatch (Seq (star (Seq (chr ".") (plus digit))) (opt az_i)) prev s at_word_end).

Lemma version_tail_eq prev s :
  match s with c :: _ => Ascii.eqb "." c = false | [] => True end ->
  version_tail prev s
  = match match s with
          | c :: s' => if letter c then at_word_end (Some c) s' else None
          | [] => None
          end
    with
    | Some rest => Some rest
    | None => at_word_end prev s
    end.
Proof.
  intros Hs. cbv beta.
  change (rmatch (Seq (star (Seq (chr ".") (plus digit))) (opt az_i)) prev s at_word_end)
    with (rmatch (Star true (Seq (chr ".") (plus digit))) prev s
            (fun prev' s' => rmatch (opt az_i) prev' s' at_word_end)).
  rewrite rmatch_star_skip; [reflexivity|].
  intros k'. destruct s as [|c s]; [reflexivity|].
  change (rmatch (Seq (chr ".") (plus digit)) prev (c :: s) k')
    with (if Ascii.eqb "." c then rmatch (plus digit) (Some c) s k' else None).
  rewrite Hs. reflexivity.
Qed.

Lemma version_start prev w s' :
  Forall (fun c => isword c = true) w -> word_after s' = false ->
  match s' with c :: _ => Ascii.eqb "." c = false | [] => True end ->
  rmatch (pattern_of Version) prev (w ++ s') at_word_end
  = if takes Version w then Some s' else None.
Proof.
  intros Hw Hs Hdot. cbn [takes pattern_of after_i].
  assert (Hgap : forall x, isword x = false ->
                   Ascii.eqb (lower_ascii x) (lower_ascii "v") = false).
  { intros x Hx. destruct (Ascii.eqb _ _) eqn:E; [|reflexivity].
    apply same_char_word in E. rewrite Hx in E. discriminate. }
  destruct w as [|c w].
  - cbn [app]. destruct s' as [|x s']; [reflexivity|]. cbn in Hs.
    change (rmatch (Seq (chr_i "v") ?r) prev (x :: s') ?k)
      with (if Ascii.eqb (lower_ascii x) (lower_ascii "v")
            then rmatch r (Some x) s' k else None).
    rewrite (Hgap x Hs). reflexivity.
  - inversion Hw as [|? ? Hc Hw']; subst. cbn [app].
    change (rmatch (Seq (chr_i "v") ?r) prev (c :: w ++ s') ?k)
      with (if Ascii.eqb (lower_ascii c) (lower_ascii "v")
            then rmatch r (Some c) (w ++ s') k else None).
    destruct (Ascii.eqb (lower_ascii c) (lower_ascii "v")); [|reflexivity].
    change (rmatch (Seq (plus digit) ?r) (Some c) (w ++ s') at_word_end)
      with (rmatch (plus digit) (Some c) (w ++ s') (fun p t => rmatch r p t at_word_end)).
    destruct (plus_digit_in_word (Some c) w s' version_tail Hc Hw' Hs) as (p' & Hp' & ->).
    { intros prev' d rest Hprev' Hd.
      rewrite version_tail_eq by (apply digit_not_dot, Hd).
      rewrite (at_word_end_before_digit prev' d rest Hprev' Hd).
      destruct (letter d) eqn:Hl; [|reflexivity].
      apply letter_not_digit in Hl. congruence. }
    destruct w as [|d w]; [reflexivity|]. inversion Hw' as [|? ? Hd Hw'']; subst.
    destruct (isdecimal d); [|reflexivity]. cbn [andb].
    pose proof (skip_digits_word w Hw'') as Hr.
    rewrite version_tail_eq.
    + destruct (skip_digits w) as [|a r].
      * cbn [app]. cbv beta. rewrite Hp', Hs. cbn [xorb].
        destruct s' as [|x s']; [reflexivity|]. cbn in Hs.
        rewrite (not_word_not_letter x Hs). reflexivity.
      * inversion Hr as [|? ? Ha Hr']; subst. cbn [app]. cbv beta.
        rewrite Hp'. cbn [word_after word_before]. rewrite Ha. cbn [xorb].
        rewrite (word_after_app r s' Hr' Hs).
        destruct (letter a), r; reflexivity.
    + destruct (skip_digits w) as [|a r]; [exact Hdot|].
      inversion Hr; subst. apply word_not_dot. assumption.
Qed.

(** No junk pattern starts in a character that is not a word character. *)
Lemma kind_gap k prev c s (K : cont) :
  well_formed k = true -> isword c = false ->
  rmatch (pattern_of k) prev (c :: s) K = None.
Proof.
  intros Hwf Hc.
  assert (Hlit : forall W k', W <> EmptyString ->
                   forallb isword (list_ascii_of_string W) = true ->
                   rmatch (lit_i W) prev (c :: s) k' = None).
  { intros W k' HW Hwordy. rewrite rmatch_lit. destruct W as [|x W]; [contradiction|].
    cbn [after_i]. destruct (Ascii.eqb _ _) eqn:E; [|reflexivity].
    apply same_char_word in E. cbn in Hwordy. apply andb_prop in Hwordy as [Hx _].
    congruence. }
  destruct k as [W|head rest| |W blanks]; unfold well_formed in Hwf.
  - apply andb_prop in Hwf as [Hne Hwordy]. apply negb_true_iff, String.eqb_neq in Hne.
    apply Hlit; assumption.
  - apply andb_prop in Hwf as [Hwf _]. apply andb_prop in Hwf as [Hwf _].
    apply andb_prop in Hwf as [Hne Hwordy]. apply negb_true_iff, String.eqb_neq in Hne.
    cbn [pattern_of]. rewrite rmatch_lit, after_i_append.
    destruct head as [|x head]; [contradiction|]. cbn [after_i].
    destruct (Ascii.eqb _ _) eqn:E; [|reflexivity].
    apply same_char_word in E. cbn in Hwordy. apply andb_prop in Hwordy as [Hx _].
    congruence.
  - cbn [pattern_of].
    change (rmatch (Seq (chr_i "v") ?r) prev (c :: s) K)
      with (if Ascii.eqb (lower_ascii c) (lower_ascii "v")
            then rmatch r (Some c) s K else None).
    destruct (Ascii.eqb _ _) eqn:E; [|reflexivity].
    apply same_char_word in E. rewrite Hc in E. discriminate.
  - apply andb_prop in Hwf as [Hne Hwordy]. apply negb_true_iff, String.eqb_neq in Hne.
    destruct blanks; cbn [pattern_of rmatch]; apply Hlit; assumption.
Qed.

Lemma match_at_gap k prev c s :
  well_formed k = true -> isword c = false ->
  match_at (whole_word (pattern_of k)) prev (c :: s) = None.
Proof.
  intros Hwf Hc. unfold match_at. rewrite whole_word_eq.
  destruct (xorb _ _); [|reflexivity]. rewrite kind_gap by assumption. reflexivity.
Qed.

(** At the start of a word that heads no phrase of the entry, the entry
    matches the word or nothing. *)
Lemma match_at_start k prev w s' :
  well_formed k = true ->
  word_before prev = false ->
  w <> [] -> Forall (fun c => isword c = true) w -> word_after s' = false ->
  match s' with c :: _ => Ascii.eqb "." c = false | [] => True end ->
  heads k w = false ->
  match_at (whole_word (pattern_of k)) prev (w ++ s')
  = if takes k w then Some (length w) else None.
Proof.
  intros Hwf Hprev Hne Hw Hs Hdot Hh. unfold match_at. rewrite whole_word_eq, Hprev.
  rewrite (word_after_app w s' Hw Hs). destruct w as [|c0 w0]; [contradiction|].
  cbn [xorb]. set (w := c0 :: w0) in *.
  assert (E : rmatch (pattern_of k) prev (w ++ s') at_word_end
              = if takes k w then Some s' else None).
  { destruct k as [W|head rest| |W blanks].
    - unfold well_formed in Hwf. apply andb_prop in Hwf as [HW Hwordy].
      apply negb_true_iff, String.eqb_neq in HW. apply tag_start; assumption.
    - apply phrase_start; assumption.
    - apply version_start; assumption.
    - apply numbered_start; assumption. }
  cbv beta in E. rewrite E. destruct (takes k w); [|reflexivity].
  rewrite length_app. f_equal. lia.
Qed.

Lemma kinds_junk : map pattern_of kinds = junk.
Proof. reflexivity. Qed.

Lemma kinds_well_formed : Forall (fun k => well_formed k = true) kinds.
Proof. apply List.Forall_forall. apply forallb_forall. vm_compute. reflexivity. Qed.

End PatternFacts.

(** ** Texts, word by word *)

Section TextFacts.
Import PyStr Re CleanName NameWords.

Lemma word_span s :
  exists w rest, s = w ++ rest /\ Forall (fun c => isword c = true) w
                 /\ word_after rest = false.
Proof.
  induction s as [|c s (w & rest & -> & Hw & Hr)]; [exists [], []; repeat split; constructor|].
  destruct (isword c) eqn:Hc.
  - exists (c :: w), rest. repeat split; [constructor|]; assumption.
  - exists [], (c :: w ++ rest). repeat split; [constructor|exact Hc].
Qed.

(** A text is empty, or starts with a character that is not a word
    character, or is a word, or starts with a word and such a character. *)
Lemma text_ind (P : list ascii -> Prop) :
  P [] ->
  (forall c s, isword c = false -> P s -> P (c :: s)) ->
  (forall w, w <> [] -> Forall (fun c => isword c = true) w -> P w) ->
  (forall w c s, w <> [] -> Forall (fun c => isword c = true) w -> isword c = false ->
                 P s -> P (w ++ c :: s)) ->
  forall s, P s.
Proof.
  intros Hnil Hgap Hend Hword s.
  assert (H : forall n s, (length s <= n)%nat -> P s).
  { clear s. induction n as [|n IH]; intros s Hl.
    - destruct s; [exact Hnil|simpl in Hl; lia].
    - destruct s as [|c s]; [exact Hnil|]. simpl in Hl.
      destruct (isword c) eqn:Hc; [|apply Hgap; [exact Hc|apply IH; lia]].
      destruct (word_span (c :: s)) as (w & rest & E & Hw & Hr).
      assert (Hne : w <> []).
      { intros ->. cbn [app] in E. subst rest. cbn in Hr. congruence. }
      rewrite E. destruct rest as [|x rest].
      + rewrite app_nil_r. apply Hend; assumption.
      + apply Hword; try assumption. apply IH.
        apply (f_equal (@length ascii)) in E. rewrite length_app in E. simpl in E.
        destruct w; [contradiction|]. simpl in E. lia. }
  apply (H (length s)). lia.
Qed.

Lemma words_from_app_gap a c b : forall acc,
  isword c = false -> words_from acc (a ++ c :: b) = words_from acc a ++ words b.
Proof.
  induction a as [|x a IH]; intros acc Hc.
  - cbn [app words_from]. rewrite Hc. destruct acc; reflexivity.
  - cbn [app words_from]. destruct (isword x); [apply IH, Hc|].
    destruct acc; rewrite IH by exact Hc; reflexivity.
Qed.

Lemma words_from_word w : forall acc,
  Forall (fun c => isword c = true) w -> acc ++ w <> [] ->
  words_from acc w = [rev acc ++ w].
Proof.
  induction w as [|c w IH]; intros acc Hw Hne.
  - rewrite app_nil_r in *. destruct acc; [contradiction|reflexivity].
  - inversion Hw as [|? ? Hc Hw']; subst. cbn [words_from]. rewrite Hc.
    rewrite IH by (auto; discriminate). cbn [rev]. rewrite <- app_assoc. reflexivity.
Qed.

Lemma words_word w :
  w <> [] -> Forall (fun c => isword c = true) w -> words w = [w].
Proof. intros Hne Hw. apply (words_from_word w []); [exact Hw|exact Hne]. Qed.

Lemma words_gap c s : isword c = false -> words (c :: s) = words s.
Proof. intros Hc. unfold words. cbn [words_from]. rewrite Hc. reflexivity. Qed.

Lemma words_word_gap w c s :
  w <> [] -> Forall (fun c => isword c = true) w -> isword c = false ->
  words (w ++ c :: s) = w :: words s.
Proof.
  intros Hne Hw Hc. unfold words. rewrite words_from_app_gap by exact Hc.
  fold (words w). rewrite words_word by assumption. reflexivity.
Qed.

(** Nothing matches inside a word. *)
Lemma remove_from_inside j w s' : forall prev,
  word_before prev = true -> Forall (fun c => isword c = true) w ->
  remove_from (whole_word j) prev (w ++ s') 0
  = w ++ remove_from (whole_word j) (prev_after prev w) s' 0.
Proof.
  induction w as [|c w IH]; intros prev Hprev Hw; [reflexivity|].
  inversion Hw as [|? ? Hc Hw']; subst. cbn [app remove_from].
  rewrite match_at_inside by assumption. rewrite prev_after_cons, IH by assumption.
  reflexivity.
Qed.

Lemma remove_from_skip r u s' : forall prev,
  remove_from r prev (u ++ s') (length u) = remove_from r (prev_after prev u) s' 0.
Proof.
  induction u as [|c u IH]; intros prev; [reflexivity|].
  cbn [app length remove_from]. rewrite prev_after_cons. apply IH.
Qed.

Lemma found_from_inside j w s' : forall prev,
  word_before prev = true -> Forall (fun c => isword c = true) w ->
  found_from (whole_word j) prev (w ++ s') = found_from (whole_word j) (prev_after prev w) s'.
Proof.
  induction w as [|c w IH]; intros prev Hprev Hw; [reflexivity|].
  inversion Hw as [|? ? Hc Hw']; subst. cbn [app found_from].
  rewrite match_at_inside by assumption. rewrite prev_after_cons, IH by assumption.
  reflexivity.
Qed.

(** What a junk pattern does to a word that heads none of its phrases. *)
Lemma remove_from_word k prev w s' :
  well_formed k = true -> word_before prev = false ->
  w <> [] -> Forall (fun c => isword c = true) w -> word_after s' = false ->
  match s' with c :: _ => Ascii.eqb "." c = false | [] => True end ->
  heads k w = false ->
  remove_from (whole_word (pattern_of k)) prev (w ++ s') 0
  = (if takes k w then [] else w)
    ++ remove_from (whole_word (pattern_of k)) (prev_after prev w) s' 0.
Proof.
  intros Hwf Hprev Hne Hw Hs Hdot Hh.
  pose proof (match_at_start k prev w s' Hwf Hprev Hne Hw Hs Hdot Hh) as Hm.
  destruct w as [|c w]; [contradiction|]. inversion Hw as [|? ? Hc Hw']; subst.
  cbn [app remove_from]. cbn [app] in Hm. rewrite Hm, prev_after_cons.
  destruct (takes k (c :: w)).
  - cbn [length]. apply remove_from_skip.
  - rewrite remove_from_inside by assumption. reflexivity.
Qed.

Lemma found_from_word k prev w s' :
  well_formed k = true -> word_before prev = false ->
  w <> [] -> Forall (fun c => isword c = true) w -> word_after s' = false ->
  match s' with c :: _ => Ascii.eqb "." c = false | [] => True end ->
  heads k w = false -> takes k w = false ->
  found_from (whole_word (pattern_of k)) prev (w ++ s')
  = found_from (whole_word (pattern_of k)) (prev_after prev w) s'.
Proof.
  intros Hwf Hprev Hne Hw Hs Hdot Hh Ht.
  pose proof (match_at_start k prev w s' Hwf Hprev Hne Hw Hs Hdot Hh) as Hm.
  rewrite Ht in Hm.
  destruct w as [|c w]; [contradiction|]. inversion Hw as [|? ? Hc Hw']; subst.
  cbn [app found_from]. cbn [app] in Hm. rewrite Hm, prev_after_cons.
  apply found_from_inside; assumption.
Qed.

(** The text has no dot. *)
#[local] Abbreviation dotless := (Forall (fun c : ascii => Ascii.eqb "." c = false)).

(** A junk pattern removes the words that it takes, and no other. *)
Lemma words_remove_from k :
  well_formed k = true ->
  forall s, dotless s -> Forall (fun w => heads k w = false) (words s) ->
  forall prev, word_before prev = false ->
    words (remove_from (whole_word (pattern_of k)) prev s 0)
    = List.filter (fun w => negb (takes k w)) (words s).
Proof.
  intros Hwf s. induction s as [|c s Hc IH|w Hne Hw|w c s Hne Hw Hc IH] using text_ind;
    intros Hdot Hh prev Hprev.
  - reflexivity.
  - cbn [remove_from]. rewrite match_at_gap by assumption.
    rewrite (words_gap c s Hc) in *. rewrite (words_gap c _ Hc).
    inversion Hdot; subst. apply IH; auto.
  - rewrite (words_word w Hne Hw) in *. inversion Hh as [|? ? Hhw _]; subst.
    rewrite <- (app_nil_r w) at 1.
    rewrite remove_from_word by (auto; exact I). cbn [remove_from List.filter].
    rewrite app_nil_r. destruct (takes k w); [reflexivity|]. apply words_word; assumption.
  - rewrite (words_word_gap w c s Hne Hw Hc) in *. inversion Hh as [|? ? Hhw Hhs]; subst.
    apply Forall_app in Hdot as [_ Hdot]. inversion Hdot as [|? ? Hdc Hds]; subst.
    rewrite remove_from_word by (auto; cbn; assumption).
    cbn [remove_from]. rewrite match_at_gap by assumption. cbn [List.filter].
    destruct (takes k w); cbn [negb app].
    + rewrite words_gap by assumption. apply IH; auto.
    + rewrite words_word_gap by assumption. f_equal. apply IH; auto.
Qed.

(** It finds nothing in a text of which it takes no word. *)
Lemma found_from_nothing k :
  well_formed k = true ->
  forall s, dotless s ->
  Forall (fun w => heads k w = false /\ takes k w = false) (words s) ->
  forall prev, word_before prev = false ->
    found_from (whole_word (pattern_of k)) prev s = false.
Proof.
  intros Hwf s. induction s as [|c s Hc IH|w Hne Hw|w c s Hne Hw Hc IH] using text_ind;
    intros Hdot Hh prev Hprev.
  - reflexivity.
  - cbn [found_from]. rewrite match_at_gap by assumption.
    rewrite (words_gap c s Hc) in *. inversion Hdot; subst. apply IH; auto.
  - rewrite (words_word w Hne Hw) in *. inversion Hh as [|? ? [Hhw Htw] _]; subst.
    rewrite <- (app_nil_r w).
    rewrite found_from_word by (auto; exact I). reflexivity.
  - rewrite (words_word_gap w c s Hne Hw Hc) in *. inversion Hh as [|? ? [Hhw Htw] Hhs]; subst.
    apply Forall_app in Hdot as [_ Hdot]. inversion Hdot as [|? ? Hdc Hds]; subst.
    rewrite found_from_word by (auto; cbn; assumption).
    cbn [found_from]. rewrite match_at_gap by assumption. apply IH; auto.
Qed.

Lemma filter_twice {A} (f g : A -> bool) l :
  List.filter g (List.filter f l) = List.filter (fun x => f x && g x) l.
Proof.
  induction l as [|x l IH]; [reflexivity|]. cbn [List.filter].
  destruct (f x); cbn [List.filter andb]; [destruct (g x)|]; rewrite IH; reflexivity.
Qed.

Lemma Forall_List_filter {A} (Q : A -> Prop) (f : A -> bool) l :
  Forall Q l -> Forall Q (List.filter f l).
Proof.
  induction 1 as [|x l Hx _ IH]; [constructor|]. cbn [List.filter].
  destruct (f x); [constructor|]; assumption.
Qed.

Ltac find_head H l :=
  match l with
  | ?h :: ?l' => first [ exists h; split; [cbn; tauto|exact H] | find_head H l' ]
  end.

(** The word that heads a phrase of an entry is among [phrase_heads]. *)
Lemma heads_phrase_heads :
  Forall (fun k => forall w, heads k w = true -> heads_phrase w = true) kinds.
Proof.
  unfold kinds.
  repeat (constructor;
          [intros w H; cbn [heads] in H; try discriminate H;
           apply existsb_exists;
           let l := eval unfold phrase_heads in phrase_heads in find_head H l|]).
  constructor.
Qed.

(** The junk patterns, one after the other, remove the words that one of
    them takes and leave the others, in a text without dots and without
    the first word of a junk phrase. *)
Lemma words_fold_junk ks :
  Forall (fun k => well_formed k = true) ks ->
  Forall (fun k => forall w, heads k w = true -> heads_phrase w = true) ks ->
  forall n, dotless n -> Forall (fun w => heads_phrase w = false) (words n) ->
    words (fold_left (fun n j => remove (whole_word j) n) (map pattern_of ks) n)
    = List.filter (fun w => forallb (fun k => negb (takes k w)) ks) (words n).
Proof.
  induction ks as [|k ks IH]; intros Hwf Hhd n Hdot Hph.
  - cbn [map fold_left forallb]. clear. induction (words n) as [|w l IHl]; [reflexivity|].
    cbn [List.filter]. rewrite <- IHl. reflexivity.
  - inversion Hwf as [|? ? Hk Hwf']; inversion Hhd as [|? ? Hkh Hhd']; subst.
    cbn [map fold_left forallb].
    assert (Hw1 : words (remove (whole_word (pattern_of k)) n)
                  = List.filter (fun w => negb (takes k w)) (words n)).
    { apply (words_remove_from k Hk n Hdot); [|reflexivity].
      eapply Forall_impl; [exact Hph|]. intros w Hw. cbv beta in *.
      destruct (heads k w) eqn:E; [|reflexivity]. apply Hkh in E. congruence. }
    rewrite IH; auto.
    + rewrite Hw1. apply filter_twice.
    + eapply Forall_sublist; [apply remove_sublist|exact Hdot].
    + rewrite Hw1. apply Forall_List_filter, Hph.
Qed.

(** A pattern that starts with the character [x] finds nothing where
    there is no [x]. *)
Lemma found_from_first r x :
  (forall prev c s, Ascii.eqb x c = false -> match_at r prev (c :: s) = None) ->
  forall s prev, Forall (fun c => Ascii.eqb x c = false) s -> found_from r prev s = false.
Proof.
  intros Hr. induction s as [|c s IH]; intros prev Hs; [reflexivity|].
  inversion Hs; subst. cbn [found_from]. rewrite Hr by assumption. apply IH. assumption.
Qed.

Lemma match_at_first x r prev c s :
  Ascii.eqb x c = false -> match_at (Seq (chr x) r) prev (c :: s) = None.
Proof. intros H. unfold match_at, chr. cbn [rmatch]. rewrite H. reflexivity. Qed.

End TextFacts.

(** ** The separators at the two ends *)

Section EdgeFacts.
Import PyStr Re CleanName NameWords.

Lemma lstrip_split s :
  exists u, s = u ++ lstrip s
            /\ Forall (fun c => is_separator c = true) u
            /\ match lstrip s with c :: _ => is_separator c = false | [] => True end.
Proof.
  induction s as [|c s (u & E & Hu & Hs)]; [exists []; repeat split; constructor|].
  cbn [lstrip]. destruct (is_separator c) eqn:Hc.
  - exists (c :: u). cbn [app]. rewrite <- E. repeat split; [constructor|]; assumption.
  - exists []. repeat split; [constructor|exact Hc].
Qed.

Lemma lstrip_nil s : lstrip s = [] <-> forallb is_separator s = true.
Proof.
  induction s as [|c s IH]; [split; reflexivity|]. cbn [lstrip forallb].
  destruct (is_separator c); [exact IH|]. split; discriminate.
Qed.

Lemma backtrack_first u r : forall prev,
  backtrack (fun _ rest => Some rest) prev u r = Some r.
Proof. induction u as [|c u IH]; intros prev; [reflexivity|]. cbn [backtrack]. rewrite IH. reflexivity. Qed.

(** [$] after a run of separators: only the end of the text will do. *)
Lemma backtrack_eol u r : forall prev,
  match r with c :: _ => is_separator c = false | [] => True end ->
  backtrack (fun _ t => if at_eol t then Some t else None) prev u r
  = match r with [] => Some [] | _ => None end.
Proof.
  induction u as [|c u IH]; intros prev Hr.
  - cbn [backtrack]. destruct r as [|x [|y r]]; try reflexivity.
    cbn [at_eol]. destruct (Ascii.eqb_spec x "010"); [|reflexivity].
    subst x. discriminate Hr.
  - cbn [backtrack]. rewrite IH by exact Hr. destruct r as [|x r]; [reflexivity|].
    cbn [app at_eol]. destruct (u ++ x :: r) eqn:E; [|reflexivity].
    destruct u; discriminate E.
Qed.

Lemma plus_separator prev c s (k : cont) :
  rmatch (plus separator) prev (c :: s) k
  = if is_separator c then rmatch (Star true (Chr is_separator)) (Some c) s k else None.
Proof. reflexivity. Qed.

(** After the start of the text [edges] matches a run of separators that
    ends the text, and nothing else. *)
Lemma match_at_edges_later p s :
  match_at edges (Some p) s
  = match s with
    | _ :: _ => if forallb is_separator s then Some (length s) else None
    | [] => None
    end.
Proof.
  unfold match_at, edges.
  change (rmatch (Alt (Seq Bol (plus separator)) (Seq (plus separator) Eol)) (Some p) s
            (fun _ rest => Some rest))
    with (rmatch (plus separator) (Some p) s
            (fun _ t => if at_eol t then Some t else None)).
  destruct s as [|c s]; [reflexivity|]. rewrite plus_separator. cbn [forallb].
  destruct (is_separator c); [|reflexivity]. cbn [andb].
  destruct (lstrip_split s) as (u & E & Hu & Hs).
  rewrite E at 1. rewrite rmatch_star_class by assumption. rewrite backtrack_eol by exact Hs.
  destruct (lstrip s) as [|x r] eqn:El.
  - apply lstrip_nil in El. rewrite El. reflexivity.
  - destruct (forallb is_separator s) eqn:Ef; [|reflexivity].
    apply lstrip_nil in Ef. congruence.
Qed.

(** At the start of the text it matches the separators that are there. *)
Lemma match_at_edges_start s :
  match_at edges None s
  = match s with
    | c :: _ => if is_separator c then Some (length s - length (lstrip s))%nat else None
    | [] => None
    end.
Proof.
  unfold match_at, edges. destruct s as [|c s]; [reflexivity|].
  change (rmatch (Alt (Seq Bol (plus separator)) (Seq (plus separator) Eol)) None (c :: s)
            (fun _ rest => Some rest))
    with (match rmatch (plus separator) None (c :: s) (fun _ rest => Some rest) with
          | Some rest => Some rest
          | None => rmatch (plus separator) None (c :: s)
                      (fun _ t => if at_eol t then Some t else None)
          end).
  rewrite !plus_separator. cbn [lstrip]. destruct (is_separator c); [|reflexivity].
  destruct (lstrip_split s) as (u & E & Hu & Hs).
  rewrite E at 1. rewrite rmatch_star_class by assumption. rewrite backtrack_first.
  reflexivity.
Qed.

Lemma prev_after_some c u : exists p, prev_after (Some c) u = Some p.
Proof.
  unfold prev_after. destruct (last u) as [x|]; [exists x|exists c]; reflexivity.
Qed.

Lemma remove_from_edges_later s : forall p, remove_from edges (Some p) s 0 = rstrip s.
Proof.
  induction s as [|c s IH]; intros p; [reflexivity|].
  cbn [remove_from]. rewrite match_at_edges_later. cbn [rstrip].
  destruct (forallb is_separator (c :: s)).
  - cbn [length]. rewrite <- (app_nil_r s) at 1. rewrite remove_from_skip. reflexivity.
  - rewrite IH. reflexivity.
Qed.

(** [edges] removes the separators at the two ends. *)
Lemma remove_edges n : remove edges n = rstrip (lstrip n).
Proof.
  unfold remove. destruct n as [|c n]; [reflexivity|].
  cbn [remove_from]. rewrite match_at_edges_start. cbn [lstrip].
  destruct (is_separator c) eqn:Hc.
  - destruct (lstrip_split n) as (u & E & Hu & Hs).
    assert (Hl : (length (c :: n) - length (lstrip n))%nat = S (length u)).
    { rewrite E at 1. cbn [length]. rewrite length_app. lia. }
    rewrite Hl. rewrite E at 1. rewrite remove_from_skip.
    destruct (prev_after_some c u) as [p ->]. apply remove_from_edges_later.
  - rewrite remove_from_edges_later. cbn [rstrip forallb]. rewrite Hc. reflexivity.
Qed.

Lemma separator_not_space c : is_separator c = false -> isspace c = false.
Proof. by_cases c. Qed.

Lemma words_lstrip s :
  Forall (fun c => c <> "_"%char) s -> words (lstrip s) = words s.
Proof.
  induction 1 as [|c s Hc _ IH]; [reflexivity|]. cbn [lstrip].
  destruct (is_separator c) eqn:E; [|reflexivity].
  rewrite (words_gap c s) by (apply separator_not_word; assumption). exact IH.
Qed.

Lemma words_from_nonword s : forall acc,
  Forall (fun c => isword c = false) s -> words_from acc s = words_from acc [].
Proof.
  induction s as [|c s IH]; intros acc Hs; [reflexivity|]. inversion Hs as [|? ? Hc Hs']; subst.
  cbn [words_from]. rewrite Hc. rewrite (IH [] Hs'). destruct acc; reflexivity.
Qed.

Lemma words_from_rstrip s : forall acc,
  Forall (fun c => c <> "_"%char) s -> words_from acc (rstrip s) = words_from acc s.
Proof.
  induction s as [|c s IH]; intros acc Hs; [reflexivity|].
  inversion Hs as [|? ? Hc Hs']; subst. cbn [rstrip].
  destruct (forallb is_separator (c :: s)) eqn:E.
  - symmetry. apply words_from_nonword. apply List.Forall_forall. intros x Hx.
    rewrite forallb_forall in E. apply separator_not_word; [apply E, Hx|].
    rewrite List.Forall_forall in Hs. apply Hs, Hx.
  - cbn [words_from]. destruct (isword c); [apply IH, Hs'|].
    destruct acc; rewrite IH by exact Hs'; reflexivity.
Qed.

Lemma words_trim s :
  Forall (fun c => c <> "_"%char) s -> words (rstrip (lstrip s)) = words s.
Proof.
  intros Hs. unfold words at 1. rewrite words_from_rstrip.
  - apply words_lstrip, Hs.
  - destruct (lstrip_split s) as (u & E & _). rewrite E in Hs.
    apply Forall_app in Hs. tauto.
Qed.

Lemma rstrip_nil s : rstrip s = [] -> forallb is_separator s = true.
Proof.
  destruct s as [|c s]; [reflexivity|]. cbn [rstrip].
  destruct (forallb is_separator (c :: s)); [reflexivity|discriminate].
Qed.

Lemma rstrip_last s :
  match last (rstrip s) with Some c => is_separator c = false | None => True end.
Proof.
  induction s as [|c s IH]; [exact I|]. cbn [rstrip].
  destruct (forallb is_separator (c :: s)) eqn:E; [exact I|].
  destruct (rstrip s) as [|x t] eqn:Er.
  - apply rstrip_nil in Er. cbn [forallb] in E. rewrite Er, andb_true_r in E. exact E.
  - exact IH.
Qed.

Lemma rstrip_head s :
  match rstrip s, s with
  | c :: _, x :: _ => c = x
  | _, _ => True
  end.
Proof.
  destruct s as [|x s]; [exact I|]. cbn [rstrip].
  destruct (forallb is_separator (x :: s)); [exact I|reflexivity].
Qed.

(** A text with no separator at either end is left as it is. *)
Lemma trim_fixed s :
  match s with c :: _ => is_separator c = false | [] => True end ->
  match last s with Some c => is_separator c = false | None => True end ->
  rstrip (lstrip s) = s.
Proof.
  intros Hh Hl.
  assert (E : lstrip s = s) by (destruct s as [|c s]; [reflexivity|]; cbn [lstrip]; rewrite Hh;
                                reflexivity).
  rewrite E. clear E Hh. induction s as [|c s IH]; [reflexivity|]. cbn [rstrip].
  assert (Hf : forallb is_separator (c :: s) = false).
  { destruct (forallb is_separator (c :: s)) eqn:Ef; [|reflexivity].
    destruct (last_cons_some c s) as [x El]. rewrite El in Hl.
    rewrite forallb_forall in Ef. rewrite <- Hl. symmetry. apply Ef.
    apply last_Some in El as [l' ->]. apply in_or_app. right. left. reflexivity. }
  rewrite Hf. f_equal. destruct s as [|x s]; [reflexivity|]. apply IH. exact Hl.
Qed.

Lemma remove_fixed_not_found r s : forall prev,
  remove_from r prev s 0 = s -> found_from r prev s = false.
Proof.
  induction s as [|c s IH]; intros prev H; [reflexivity|]. cbn [remove_from found_from] in *.
  destruct (match_at r prev (c :: s)) as [[|n]|].
  - injection H as H. apply IH, H.
  - exfalso. pose proof (remove_from_sublist r s (Some c) n) as Hs.
    apply sublist_length in Hs. rewrite H in Hs. simpl in Hs. lia.
  - injection H as H. apply IH, H.
Qed.

End EdgeFacts.

(** ** Collapsing the white space *)

Section CollapseFacts.
Import PyStr Re CleanName NameWords.

Lemma words_split s : forall acc,
  concat (map words (split_from acc s)) = words (rev acc ++ s).
Proof.
  induction s as [|c s IH]; intros acc.
  - cbn [split_from]. rewrite app_nil_r. destruct acc; [reflexivity|].
    cbn [map concat]. apply app_nil_r.
  - cbn [split_from]. destruct (isspace c) eqn:Hc.
    + unfold words at 2. rewrite words_from_app_gap by (apply space_not_word, Hc).
      fold (words (rev acc)). specialize (IH []). cbn [rev app] in IH.
      destruct acc as [|a acc]; [exact IH|]. cbn [map concat]. rewrite IH. reflexivity.
    + rewrite IH. cbn [rev]. rewrite <- app_assoc. reflexivity.
Qed.

Lemma words_join ws :
  words (join_space ws) = concat (map words ws).
Proof.
  induction ws as [|w ws IH]; [reflexivity|].
  destruct ws as [|w2 ws]; [cbn [join_space map concat]; symmetry; apply app_nil_r|].
  change (join_space (w :: w2 :: ws)) with (w ++ " "%char :: join_space (w2 :: ws)).
  unfold words at 1. rewrite words_from_app_gap by reflexivity.
  fold (words w). rewrite IH. reflexivity.
Qed.

(** Collapsing the white space keeps the words. *)
Lemma words_collapse s : words (collapse s) = words s.
Proof. unfold collapse, split. rewrite words_join. apply (words_split s []). Qed.

Lemma Forall_join (Q : ascii -> Prop) ws :
  Q " "%char -> Forall (Forall Q) ws -> Forall Q (join_space ws).
Proof.
  intros Hsp. induction 1 as [|w ws Hw Hws IH]; [constructor|].
  destruct ws as [|w2 ws]; [exact Hw|].
  change (join_space (w :: w2 :: ws)) with (w ++ " "%char :: join_space (w2 :: ws)).
  apply Forall_app. split; [exact Hw|]. constructor; assumption.
Qed.

Lemma Forall_collapse (Q : ascii -> Prop) s :
  Q " "%char -> Forall Q s -> Forall Q (collapse s).
Proof.
  intros Hsp Hs. apply Forall_join; [exact Hsp|].
  apply split_from_Forall; [constructor|exact Hs].
Qed.

Lemma join_head ws :
  Forall word ws ->
  match join_space ws with c :: _ => isspace c = false | [] => ws = [] end.
Proof.
  intros H. destruct H as [|w ws [Hne Hw] Hws]; [reflexivity|].
  assert (Hj : exists t, join_space (w :: ws) = w ++ t).
  { destruct ws; [exists []; cbn; symmetry; apply app_nil_r|eexists; reflexivity]. }
  destruct Hj as [t ->]. destruct w as [|c w]; [contradiction|].
  inversion Hw; subst. assumption.
Qed.

Lemma join_last ws :
  Forall word ws ->
  match last (join_space ws) with Some c => isspace c = false | None => ws = [] end.
Proof.
  induction 1 as [|w ws [Hne Hw] Hws IH]; [reflexivity|].
  destruct ws as [|w2 ws].
  - cbn [join_space]. destruct (last w) as [c|] eqn:E.
    + apply last_Some in E as [l ->]. apply Forall_app in Hw as [_ Hc].
      inversion Hc; subst. assumption.
    + apply last_None in E. contradiction.
  - change (join_space (w :: w2 :: ws)) with (w ++ " "%char :: join_space (w2 :: ws)).
    rewrite last_app. destruct (join_space (w2 :: ws)) as [|x t] eqn:Ej.
    + discriminate IH.
    + change (last (" "%char :: x :: t)) with (last (x :: t)).
      destruct (last_cons_some x t) as [y Hy]. rewrite Hy in *. exact IH.
Qed.

Lemma last_filter (p : ascii -> bool) l c :
  last l = Some c -> p c = true -> last (List.filter p l) = Some c.
Proof.
  intros Hl Hp. apply last_Some in Hl as [l' ->]. rewrite List.filter_app.
  cbn [List.filter]. rewrite Hp. apply last_snoc.
Qed.

(** Collapsing keeps the two ends of a text that has no white space
    there. *)
Lemma collapse_ends t :
  match t with c :: _ => isspace c = false | [] => True end ->
  match last t with Some c => isspace c = false | None => True end ->
  match collapse t, t with
  | c :: _, x :: _ => c = x
  | [], [] => True
  | _, _ => False
  end
  /\ last (collapse t) = last t.
Proof.
  intros Hh Hl.
  pose proof (filter_collapse t) as Hf.
  assert (Hws : Forall word (split t)) by (apply split_from_words; constructor).
  pose proof (join_head _ Hws) as Jh. pose proof (join_last _ Hws) as Jl.
  fold (collapse t) in Jh, Jl.
  destruct t as [|x t]; [split; reflexivity|].
  cbn [List.filter] in Hf. unfold nonspace in Hf at 2. rewrite Hh in Hf. cbn [negb] in Hf.
  destruct (collapse (x :: t)) as [|c y] eqn:Ey; [discriminate Hf|].
  cbn [List.filter] in Hf. unfold nonspace in Hf at 1. rewrite Jh in Hf. cbn [negb] in Hf.
  injection Hf as -> Hf. split; [reflexivity|].
  destruct (last_cons_some x t) as [d Hd]. rewrite Hd in Hl |- *.
  destruct (last_cons_some x y) as [e He]. rewrite He in Jl |- *.
  assert (H1 : last (List.filter nonspace (x :: y)) = Some e)
    by (apply last_filter; [exact He|unfold nonspace; rewrite Jl; reflexivity]).
  assert (H2 : last (List.filter nonspace (x :: t)) = Some d)
    by (apply last_filter; [exact Hd|unfold nonspace; rewrite Hl; reflexivity]).
  rewrite <- Ey, filter_collapse in H1. congruence.
Qed.

End CollapseFacts.

(** ** Names without brackets and phrase words *)

Section PhraseFreeFacts.
Import PyStr Re CleanName NameWords.

Lemma not_found_without x r s :
  Forall (fun c => Ascii.eqb x c = false) s -> found (Seq (chr x) r) s = false.
Proof.
  intros Hs. apply (found_from_first (Seq (chr x) r) x); [|exact Hs].
  intros prev c s' Hc. apply match_at_first, Hc.
Qed.

#[local] Abbreviation bare :=
  (Forall (fun c : ascii => (c <> "."%char /\ c <> "_"%char)
                            /\ Ascii.eqb "[" c = false /\ Ascii.eqb "(" c = false)).

Lemma bare_no_dot s : bare s -> Forall (fun c => Ascii.eqb "." c = false) s.
Proof.
  apply List.Forall_impl. intros c [[Hd _] _]. destruct (Ascii.eqb_spec "." c); congruence.
Qed.

Lemma bare_no_underscore s : bare s -> Forall (fun c => c <> "_"%char) s.
Proof. apply List.Forall_impl. tauto. Qed.

Lemma phrase_free_bare x :
  phrase_free x = true ->
  let n := replace_char "_" " " (replace_char "." " " (list_ascii_of_string x)) in
  bare n /\ Forall (fun w => heads_phrase w = false) (words n).
Proof.
  unfold phrase_free. intros [Hb Hp]%andb_prop. cbv zeta. split.
  - pose proof (replaced_no_dots (list_ascii_of_string x)) as Hd.
    rewrite forallb_forall in Hb. rewrite List.Forall_forall in Hd |- *.
    intros c Hc. split; [apply Hd, Hc|]. specialize (Hb c Hc).
    rewrite negb_orb in Hb. apply andb_prop in Hb as [H1 H2].
    apply negb_true_iff in H1, H2. rewrite Ascii.eqb_sym in H1. rewrite Ascii.eqb_sym in H2.
    split; assumption.
  - rewrite forallb_forall in Hp. apply List.Forall_forall. intros w Hw.
    apply negb_true_iff, Hp, Hw.
Qed.

(** The body of [_clean_name] on a text without brackets: the bracket
    passes find nothing, and the last pass trims the two ends. *)
Lemma clean_chars_bare x :
  let n := replace_char "_" " " (replace_char "." " " (list_ascii_of_string x)) in
  let n1 := fold_left (fun n j => remove (whole_word j) n) junk n in
  bare n ->
  clean_chars (list_ascii_of_string x) = collapse (rstrip (lstrip n1)) /\ bare n1.
Proof.
  intros n n1 Hn.
  assert (H1 : bare n1) by (apply (Forall_sublist _ n1 n); [apply fold_remove_sublist|exact Hn]).
  split; [|exact H1]. unfold clean_chars. fold n. fold n1.
  rewrite (remove_nothing bracketed n1)
    by (apply not_found_without; revert H1; apply List.Forall_impl; tauto).
  rewrite (remove_nothing year n1)
    by (apply not_found_without; revert H1; apply List.Forall_impl; tauto).
  rewrite (remove_nothing parenthesized n1)
    by (apply not_found_without; revert H1; apply List.Forall_impl; tauto).
  rewrite remove_edges. reflexivity.
Qed.

(** The junk patterns find nothing among words that none of them takes
    and none of them starts with. *)
Lemma junk_not_found y :
  Forall (fun c => Ascii.eqb "." c = false) y ->
  Forall (fun w => heads_phrase w = false
                   /\ forallb (fun k => negb (takes k w)) kinds = true) (words y) ->
  forallb (fun r => negb (found r y)) (map whole_word junk) = true.
Proof.
  intros Hd Hw. rewrite <- kinds_junk. apply forallb_forall. intros r Hr.
  apply in_map_iff in Hr as (j & <- & Hj). apply in_map_iff in Hj as (k & <- & Hk).
  apply negb_true_iff.
  pose proof kinds_well_formed as Hwf. pose proof heads_phrase_heads as Hh.
  rewrite List.Forall_forall in Hwf, Hh.
  apply (found_from_nothing k (Hwf k Hk) y Hd); [|reflexivity].
  revert Hw. apply List.Forall_impl. intros w [Hp Ht]. split.
  - destruct (heads k w) eqn:E; [|reflexivity]. apply (Hh k Hk) in E. congruence.
  - rewrite forallb_forall in Ht. apply negb_true_iff, Ht, Hk.
Qed.

(** A collapsed, trimmed text has no separator at either end, so the last
    pass finds nothing in it. *)
Lemma edges_not_found s :
  let y := collapse (rstrip (lstrip s)) in found edges y = false.
Proof.
  intros y. apply remove_fixed_not_found. fold (remove edges y). rewrite remove_edges.
  set (t := rstrip (lstrip s)) in *.
  assert (Hh : match t with c :: _ => is_separator c = false | [] => True end).
  { unfold t. pose proof (rstrip_head (lstrip s)) as Hr.
    destruct (lstrip_split s) as (_ & _ & _ & Hl).
    destruct (lstrip s) as [|a l]; [exact I|].
    destruct (rstrip (a :: l)) as [|c r]; [exact I|]. subst c. exact Hl. }
  pose proof (rstrip_last (lstrip s)) as Hl. fold t in Hl.
  destruct (collapse_ends t) as [Eh El].
  - destruct t; [exact I|apply separator_not_space, Hh].
  - destruct (last t); [apply separator_not_space, Hl|exact I].
  - fold y in Eh, El. apply trim_fixed.
    + destruct y as [|c y']; [exact I|]. destruct t as [|a t']; [contradiction|].
      subst c. exact Hh.
    + rewrite El. exact Hl.
Qed.

(** On a name without brackets and phrase words one run of [_clean_name]
    leaves nothing for a second one to rewrite. *)
Lemma phrase_free_settled x :
  phrase_free x = true -> settled (_clean_name x) = true.
Proof.
  intros Hx. apply phrase_free_bare in Hx as [Hn Hp]. cbv zeta in Hn, Hp.
  destruct (clean_chars_bare x Hn) as [E H1]. cbv zeta in E, H1.
  set (n := replace_char "_" " " (replace_char "." " " (list_ascii_of_string x))) in *.
  set (n1 := fold_left (fun n j => remove (whole_word j) n) junk n) in *.
  set (t := rstrip (lstrip n1)) in *.
  assert (Ht : bare t).
  { apply (Forall_sublist _ t n1); [|exact H1]. unfold t. rewrite <- remove_edges.
    apply remove_sublist. }
  assert (Hy : bare (collapse t)).
  { apply Forall_collapse; [|exact Ht]. repeat split; discriminate. }
  assert (Hw : words (collapse t)
               = List.filter (fun w => forallb (fun k => negb (takes k w)) kinds) (words n)).
  { rewrite words_collapse. unfold t. rewrite words_trim by (apply bare_no_underscore, H1).
    unfold n1. rewrite <- kinds_junk.
    apply (words_fold_junk kinds kinds_well_formed heads_phrase_heads n);
      [apply bare_no_dot, Hn|exact Hp]. }
  unfold settled, _clean_name. rewrite E, list_ascii_of_string_of_list_ascii.
  apply andb_true_intro. split.
  - apply forallb_forall. intros c Hc. rewrite List.Forall_forall in Hy.
    destruct (Hy c Hc) as [[Hd Hu] _].
    destruct (Ascii.eqb_spec c "."); [contradiction|].
    destruct (Ascii.eqb_spec c "_"); [contradiction|]. reflexivity.
  - unfold passes. rewrite forallb_app. apply andb_true_intro. split.
    + apply junk_not_found; [apply bare_no_dot, Hy|]. rewrite Hw.
      apply List.Forall_forall. intros w Hin. apply filter_In in Hin as [Hin Hk].
      rewrite List.Forall_forall in Hp. split; [apply Hp, Hin|exact Hk].
    + cbn [forallb]. unfold bracketed, year, parenthesized.
      rewrite (not_found_without "[" _ (collapse t))
        by (revert Hy; apply List.Forall_impl; tauto).
      rewrite !(not_found_without "(" _ (collapse t))
        by (revert Hy; apply List.Forall_impl; tauto).
      unfold t. rewrite (edges_not_found n1). reflexivity.
Qed.

End PhraseFreeFacts.

(** The bracket passes come after the junk list: a word that they join
    is junk only for a second run. *)
Lemma clean_name_joins_around_brackets :
  CleanName._clean_name "De[x]mo" = "Demo"
  /\ CleanName._clean_name "Demo" = EmptyString.
Proof. split; vm_compute; reflexivity. Qed.


